(** * Mondaq analytics dashboard: the data pipeline of [mondaq_dashboard_app.py]

    A shallow embedding of the load / join / filter / derive / aggregate
    pipeline of the dashboard script, and the properties its specification
    states about it.

    Conventions of the embedding.
    - A data frame is the list of its rows, in index order; a row is a record
      with one field per column the script reads.
    - A nullable cell (NaN, NaT, None) is an [option]; [None] is the null.
    - A read count is a whole number ([Z]).  The library holds a column of
      counts in a 64-bit type: as int64 when every cell of the column in
      the file is there, as float64 when a cell is null; sums are taken in
      that type, wrapping in int64 and rounded in float64.  The cells of
      an int64 column lie in the int64 range, those of a float64 column
      are doubles; totals beyond the finite doubles are left out.
    - Timestamps are [Z] (nanoseconds since the epoch).
    - A text cell is a [string] whose characters are code points 0..255.
    - The three files carry the columns the script reads, and their date
      text carries no UTC offset: a file that lacks a column, on which the
      script raises [KeyError], and dates with an offset, on which the
      time filter raises [TypeError], are left out. *)

From Stdlib Require Import ZArith Ascii String Sorting.Sorted.
From Stdlib Require DecimalString DecimalNat.
From stdpp Require Import base option list sorting gmap strings fin_maps.

Local Open Scope string_scope.
Local Open Scope list_scope.
Local Open Scope Z_scope.

(** ** Text: [str.lower], [in], [str.split] *)

Module Str.

(** Code point of a character. *)
Definition code (c : ascii) : N := N_of_ascii c.

(** The cased upper-case code points below 256: A..Z, and 0xC0..0xDE
    without the multiplication sign 0xD7. *)
Definition is_upper (c : ascii) : bool :=
  let n := code c in
  (((65 <=? n) && (n <=? 90)) ||
   ((192 <=? n) && (n <=? 222) && negb (n =? 215)))%N.

(** [str.lower] on one character: the lower-case partner is 32 above. *)
Definition lower_char (c : ascii) : ascii :=
  if is_upper c then ascii_of_N (code c + 32) else c.

(** [s.lower()] *)
Fixpoint lower (s : string) : string :=
  match s with
  | EmptyString => EmptyString
  | String c s' => String (lower_char c) (lower s')
  end.

(** [c.isspace()]: tab..carriage return, the four separators 0x1C..0x1F,
    the space, NEL and the no-break space. *)
Definition isspace (c : ascii) : bool :=
  let n := code c in
  (((9 <=? n) && (n <=? 13)) || ((28 <=? n) && (n <=? 32)) ||
   (n =? 133) || (n =? 160))%N.

(** [s.startswith(w)] *)
Fixpoint startswith (w s : string) : bool :=
  match w, s with
  | EmptyString, _ => true
  | String a w', String b s' => if Ascii.eqb a b then startswith w' s' else false
  | String _ _, EmptyString => false
  end.

(** [w in s]: [w] starts at some position of [s]. *)
Fixpoint contains (w s : string) : bool :=
  startswith w s ||
  match s with
  | EmptyString => false
  | String _ s' => contains w s'
  end.

(** The scanner behind [s.split()] with no separator: [cur] is the token
    being read, kept reversed; runs of white space separate tokens and
    produce no empty token. *)
Definition flush (cur : list ascii) : list string :=
  match cur with
  | [] => []
  | _ => [string_of_list_ascii (rev cur)]
  end.

Fixpoint split_go (cur : list ascii) (s : string) : list string :=
  match s with
  | EmptyString => flush cur
  | String c s' =>
      if isspace c then flush cur ++ split_go [] s'
      else split_go (c :: cur) s'
  end.

(** [s.split()] *)
Definition split (s : string) : list string := split_go [] s.

End Str.

(** ** Feature derivers *)

(** Line 93. *)
Definition topic_keywords : list string :=
  ["tax"; "esg"; "mergers"; "acquisition"; "privacy"; "compliance";
   "digital"; "technology"; "employment"].

(** The [for word in topic_keywords] loop of [match_topic], with its early
    [return word] and the final [return 'other']. *)
Fixpoint match_topic_loop (words : list string) (title : string) : string :=
  match words with
  | [] => "other"
  | word :: rest =>
      if Str.contains word title then word else match_topic_loop rest title
  end.

(** Lines 94-99. *)
Definition match_topic (title : string) : string :=
  let title := Str.lower title in
  match_topic_loop topic_keywords title.

(** [Series.dropna()] *)
Definition dropna {A} (col : list (option A)) : list A := omap id col.

(** [Series.fillna(v)] on one cell. *)
Definition fillna {A} (v : A) (cell : option A) : option A :=
  match cell with
  | Some x => Some x
  | None => Some v
  end.

(** What [Series.apply(match_topic)] does on one cell.  A null cell is the
    float NaN, which has no [lower] method: the call raises. *)
Inductive py_error := AttributeError | FileNotFoundError.

Definition apply_match_topic (cell : option string) : py_error + string :=
  match cell with
  | Some title => inr (match_topic title)
  | None => inl AttributeError
  end.

(** [Series.apply(f)]: the first raising cell aborts the whole call. *)
Fixpoint series_apply {A B} (f : A → py_error + B) (col : list A)
  : py_error + list B :=
  match col with
  | [] => inr []
  | x :: col' =>
      match f x with
      | inl e => inl e
      | inr y =>
          match series_apply f col' with
          | inl e => inl e
          | inr ys => inr (y :: ys)
          end
      end
  end.

(** Line 101: [topic_df['Title'].fillna('').apply(match_topic)], on the
    Title column. *)
Definition topic_column (titles : list (option string)) : py_error + list string :=
  series_apply apply_match_topic (fillna "" <$> titles).

(** Line 108. *)
Definition stopwords : list string :=
  ["the"; "and"; "for"; "with"; "from"; "this"; "that"; "will"; "how";
   "can"; "are"].

(** [Series.explode()]: every element of a list cell gets a row of its own;
    an empty list cell gives one null row. *)
Definition explode {A} (col : list (list A)) : list (option A) :=
  col ≫= λ cell,
    match cell with
    | [] => [None]
    | _ => Some <$> cell
    end.

(** [Series.isin(values)] on one cell; a null cell is in no list of
    strings. *)
Definition isin (values : list string) (cell : option string) : bool :=
  match cell with
  | Some s => bool_decide (s ∈ values)
  | None => false
  end.

(** Line 107: [Title.dropna().str.lower().str.split().explode()]. *)
Definition keywords (titles : list (option string)) : list (option string) :=
  explode (Str.split <$> (Str.lower <$> dropna titles)).

(** Line 108: [keywords[~keywords.isin([...])]]. *)
Definition clean_keywords (titles : list (option string)) : list (option string) :=
  filter (λ k, negb (isin stopwords k) = true) (keywords titles).

(** [Series.value_counts()] as the finite map from each value to the number
    of its occurrences; null cells are not counted ([dropna=True]).  The map
    carries no order: the ranking of the counts is a separate step. *)
Fixpoint value_counts (col : list (option string)) : gmap string nat :=
  match col with
  | [] => ∅
  | None :: col' => value_counts col'
  | Some s :: col' =>
      let m := value_counts col' in
      <[s := S (default 0%nat (m !! s))]> m
  end.

(** ** Data model: the columns the script reads *)

(** A row of [Reader-MondaqAnalytics.csv].  [D] is the type of a date cell:
    raw text as read from the file, a timestamp after [pd.to_datetime]. *)
Module Reader.
Record t (D : Type) := mk {
  Email : option string;
  Country : option string;
  Industry : option string;
  Position : option string;
  Activity_Desc : option string;
  Reads : option Z;
  Last_Access_Date : D;
}.
Arguments mk {D}.
Arguments Email {D}.
Arguments Country {D}.
Arguments Industry {D}.
Arguments Position {D}.
Arguments Activity_Desc {D}.
Arguments Reads {D}.
Arguments Last_Access_Date {D}.
End Reader.

(** A row of [Article-MondaqAnalytics.csv].  The renaming of line 31 reads
    the columns [Reads_article] and [Author Name_article]: the merge adds
    these suffixes only to columns that both files carry, so both the
    article file and the author file have a [Reads] and an [Author Name]
    column. *)
Module Article.
Record t (D : Type) := mk {
  Title : option string;
  Date : D;
  Author_Id : option Z;
  Reads : option Z;
  Author_Name : option string;
}.
Arguments mk {D}.
Arguments Title {D}.
Arguments Date {D}.
Arguments Author_Id {D}.
Arguments Reads {D}.
Arguments Author_Name {D}.
End Article.

(** A row of [Author-MondaqAnalytics.csv]. *)
Module Author.
Record t := mk {
  Author_Id : option Z;
  Author_Name : option string;
  Reads : option Z;
}.
End Author.

(** A row of [merged_df] after the renaming of line 31: [Article_Reads] is
    [Reads_article], [Author_Name] is [Author Name_article]; the author
    side keeps its [_author] suffix and is null when no author matches. *)
Module Merged.
Record t := mk {
  Title : option string;
  Date : option Z;
  Author_Id : option Z;
  Article_Reads : option Z;
  Author_Name : option string;
  Author_Name_author : option string;
  Reads_author : option Z;
}.
End Merged.

Abbreviation raw_reader := (Reader.t (option string)).
Abbreviation reader := (Reader.t (option Z)).
Abbreviation raw_article := (Article.t (option string)).
Abbreviation article := (Article.t (option Z)).
Abbreviation author := Author.t.
Abbreviation merged := Merged.t.

(** ** Joiner *)

(** One output row of the merge: the article's columns, and the matching
    author's columns or nulls. *)
Definition merge_row (a : article) (u : option author) : merged :=
  {| Merged.Title := Article.Title a;
     Merged.Date := Article.Date a;
     Merged.Author_Id := Article.Author_Id a;
     Merged.Article_Reads := Article.Reads a;
     Merged.Author_Name := Article.Author_Name a;
     Merged.Author_Name_author := u ≫= Author.Author_Name;
     Merged.Reads_author := u ≫= Author.Reads |}.

(** The article columns of a merged row. *)
Definition article_of (m : merged) : article :=
  {| Article.Title := Merged.Title m;
     Article.Date := Merged.Date m;
     Article.Author_Id := Merged.Author_Id m;
     Article.Reads := Merged.Article_Reads m;
     Article.Author_Name := Merged.Author_Name m |}.

(** Lines 30-31: [article_df.merge(author_df, on='Author Id', how='left')].
    Every article row, in order, is paired with each author row that has
    the same key (null keys match each other), or with nulls when there is
    none. *)
Definition merge_left (article_df : list article) (author_df : list author)
  : list merged :=
  article_df ≫= λ a,
    match filter (λ u, Author.Author_Id u = Article.Author_Id a) author_df with
    | [] => [merge_row a None]
    | us => merge_row a ∘ Some <$> us
    end.

(** ** Filter engine *)

(** The four entries of the time-window select box (line 42). *)
Inductive date_option := All_Time | Last_7_Days | Last_30_Days | Last_90_Days.

(** [timedelta(days=n)] in nanoseconds. *)
Definition timedelta_days (n : Z) : Z := n * 86400 * 1000000000.

(** Lines 43-50; [now] is the reading of [datetime.now()]. *)
Definition date_cutoff (now : Z) (o : date_option) : option Z :=
  match o with
  | Last_7_Days => Some (now - timedelta_days 7)
  | Last_30_Days => Some (now - timedelta_days 30)
  | Last_90_Days => Some (now - timedelta_days 90)
  | All_Time => None
  end.

(** One cell of the mask [column >= date_cutoff]: a null date (NaT)
    compares false. *)
Definition date_ge (cell : option Z) (cutoff : Z) : Prop :=
  match cell with
  | Some d => cutoff ≤ d
  | None => False
  end.

Global Instance date_ge_dec cell cutoff : Decision (date_ge cell cutoff) :=
  match cell with
  | Some d => Z.le_dec cutoff d
  | None => right (λ H : False, H)
  end.

(** Lines 58-59 and 62-63: [if date_cutoff: df = df[df[col] >= date_cutoff]].
    A [datetime] is always truthy, so the mask is applied whenever a cutoff
    was chosen. *)
Definition filter_date {R} (col : R → option Z) (cutoff : option Z)
    (df : list R) : list R :=
  match cutoff with
  | Some c => filter (λ r, date_ge (col r) c) df
  | None => df
  end.

(** Lines 54-57: [if choice != "All": df = df[df[col] == choice]]. *)
Definition filter_choice {R} (col : R → option string) (choice : string)
    (df : list R) : list R :=
  if decide (choice ≠ "All") then filter (λ r, col r = Some choice) df
  else df.

(** Lines 53-59 as a function of the rows. *)
Definition filtered_reader_df (reader_df : list reader)
    (country_filter industry_filter : string) (cutoff : option Z)
  : list reader :=
  filter_date Reader.Last_Access_Date cutoff
    (filter_choice Reader.Industry industry_filter
       (filter_choice Reader.Country country_filter reader_df)).

(** Lines 61-63 as a function of the rows. *)
Definition filtered_merged_df (merged_df : list merged) (cutoff : option Z)
  : list merged :=
  filter_date Merged.Date cutoff merged_df.

(** ** Frames in memory

    A Python variable holds a reference to a data frame.  The store maps
    each reference to the rows of its frame; [copy()] and indexing with a
    mask build a new frame under a fresh reference. *)

Section Frames.
Context {R : Type}.

(** A script: a state transformer over the store of frames, [None] when
    it reads a reference that holds no frame. *)
Definition script (A : Type) : Type :=
  gmap nat (list R) → option (A * gmap nat (list R)).

Definition ret {A} (x : A) : script A := λ σ, Some (x, σ).

Definition bind {A B} (m : script A) (k : A → script B) : script B :=
  λ σ,
    match m σ with
    | Some (x, σ') => k x σ'
    | None => None
    end.

(** [df.copy()] *)
Definition df_copy (df : nat) : script nat :=
  λ σ,
    match σ !! df with
    | Some rows => let new := fresh (dom σ) in Some (new, <[new := rows]> σ)
    | None => None
    end.

(** [df[mask]] for the mask that holds on the rows satisfying [P]. *)
Definition df_getitem (df : nat) (P : R → Prop) `{!∀ r, Decision (P r)}
  : script nat :=
  λ σ,
    match σ !! df with
    | Some rows =>
        let new := fresh (dom σ) in Some (new, <[new := filter P rows]> σ)
    | None => None
    end.
End Frames.

Notation "'let*' x := m 'in' k" := (bind m (λ x, k))
  (at level 10, x name, m at level 100, k at level 200, only parsing).

(** Lines 53-59 on the store; the local name [filtered_reader_df] is
    rebound by each assignment. *)
Definition apply_reader_filters (reader_df : nat)
    (country_filter industry_filter : string) (cutoff : option Z)
  : script (R := reader) nat :=
  let* filtered_reader_df := df_copy reader_df in
  let* filtered_reader_df :=
    (if decide (country_filter ≠ "All")
     then df_getitem filtered_reader_df
            (λ r, Reader.Country r = Some country_filter)
     else ret filtered_reader_df) in
  let* filtered_reader_df :=
    (if decide (industry_filter ≠ "All")
     then df_getitem filtered_reader_df
            (λ r, Reader.Industry r = Some industry_filter)
     else ret filtered_reader_df) in
  let* filtered_reader_df :=
    (match cutoff with
     | Some c =>
         df_getitem filtered_reader_df
           (λ r, date_ge (Reader.Last_Access_Date r) c)
     | None => ret filtered_reader_df
     end) in
  ret filtered_reader_df.

(** ** The default sort of the numerical library

    [sort_values] is called without [kind], so the ranking is done by
    [ndarray.argsort(kind='quicksort')].  Its reference implementation is an
    introsort over the index array [tosort]: median-of-three quicksort on
    ranges of more than 17 indices, insertion sort on the short ranges, and
    heapsort once the recursion budget [cdepth] is used up.  [v] is the
    array of values, [v !!! (tosort !!! p)] is the C expression [v[*p]]. *)

Module Numpy.

Definition SMALL_QUICKSORT : nat := 16.

Section Argsort.
Variable v : list Z.

(** [v[*p]] *)
Definition at_ (tosort : list nat) (p : nat) : Z := v !!! (tosort !!! p).

(** [INTP_SWAP] of the cells [pa] and [pb] *)
Definition INTP_SWAP (tosort : list nat) (pa pb : nat) : list nat :=
  <[pb := tosort !!! pa]> (<[pa := tosort !!! pb]> tosort).

(** [if (v[*pa] < v[*pb])] swap the cells [pa] and [pb] *)
Definition swap_if_less (tosort : list nat) (pa pb : nat) : list nat :=
  if bool_decide (at_ tosort pa < at_ tosort pb)
  then INTP_SWAP tosort pa pb else tosort.

(** [do { ++pi; } while (v[*pi] < vp);] *)
Fixpoint scan_up (fuel : nat) (tosort : list nat) (vp : Z) (pi : nat) : nat :=
  let pi := S pi in
  match fuel with
  | O => pi
  | S fuel' =>
      if bool_decide (at_ tosort pi < vp) then scan_up fuel' tosort vp pi
      else pi
  end.

(** [do { --pj; } while (vp < v[*pj]);] *)
Fixpoint scan_down (fuel : nat) (tosort : list nat) (vp : Z) (pj : nat) : nat :=
  let pj := pred pj in
  match fuel with
  | O => pj
  | S fuel' =>
      if bool_decide (vp < at_ tosort pj) then scan_down fuel' tosort vp pj
      else pj
  end.

(** The [for (;;)] loop of the partition; returns the index array and
    the final [pi]. *)
Fixpoint partition_loop (fuel : nat) (tosort : list nat) (vp : Z)
    (pi pj : nat) : list nat * nat :=
  let pi := scan_up (length tosort) tosort vp pi in
  let pj := scan_down (length tosort) tosort vp pj in
  if bool_decide (pj ≤ pi)%nat then (tosort, pi)
  else
    match fuel with
    | O => (tosort, pi)
    | S fuel' => partition_loop fuel' (INTP_SWAP tosort pi pj) vp pi pj
    end.

(** The [while (pj > pl && vp < v[*pk]) { *pj-- = *pk--; }] loop of the
    insertion sort; returns the index array and the final [pj]. *)
Fixpoint shift_right (fuel : nat) (tosort : list nat) (pl : nat) (vp : Z)
    (pj : nat) : list nat * nat :=
  match fuel with
  | O => (tosort, pj)
  | S fuel' =>
      if bool_decide (pl < pj)%nat && bool_decide (vp < at_ tosort (pred pj))
      then shift_right fuel' (<[pj := tosort !!! pred pj]> tosort) pl vp (pred pj)
      else (tosort, pj)
  end.

(** [for (pi = ...; pi <= pr; ++pi)] of the insertion sort, [count]
    iterations from [pi] on. *)
Fixpoint insertion_for (count : nat) (tosort : list nat) (pl pi : nat)
  : list nat :=
  match count with
  | O => tosort
  | S count' =>
      let vi := tosort !!! pi in
      let vp := v !!! vi in
      let '(tosort, pj) := shift_right pi tosort pl vp pi in
      insertion_for count' (<[pj := vi]> tosort) pl (S pi)
  end.

(** The insertion sort of the range [pl..pr]. *)
Definition insertion_sort (tosort : list nat) (pl pr : nat) : list nat :=
  insertion_for (pr - pl) tosort pl (S pl).

(** Heapsort of the [n] indices from [base] on.  The C code addresses
    them from 1 through [a = tosort - 1]: [a[k]] is cell [base + k - 1]. *)
Definition a_ (base k : nat) : nat := (base + k - 1)%nat.

(** The sift-down loop [for (i, j; j <= n;)] and the final [a[i] = tmp]. *)
Fixpoint sift_down (fuel : nat) (tosort : list nat) (base n tmp i j : nat)
  : list nat :=
  match fuel with
  | O => <[a_ base i := tmp]> tosort
  | S fuel' =>
      if bool_decide (j ≤ n)%nat then
        let j :=
          if bool_decide (j < n)%nat &&
             bool_decide (at_ tosort (a_ base j) < at_ tosort (a_ base (S j)))
          then S j else j in
        if bool_decide (v !!! tmp < at_ tosort (a_ base j))
        then sift_down fuel' (<[a_ base i := tosort !!! a_ base j]> tosort)
               base n tmp j (j + j)
        else <[a_ base i := tmp]> tosort
      else <[a_ base i := tmp]> tosort
  end.

(** [for (l = n >> 1; l > 0; --l)] *)
Fixpoint heap_build (l : nat) (tosort : list nat) (base n : nat) : list nat :=
  match l with
  | O => tosort
  | S l' =>
      let tmp := tosort !!! a_ base l in
      heap_build l' (sift_down n tosort base n tmp l (l + l)) base n
  end.

(** [for (; n > 1;)] *)
Fixpoint heap_extract (fuel : nat) (tosort : list nat) (base n : nat)
  : list nat :=
  match fuel with
  | O => tosort
  | S fuel' =>
      if bool_decide (1 < n)%nat then
        let tmp := tosort !!! a_ base n in
        let tosort := <[a_ base n := tosort !!! a_ base 1]> tosort in
        let n := pred n in
        heap_extract fuel' (sift_down n tosort base n tmp 1 2) base n
      else tosort
  end.

Definition aheapsort (tosort : list nat) (base n : nat) : list nat :=
  heap_extract n (heap_build (n / 2) tosort base n) base n.

(** The quicksort partition of the range [pl..pr], the body of the
    [while] loop up to the cell swap that puts the pivot in its place:
    the median of the first, the middle and the last cell becomes the
    pivot and is parked in the cell before [pr].  Returns the index
    array and the place [pi] of the pivot. *)
Definition partition (tosort : list nat) (pl pr : nat) : list nat * nat :=
  let pm := (pl + (pr - pl) / 2)%nat in
  let tosort := swap_if_less tosort pm pl in
  let tosort := swap_if_less tosort pr pm in
  let tosort := swap_if_less tosort pm pl in
  let vp := at_ tosort pm in
  let tosort := INTP_SWAP tosort pm (pred pr) in
  let '(tosort, pi) :=
    partition_loop (length tosort) tosort vp pl (pred pr) in
  (INTP_SWAP tosort pi (pred pr), pi).

(** The [while ((pr - pl) > SMALL_QUICKSORT)] loop: partition the range,
    push the larger part with the new budget, go on with the smaller
    part.  Returns the index array, the range left for the insertion
    sort, and the stack. *)
Fixpoint partition_while (fuel : nat) (tosort : list nat) (pl pr : nat)
    (cdepth : Z) (stack : list (nat * nat * Z))
  : list nat * nat * nat * list (nat * nat * Z) :=
  match fuel with
  | O => (tosort, pl, pr, stack)
  | S fuel' =>
      if bool_decide (SMALL_QUICKSORT < pr - pl)%nat then
        let '(tosort, pi) := partition tosort pl pr in
        let cdepth := cdepth - 1 in
        if bool_decide (pi - pl < pr - pi)%nat
        then partition_while fuel' tosort pl (pred pi) cdepth
               ((S pi, pr, cdepth) :: stack)
        else partition_while fuel' tosort (S pi) pr cdepth
               ((pl, pred pi, cdepth) :: stack)
      else (tosort, pl, pr, stack)
  end.

(** The outer [while (1)] loop with its [stack_pop] exit. *)
Fixpoint aquicksort_loop (fuel : nat) (tosort : list nat) (pl pr : nat)
    (cdepth : Z) (stack : list (nat * nat * Z)) : list nat :=
  match fuel with
  | O => tosort
  | S fuel' =>
      let '(tosort, stack) :=
        if bool_decide (cdepth < 0)
        then (aheapsort tosort pl (pr - pl + 1), stack)
        else
          let '(tosort, pl, pr, stack) :=
            partition_while (length tosort) tosort pl pr cdepth stack in
          (insertion_sort tosort pl pr, stack) in
      match stack with
      | [] => tosort
      | (pl, pr, cdepth) :: stack =>
          aquicksort_loop fuel' tosort pl pr cdepth stack
      end
  end.

(** [npy_get_msb(num) * 2] *)
Definition depth_limit (num : nat) : Z := 2 * Z.log2 (Z.of_nat num).

(** [np.argsort(v, kind='quicksort')]: the indices [0..num-1] in the
    order that sorts [v] ascending. *)
Definition aquicksort : list nat :=
  let num := length v in
  aquicksort_loop (S num) (seq 0 num) 0 (num - 1) (depth_limit num) [].
End Argsort.

End Numpy.

(** ** The 64-bit types of a column of counts *)

(** The type of a column of counts. *)
Inductive dtype := int64 | float64.

(** The type the reader of the files gives a column of counts: int64 when
    every cell is there, float64, with NaN for a null, otherwise. *)
Definition column_dtype (col : list (option Z)) : dtype :=
  if decide (Forall is_Some col) then int64 else float64.

Module Int64.
(** The two's complement value of the low 64 bits. *)
Definition wrap (z : Z) : Z := (z + 2 ^ 63) mod 2 ^ 64 - 2 ^ 63.
End Int64.

Module Float64.
(** The double nearest to the whole number [z], ties to the even
    significand of 53 bits. *)
Definition round (z : Z) : Z :=
  let a := Z.abs z in
  if a <? 2 ^ 53 then z
  else
    let e := Z.log2 a - 52 in
    let q := Z.shiftr a e in
    let r := a - Z.shiftl q e in
    let half := 2 ^ (e - 1) in
    let q := if (r <? half) || ((r =? half) && Z.even q) then q else q + 1 in
    Z.sgn z * Z.shiftl q e.
End Float64.

(** [x + y] and [x - y] in the arithmetic of the type. *)
Definition dtype_add (t : dtype) (x y : Z) : Z :=
  match t with
  | int64 => Int64.wrap (x + y)
  | float64 => Float64.round (x + y)
  end.

Definition dtype_sub (t : dtype) (x y : Z) : Z :=
  match t with
  | int64 => Int64.wrap (x - y)
  | float64 => Float64.round (x - y)
  end.

(** ** Ranking and aggregation of the data-frame library *)

(** [arr[indexer]] for an array of positions.  The library raises on a
    position out of range; [argsort] produces none. *)
Definition take_idx {A} (arr : list A) (indexer : list nat) : list A :=
  omap (arr !!.) indexer.

(** [arr[mask]] for a boolean mask. *)
Definition getitem_mask {A} (arr : list A) (mask : list bool) : list A :=
  fst <$> filter (λ p, p.2 = true) (zip arr mask).

(** [isna] on one cell. *)
Definition isna {A} (cell : option A) : bool :=
  match cell with
  | Some _ => false
  | None => true
  end.

(** The order of two group keys: text is compared code point by code
    point. *)
Definition key_le (a b : string) : Prop := String.leb a b = true.

Global Instance key_le_dec : RelDecision key_le :=
  λ a b, decide (String.leb a b = true).

(** [df.head(n)] *)
Definition df_head {A} (n : nat) (df : list A) : list A := take n df.

Section Ranking.
(** [ndarray.argsort(kind=kind)] for the default [kind]. *)
Variable argsort : list Z → list nat.

(** [nargsort(items, kind, ascending, na_position='last')]: the non-null
    values are ranked by [argsort] (on the reversed array and reversed
    back when descending), the positions of the nulls are appended. *)
Definition nargsort (items : list (option Z)) (ascending : bool) : list nat :=
  let mask := isna <$> items in
  let idx := seq 0 (length items) in
  let nonnan := dropna items in
  let nonnan_idx := getitem_mask idx (negb <$> mask) in
  let nan_idx := getitem_mask idx mask in
  let nonnan := if ascending then nonnan else reverse nonnan in
  let nonnan_idx := if ascending then nonnan_idx else reverse nonnan_idx in
  let indexer := take_idx nonnan_idx (argsort nonnan) in
  let indexer := if ascending then indexer else reverse indexer in
  indexer ++ nan_idx.

(** [df.sort_values(by=col, ascending=ascending)] *)
Definition sort_values {R} (col : R → option Z) (ascending : bool)
    (df : list R) : list R :=
  take_idx df (nargsort (col <$> df) ascending).

(** The group keys of [groupby(col)]: the distinct non-null keys, sorted. *)
Definition group_keys (keys : list (option string)) : list string :=
  merge_sort key_le (remove_dups (dropna keys)).

(** The label of a row: the position of its key among the group keys,
    none for a null key. *)
Definition label_of (uniques : list string) (key : option string) : option nat :=
  key ≫= λ s, fst <$> list_find (s =.) uniques.

(** The summation loop of [groupby(...).sum()], in the arithmetic of
    the column's type: a row without label is skipped, a null value is
    skipped, any other value is added to the cell of its label by a
    compensated step,
    [y = val - compensation; t = sumx + y;
     compensation = t - sumx - y; sumx = t]. *)
Fixpoint group_sum (t : dtype) (labels : list (option nat))
    (values : list (option Z)) (sumx compensation : list Z) : list Z :=
  match labels, values with
  | lab :: labels', val :: values' =>
      let '(sumx, compensation) :=
        match lab, val with
        | Some l, Some x =>
            let y := dtype_sub t x (compensation !!! l) in
            let s := dtype_add t (sumx !!! l) y in
            (<[l := s]> sumx,
             <[l := dtype_sub t (dtype_sub t s (sumx !!! l)) y]> compensation)
        | _, _ => (sumx, compensation)
        end in
      group_sum t labels' values' sumx compensation
  | _, _ => sumx
  end.

(** [df.groupby(key)[val].sum()] for a value column of the type [t]: one
    (key, total) entry per group, in the order of the keys. *)
Definition groupby_sum {R} (t : dtype) (key : R → option string)
    (val : R → option Z) (df : list R) : list (string * Z) :=
  let uniques := group_keys (key <$> df) in
  let labels := label_of uniques ∘ key <$> df in
  zip uniques
    (group_sum t labels (val <$> df) (replicate (length uniques) 0)
       (replicate (length uniques) 0)).

(** [df.groupby(key)[val].sum().sort_values(ascending=False).head(n)],
    the chain of lines 102 and 123. *)
Definition groupby_sum_top {R} (t : dtype) (key : R → option string)
    (val : R → option Z) (n : nat) (df : list R) : list (string * Z) :=
  df_head n (sort_values (λ g, Some g.2) false (groupby_sum t key val df)).
End Ranking.

(** The columns [['Title', 'Author Name', 'Article Reads', 'Date']]. *)
Module TopArticle.
Record t := mk {
  Title : option string;
  Author_Name : option string;
  Article_Reads : option Z;
  Date : option Z;
}.
End TopArticle.

Definition project (m : merged) : TopArticle.t :=
  {| TopArticle.Title := Merged.Title m;
     TopArticle.Author_Name := Merged.Author_Name m;
     TopArticle.Article_Reads := Merged.Article_Reads m;
     TopArticle.Date := Merged.Date m |}.

Section Aggregators.
Variable argsort : list Z → list nat.

(** The type of the [Article Reads] column: filtering keeps the type the
    column has in the joined table. *)
Variable reads_dtype : dtype.

(** Lines 100-102.  [topic_df] is the filtered frame with the new [Topic]
    column. *)
Definition top_topics (filtered : list merged) : py_error + list (string * Z) :=
  match topic_column (Merged.Title <$> filtered) with
  | inl e => inl e
  | inr topics =>
      let topic_df := zip filtered topics in
      inr (groupby_sum_top argsort reads_dtype (λ r, Some r.2)
             (λ r, Merged.Article_Reads r.1) 5 topic_df)
  end.

(** Line 113. *)
Definition top_articles (filtered : list merged) : list TopArticle.t :=
  df_head 5 (sort_values argsort TopArticle.Article_Reads false
            (project <$> filtered)).

(** Line 123. *)
Definition top_authors (filtered : list merged) : list (string * Z) :=
  groupby_sum_top argsort reads_dtype Merged.Author_Name Merged.Article_Reads
    10 filtered.
End Aggregators.

(** ** Loader, cache and the whole render *)

(** The three source files; [None] for a file that is not there. *)
Record disk := {
  reader_csv : option (list raw_reader);
  article_csv : option (list raw_article);
  author_csv : option (list author);
}.

(** The four frames [load_data] returns. *)
Record loaded := {
  reader_df : list reader;
  article_df : list article;
  author_df : list author;
  merged_df : list merged;
}.

(** The state a render runs in: the files, and the single slot of
    [st.cache_data] for [load_data]. *)
Record world := {
  files : disk;
  cache : option loaded;
}.

(** The choices made in the sidebar, and the clock reading. *)
Record selection := {
  country_filter : string;
  industry_filter : string;
  date_choice : date_option;
  now : Z;
}.

(** What one render computes for the page. *)
Record outputs := {
  out_readers : list reader;
  out_merged : list merged;
  out_top_topics : list (string * Z);
  out_keyword_counts : gmap string nat;
  out_top_articles : list TopArticle.t;
  out_top_authors : list (string * Z);
}.

Section Pipeline.
(** [pd.to_datetime(cell, errors='coerce')] on one text cell; [None] for
    text that does not parse. *)
Variable to_datetime : string → option Z.
Variable argsort : list Z → list nat.

(** Line 27. *)
Definition parse_reader (r : raw_reader) : reader :=
  {| Reader.Email := Reader.Email r;
     Reader.Country := Reader.Country r;
     Reader.Industry := Reader.Industry r;
     Reader.Position := Reader.Position r;
     Reader.Activity_Desc := Reader.Activity_Desc r;
     Reader.Reads := Reader.Reads r;
     Reader.Last_Access_Date := Reader.Last_Access_Date r ≫= to_datetime |}.

(** Line 28. *)
Definition parse_article (a : raw_article) : article :=
  {| Article.Title := Article.Title a;
     Article.Date := Article.Date a ≫= to_datetime;
     Article.Author_Id := Article.Author_Id a;
     Article.Reads := Article.Reads a;
     Article.Author_Name := Article.Author_Name a |}.

(** Lines 18-33, the body of [load_data]: [pd.read_csv] raises on a
    missing file. *)
Definition load_data (d : disk) : py_error + loaded :=
  match reader_csv d, article_csv d, author_csv d with
  | Some readers, Some articles, Some authors =>
      let reader_df := parse_reader <$> readers in
      let article_df := parse_article <$> articles in
      inr {| reader_df := reader_df;
             article_df := article_df;
             author_df := authors;
             merged_df := merge_left article_df authors |}
  | _, _, _ => inl FileNotFoundError
  end.

(** Line 17, [@st.cache_data]: a filled slot is returned as it is; an
    empty slot is filled with the value the body returns, and stays empty
    when the body raises. *)
Definition load_data_cached (w : world) : (py_error + loaded) * world :=
  match cache w with
  | Some v => (inr v, w)
  | None =>
      match load_data (files w) with
      | inr v => (inr v, {| files := files w; cache := Some v |})
      | inl e => (inl e, w)
      end
  end.

(** Lines 53-123 on the loaded frames.  The frames have the columns the
    script reads and dates without offset, so that of the errors these
    lines can raise only the one of [apply(match_topic)] is in reach. *)
Definition derive (sel : selection) (v : loaded) : py_error + outputs :=
  let cutoff := date_cutoff (now sel) (date_choice sel) in
  let readers :=
    filtered_reader_df (reader_df v) (country_filter sel)
      (industry_filter sel) cutoff in
  let filtered := filtered_merged_df (merged_df v) cutoff in
  let reads_dtype := column_dtype (Merged.Article_Reads <$> merged_df v) in
  match top_topics argsort reads_dtype filtered with
  | inl e => inl e
  | inr topics =>
      inr {| out_readers := readers;
             out_merged := filtered;
             out_top_topics := topics;
             out_keyword_counts :=
               value_counts (clean_keywords (Merged.Title <$> filtered));
             out_top_articles := top_articles argsort filtered;
             out_top_authors := top_authors argsort reads_dtype filtered |}
  end.

(** One run of the script. *)
Definition render (sel : selection) (w : world) : (py_error + outputs) * world :=
  match load_data_cached w with
  | (inr v, w') => (derive sel v, w')
  | (inl e, w') => (inl e, w')
  end.
End Pipeline.

(** ** What the library promises about [argsort]

    For the array [v], the result lists every position of [v] once, and
    reading [v] in that order gives ascending values.  Which of two equal
    values comes first is not promised for the default kind. *)
Definition argsort_ok (argsort : list Z → list nat) (v : list Z) : Prop :=
  argsort v ≡ₚ seq 0 (length v) ∧ Sorted Z.le (take_idx v (argsort v)).

(** ** Vocabulary of the specification *)

(** [w] occurs in [s] as a substring. *)
Definition occurs (w s : string) : Prop :=
  ∃ pre post, s = (pre ++ w ++ post)%string.

(** No character of [s] is white space. *)
Fixpoint no_space (s : string) : Prop :=
  match s with
  | EmptyString => True
  | String c s' => Str.isspace c = false ∧ no_space s'
  end.

(** No character of [s] is a cased upper-case letter. *)
Fixpoint no_upper (s : string) : Prop :=
  match s with
  | EmptyString => True
  | String c s' => Str.is_upper c = false ∧ no_upper s'
  end.

(** [s] without its white space. *)
Fixpoint squeeze (s : string) : string :=
  match s with
  | EmptyString => EmptyString
  | String c s' => if Str.isspace c then squeeze s' else String c (squeeze s')
  end.

(** The tokens of all titles in one sequence, as the specification words
    it: every title that is there is lower-cased and split, and the token
    lists are concatenated. *)
Definition tokens (titles : list (option string)) : list string :=
  dropna titles ≫= λ t, Str.split (Str.lower t).

(** Number of occurrences. *)
Definition count {A} `{EqDecision A} (x : A) (l : list A) : nat :=
  length (filter (x =.) l).

(** The order of a descending ranking with the nulls last. *)
Definition desc_nulls_last (a b : option Z) : Prop :=
  match a, b with
  | Some x, Some y => y ≤ x
  | _, None => True
  | None, Some _ => False
  end.

(** [y] ranks strictly before [x]. *)
Definition ranks_before (y x : option Z) : bool :=
  match y, x with
  | Some b, Some a => bool_decide (a < b)
  | Some _, None => true
  | None, _ => false
  end.

(** The ranking the specification describes for the top articles: rows in
    descending order of their reads, rows of equal reads in input order. *)
Fixpoint insert_ranked {R} (col : R → option Z) (x : R) (l : list R) : list R :=
  match l with
  | [] => [x]
  | y :: l' =>
      if ranks_before (col y) (col x) then y :: insert_ranked col x l'
      else x :: l
  end.

Definition rank_keeping_ties {R} (col : R → option Z) (df : list R) : list R :=
  foldr (insert_ranked col) [] df.

(** The array [sort_values(col, ascending=False)] hands to [argsort] for
    the frame [df]: the non-null values of the column, reversed. *)
Definition ranked_array {R} (col : R → option Z) (df : list R) : list Z :=
  reverse (dropna (col <$> df)).

(** The total of the group [k]: the sum of the values of its rows, a null
    value counting 0. *)
Definition group_total {R} (key : R → option string) (val : R → option Z)
    (k : string) (df : list R) : Z :=
  foldr Z.add 0 (default 0 ∘ val <$> filter (λ r, key r = Some k) df).

(** What a step of a filter script does to the store [σ]: it ends, every
    frame of [σ] is still there with the same rows, and the result is the
    reference of a frame with the rows [rows']. *)
Definition allocates {R} (m : script (R := R) nat) (σ : gmap nat (list R))
    (rows' : list R) : Prop :=
  ∃ out σ', m σ = Some (out, σ') ∧ σ ⊆ σ' ∧ σ' !! out = Some rows'.

(** The rows of [df] with a value in the column [col], and the rows
    without one, both in input order. *)
Definition nonnull {R} (col : R → option Z) (df : list R) : list R :=
  filter (λ r, negb (isna (col r)) = true) df.

Definition nulls {R} (col : R → option Z) (df : list R) : list R :=
  filter (λ r, isna (col r) = true) df.

(** The ranked part of a descending [sort_values]: the rows with a value,
    in the order [argsort] gives them. *)
Definition ranked_part {R} (argsort : list Z → list nat) (col : R → option Z)
    (df : list R) : list R :=
  reverse (take_idx (reverse (nonnull col df)) (argsort (ranked_array col df))).

(** The index array [tosort] holds [n] cells, each a position below [n]. *)
Definition positions_ok (n : nat) (tosort : list nat) : Prop :=
  length tosort = n ∧ Forall (λ i, (i < n)%nat) tosort.

(** [rearranged a b t t']: the index array [t'] is [t] after some swaps of
    cells inside the range [a..b]. *)
Inductive rearranged (a b : nat) : list nat → list nat → Prop :=
  | rearranged_refl t : rearranged a b t t
  | rearranged_swap t t' i j :
      rearranged a b t t' →
      (a ≤ i ≤ b)%nat → (a ≤ j ≤ b)%nat → (b < length t')%nat →
      rearranged a b t (Numpy.INTP_SWAP t' i j).

(** The values of [v] read through the cells [a..b] of [t] ascend. *)
Definition sorted_on (v : list Z) (t : list nat) (a b : nat) : Prop :=
  ∀ i j, (a ≤ i)%nat → (i ≤ j)%nat → (j ≤ b)%nat →
    Numpy.at_ v t i ≤ Numpy.at_ v t j.

(** The transposition of the positions [i] and [j]. *)
Definition transpose (i j k : nat) : nat :=
  if decide (k = j) then i else if decide (k = i) then j else k.

(** The heap order of the cells [1..n] addressed from [base], for the
    parents from [lo] on: no child is above its parent. *)
Definition heap_order (v : list Z) (t : list nat) (base lo n : nat) : Prop :=
  ∀ p c, (lo ≤ p)%nat → c = (p + p)%nat ∨ c = S (p + p) → (c ≤ n)%nat →
    Numpy.at_ v t (Numpy.a_ base c) ≤ Numpy.at_ v t (Numpy.a_ base p).

(** The ranges waiting on the stack of the quicksort. *)
Definition ranges_of (stack : list (nat * nat * Z)) : list (nat * nat) :=
  (λ e, (e.1.1, e.1.2)) <$> stack.

(** The pending ranges are non-empty, inside the array of [n] cells, each
    is listed once, and any two of them are apart. *)
Definition ranges_ok (n : nat) (ranges : list (nat * nat)) : Prop :=
  (∀ r, r ∈ ranges → (r.1 ≤ r.2)%nat ∧ (r.2 < n)%nat) ∧
  (∀ r1 r2, r1 ∈ ranges → r2 ∈ ranges →
     r1 = r2 ∨ (r1.2 < r2.1)%nat ∨ (r2.2 < r1.1)%nat) ∧
  NoDup ranges.

(** Two cells are in order unless both lie in one pending range. *)
Definition ordered_except (v : list Z) (t : list nat)
    (ranges : list (nat * nat)) : Prop :=
  ∀ i j, (i < j)%nat → (j < length t)%nat →
    (∀ r, r ∈ ranges → ¬ ((r.1 ≤ i)%nat ∧ (j ≤ r.2)%nat)) →
    Numpy.at_ v t i ≤ Numpy.at_ v t j.

(** The work left in the pending ranges: one more than its size for each. *)
Definition weight (ranges : list (nat * nat)) : nat :=
  foldr (λ r w, (r.2 - r.1 + 2 + w)%nat) 0%nat ranges.

(** ** Sample data *)

Definition article_1 : article :=
  Article.mk (Some "Tax update") (Some 100) (Some 7) (Some 50) (Some "Ann").
Definition article_2 : article :=
  Article.mk (Some "ESG note") None (Some 9) None None.
Definition author_1 : author := Author.mk (Some 7) (Some "Ann") (Some 80).
Definition author_2 : author := Author.mk (Some 8) (Some "Bob") (Some 5).

Definition reader_1 : reader :=
  Reader.mk (Some "a@x.org") (Some "Germany") (Some "Law") None None (Some 3)
    (Some 100).
Definition reader_2 : reader :=
  Reader.mk (Some "b@x.org") (Some "France") None None None None None.

(** A joined row with the given title and read count. *)
Definition row (title : string) (reads : option Z) : merged :=
  Merged.mk (Some title) (Some 100) (Some 7) reads (Some "Ann") (Some "Ann")
    (Some 80).

(** Three rows with the reads 50, 50, 10. *)
Definition rows_50_50_10 : list merged :=
  [row "a" (Some 50); row "b" (Some 50); row "c" (Some 10)].

(** Eighteen rows: one with 10 reads, then seventeen with 50 reads each. *)
Definition rows_18 : list merged :=
  row "a" (Some 10) ::
  ((λ t, row t (Some 50)) <$>
     ["b"; "c"; "d"; "e"; "f"; "g"; "h"; "i"; "j"; "k"; "l"; "m"; "n"; "o";
      "p"; "q"; "r"]).

(** Seven rows, two of them without a read count. *)
Definition rows_with_nulls : list merged :=
  [row "a" (Some 3); row "b" None; row "c" (Some 9); row "d" (Some 1);
   row "e" None; row "f" (Some 7); row "g" (Some 5)].

(** Two rows, the first without a read count. *)
Definition rows_null_first : list merged := [row "a" None; row "b" (Some 4)].


(** ** Sidebar options *)

(** [Series.unique()]: the distinct values in the order of their first
    appearance; [seen] holds the values met so far. *)
Fixpoint unique_go (seen : list string) (col : list string) : list string :=
  match col with
  | [] => []
  | x :: col' =>
      if decide (x ∈ seen) then unique_go seen col'
      else x :: unique_go (x :: seen) col'
  end.

Definition unique (col : list string) : list string := unique_go [] col.

(** [sorted(values)] on text: ascending, code point by code point. *)
Definition sorted (values : list string) : list string :=
  merge_sort key_le values.

(** Lines 39-40: [["All"] + sorted(reader_df[col].dropna().unique())]. *)
Definition select_options (col : reader → option string)
    (reader_df : list reader) : list string :=
  "All" :: sorted (unique (dropna (col <$> reader_df))).

(** ** KPIs *)

(** [Series.nunique()]: the number of distinct values, nulls left out. *)
Definition nunique (col : list (option string)) : nat :=
  length (unique (dropna col)).

(** Line 68: [filtered_reader_df['Email'].nunique()]. *)
Definition total_readers (filtered : list reader) : nat :=
  nunique (Reader.Email <$> filtered).

(** The digits of a count with the thousands separated, last digit first:
    a comma follows every third digit that has a digit behind it. *)
Fixpoint group_thousands (digits : list ascii) : list ascii :=
  match digits with
  | a :: b :: c :: ((_ :: _) as rest) =>
      a :: b :: c :: ","%char :: group_thousands rest
  | _ => digits
  end.

(** [str(n)] for a count. *)
Definition decimal_str (n : nat) : string :=
  DecimalString.NilZero.string_of_uint (Nat.to_uint n).

(** [f"{n:,}"] for a count, the format of line 68. *)
Definition format_thousands (n : nat) : string :=
  string_of_list_ascii
    (reverse (group_thousands (reverse (list_ascii_of_string (decimal_str n))))).

(** ** Reader insights *)

(** Line 78 up to the ranking: [Position.dropna().value_counts()]. *)
Definition position_counts (filtered : list reader) : gmap string nat :=
  value_counts (Some <$> dropna (Reader.Position <$> filtered)).

(** Line 82: [filtered_reader_df['Activity Desc'].value_counts()]. *)
Definition activity_counts (filtered : list reader) : gmap string nat :=
  value_counts (Reader.Activity_Desc <$> filtered).

(** Line 85: [filtered_reader_df['Country'].value_counts()]. *)
Definition country_counts (filtered : list reader) : gmap string nat :=
  value_counts (Reader.Country <$> filtered).

(** ** The topic frame in memory *)

(** A row of a frame that may carry the derived [Topic] column: the joined
    columns and the [Topic] cell, [None] as long as the frame has no such
    column. *)
Abbreviation topic_row := (merged * option string)%type.

(** Line 101, [topic_df['Topic'] = topic_df['Title'].fillna('').apply(match_topic)]:
    the assignment changes the frame under the reference [df] in place. *)
Definition df_set_topic (df : nat) : script (R := topic_row) nat :=
  λ σ,
    match σ !! df with
    | Some rows =>
        match topic_column ((λ r, Merged.Title r.1) <$> rows) with
        | inr topics =>
            Some (df, <[df := zip (fst <$> rows) (Some <$> topics)]> σ)
        | inl _ => None
        end
    | None => None
    end.

(** Lines 100-101. *)
Definition make_topic_df (filtered_merged_df : nat)
  : script (R := topic_row) nat :=
  let* topic_df := df_copy filtered_merged_df in
  let* topic_df := df_set_topic topic_df in
  ret topic_df.

(** ** More of the vocabulary *)

(** The sum of the values of a column, a null adding nothing. *)
Definition values_sum (col : list (option Z)) : Z :=
  foldr Z.add 0 (default 0 <$> col).

(** The sum of the magnitudes of the values of a column.  Below 2^53 every
    sum of cells of the column is exact in int64 and in float64. *)
Definition sum_abs (col : list (option Z)) : Z :=
  foldr Z.add 0 (Z.abs ∘ default 0 <$> col).

(** The sum of the counts of a table of counts. *)
Definition total_count (counts : gmap string nat) : nat :=
  map_fold (λ _ c acc, (c + acc)%nat) 0%nat counts.

(** The mask the three reader filters apply together. *)
Definition reader_mask (country_filter industry_filter : string)
    (cutoff : option Z) (r : reader) : Prop :=
  (country_filter = "All" ∨ Reader.Country r = Some country_filter) ∧
  (industry_filter = "All" ∨ Reader.Industry r = Some industry_filter) ∧
  match cutoff with
  | Some c => date_ge (Reader.Last_Access_Date r) c
  | None => True
  end.

Global Instance reader_mask_dec country_filter industry_filter cutoff r :
  Decision (reader_mask country_filter industry_filter cutoff r).
Proof. unfold reader_mask. destruct cutoff; apply _. Defined.

(** The number of author rows an article row is joined with. *)
Definition matches (author_df : list author) (a : article) : nat :=
  length (filter (λ u, Author.Author_Id u = Article.Author_Id a) author_df).

(** [s] strictly before [t] in the order of text. *)
Definition key_lt (s t : string) : Prop := key_le s t ∧ s ≠ t.

(** The tokens joined by single blanks. *)
Fixpoint unwords (ts : list string) : string :=
  match ts with
  | [] => ""
  | [t] => t
  | t :: ts' => (t ++ " " ++ unwords ts')%string
  end.

(** ** More sample data *)

Definition reader_3 : reader :=
  Reader.mk (Some "a@x.org") (Some "Germany") (Some "Tax") (Some "Partner")
    (Some "Newsletter") (Some 4) (Some 200).


(** A reading of date text that knows one date. *)
Definition sample_to_datetime (s : string) : option Z :=
  if decide (s = "1970-01-02") then Some 86400000000000 else None.

Definition raw_article_1 : raw_article :=
  Article.mk (Some "Tax update") (Some "1970-01-02") (Some 7) (Some 50)
    (Some "Ann").
Definition raw_article_2 : raw_article :=
  Article.mk (Some "ESG note") (Some "soon") (Some 9) None None.

Definition sample_disk : disk :=
  {| reader_csv := Some [];
     article_csv := Some [raw_article_1; raw_article_2];
     author_csv := Some [author_1; author_2] |}.

Definition sample_loaded : loaded :=
  {| reader_df := [];
     article_df := parse_article sample_to_datetime <$> [raw_article_1; raw_article_2];
     author_df := [author_1; author_2];
     merged_df :=
       merge_left (parse_article sample_to_datetime <$> [raw_article_1; raw_article_2])
         [author_1; author_2] |}.

(** * Properties *)

(** ** Text *)

Lemma app_String (c : ascii) (a b : string) :
  (String c a ++ b = String c (a ++ b))%string.
Proof. reflexivity. Qed.

Lemma app_empty (b : string) : ("" ++ b = b)%string.
Proof. reflexivity. Qed.

Lemma startswith_spec (w s : string) :
  Str.startswith w s = true ↔ ∃ post, s = (w ++ post)%string.
Proof.
  revert s. induction w as [|a w IH]; intros s; simpl.
  - split; [intros _; by exists s | done].
  - destruct s as [|b s].
    + split; [done | intros [post H]; rewrite app_String in H; discriminate].
    + destruct (Ascii.eqb_spec a b) as [->|Hne].
      * rewrite IH. split; intros [post H]; exists post;
          rewrite app_String in *; congruence.
      * split; [done | intros [post H]; rewrite app_String in H; congruence].
Qed.

Lemma contains_spec (w s : string) : Str.contains w s = true ↔ occurs w s.
Proof.
  induction s as [|c s IH]; simpl.
  - rewrite orb_false_r, startswith_spec. split.
    + intros [post H]. by exists "", post.
    + intros [pre [post H]]. destruct pre; [by exists post |].
      rewrite app_String in H. discriminate.
  - rewrite orb_true_iff, IH, startswith_spec. split.
    + intros [[post H] | [pre [post H]]].
      * by exists "", post.
      * exists (String c pre), post. rewrite app_String. congruence.
    + intros [pre [post H]]. destruct pre as [|a pre].
      * left. by exists post.
      * right. exists pre, post. rewrite app_String in H. congruence.
Qed.

Lemma lower_char_not_upper (c : ascii) : Str.is_upper (Str.lower_char c) = false.
Proof. destruct c as [[] [] [] [] [] [] [] []]; reflexivity. Qed.

Lemma lower_no_upper (s : string) : no_upper (Str.lower s).
Proof. induction s; simpl; auto using lower_char_not_upper. Qed.

Lemma lower_length (s : string) :
  String.length (Str.lower s) = String.length s.
Proof. induction s; simpl; congruence. Qed.

(** The loop returns the first word that occurs, and ["other"] when none
    does. *)
Lemma match_topic_loop_spec (words : list string) (s k : string) :
  match_topic_loop words s = k ↔
    (∃ before after, words = (before ++ k :: after)%list ∧ occurs k s ∧
       ∀ w, w ∈ before → ¬ occurs w s) ∨
    (k = "other" ∧ ∀ w, w ∈ words → ¬ occurs w s).
Proof.
  induction words as [|w words IH]; simpl.
  - split.
    + intros <-. right. split; [done | intros w Hw; by apply elem_of_nil in Hw].
    + intros [(before & after & H & _) | [-> _]]; [by destruct before | done].
  - destruct (Str.contains w s) eqn:Hc.
    + apply contains_spec in Hc. split.
      * intros <-. left. exists [], words. split_and!; [done | done |].
        intros w' Hw'. by apply elem_of_nil in Hw'.
      * intros [(before & after & H & Hk & Hb) | [-> Hn]].
        -- destruct before as [|b before]; simplify_eq/=; [done |].
           exfalso. apply (Hb b); [left | done].
        -- exfalso. apply (Hn w); [left | done].
    + assert (¬ occurs w s) as Hw by (rewrite <- contains_spec; congruence).
      rewrite IH. split.
      * intros [(before & after & -> & Hk & Hb) | [-> Hn]].
        -- left. exists (w :: before), after. split_and!; [done | done |].
           intros w' [->|?]%elem_of_cons; auto.
        -- right. split; [done |]. intros w' [->|?]%elem_of_cons; auto.
      * intros [(before & after & H & Hk & Hb) | [-> Hn]].
        -- destruct before as [|b before]; simplify_eq/=; [done |].
           left. exists before, after. split_and!; [done | done |].
           intros w' Hw'. apply Hb. by right.
        -- right. split; [done |]. intros w' Hw'. apply Hn. by right.
Qed.

Lemma match_topic_loop_elem (words : list string) (s : string) :
  match_topic_loop words s ∈ (words ++ ["other"])%list.
Proof.
  induction words as [|w words IH]; simpl.
  - left.
  - destruct (Str.contains w s); [left | by right].
Qed.

(** C2: the topic classifier lower-cases the title and returns the first
    keyword of the fixed list that occurs in it as a substring, ["other"]
    when none occurs; the result is always a keyword or ["other"], and
    ["Tax and ESG compliance update"] is classified as ["tax"]. *)
Theorem match_topic_first_keyword (title : string) :
  (no_upper (Str.lower title) ∧
   String.length (Str.lower title) = String.length title) ∧
  (∀ k, match_topic title = k ↔
     (∃ before after, topic_keywords = (before ++ k :: after)%list ∧
        occurs k (Str.lower title) ∧
        ∀ w, w ∈ before → ¬ occurs w (Str.lower title)) ∨
     (k = "other" ∧ ∀ w, w ∈ topic_keywords → ¬ occurs w (Str.lower title))) ∧
  match_topic title ∈ (topic_keywords ++ ["other"])%list ∧
  match_topic "Tax and ESG compliance update" = "tax".
Proof.
  split_and!.
  - apply lower_no_upper.
  - apply lower_length.
  - intros k. apply match_topic_loop_spec.
  - apply match_topic_loop_elem.
  - reflexivity.
Qed.

(** ** Null titles *)

Lemma series_apply_total {A B} (f : A → py_error + B) (g : A → B) (col : list A) :
  (∀ x, x ∈ col → f x = inr (g x)) → series_apply f col = inr (g <$> col).
Proof.
  induction col as [|x col IH]; intros H; simpl; [done |].
  rewrite (H x) by left. rewrite IH; [done |]. intros y Hy. apply H. by right.
Qed.

(** C8: a null title is replaced by the empty string before the classifier
    runs, so the classification of a column never raises, and every null
    title gets the topic ["other"]. *)
Theorem null_title_is_other (titles : list (option string)) :
  apply_match_topic None = inl AttributeError ∧
  topic_column titles =
    inr ((λ t, match t with Some s => match_topic s | None => "other" end)
           <$> titles).
Proof.
  split; [done |]. unfold topic_column.
  rewrite (series_apply_total _ (λ c, match_topic (default "" c))).
  - f_equal. rewrite <- list_fmap_compose. apply list_fmap_ext.
    intros i [s|] _; reflexivity.
  - intros c [[s|] [-> _]]%list_elem_of_fmap; reflexivity.
Qed.

(** ** Joiner *)

Lemma article_of_merge_row (a : article) (u : option author) :
  article_of (merge_row a u) = a.
Proof. by destruct a. Qed.

(** A key that occurs once in the key column selects at most one row. *)
Lemma filter_unique_key {A K} `{EqDecision K} (f : A → K) (k : K) (l : list A) :
  NoDup (f <$> l) → (length (filter (λ u, f u = k) l) ≤ 1)%nat.
Proof.
  induction l as [|x l IH]; simpl; [lia |].
  intros [Hx Hl]%NoDup_cons. rewrite filter_cons. case_decide as Hk; [| auto].
  destruct (filter (λ u, f u = k) l) as [|y ys] eqn:Hf; [simpl; lia |].
  exfalso. apply Hx. assert (y ∈ filter (λ u, f u = k) l) as Hy.
  { rewrite Hf. left. }
  apply list_elem_of_filter in Hy as [Hy1 Hy2].
  apply list_elem_of_fmap. exists y. split; [congruence | done].
Qed.

Lemma merge_left_cons (a : article) (article_df : list article)
    (author_df : list author) :
  merge_left (a :: article_df) author_df =
    (match filter (λ u, Author.Author_Id u = Article.Author_Id a) author_df with
     | [] => [merge_row a None]
     | us => merge_row a ∘ Some <$> us
     end ++ merge_left article_df author_df)%list.
Proof. reflexivity. Qed.

(** C1: when the author table has no two rows with the same Author Id, the
    left join has exactly one output row per article row, in the order of
    the articles, whether or not the article's Author Id has a match: the
    article columns of the output are the article table. *)
Theorem left_join_row_count (article_df : list article) (author_df : list author) :
  NoDup (Author.Author_Id <$> author_df) →
  length (merge_left article_df author_df) = length article_df ∧
  article_of <$> merge_left article_df author_df = article_df.
Proof.
  intros Hnd. induction article_df as [|a article_df [IH1 IH2]]; [done |].
  rewrite merge_left_cons, length_app, fmap_app, IH1, IH2.
  pose proof (filter_unique_key Author.Author_Id (Article.Author_Id a)
                author_df Hnd) as Hle.
  destruct (filter _ author_df) as [|u [|u' us]]; simpl in Hle; [| | lia].
  - rewrite fmap_cons, article_of_merge_row. done.
  - rewrite !fmap_cons. simpl. rewrite article_of_merge_row. done.
Qed.

Lemma left_join_row_count_witness :
  length (merge_left [article_1; article_2; article_1] [author_1; author_2]) = 3%nat ∧
  article_of <$> merge_left [article_1; article_2; article_1] [author_1; author_2]
    = [article_1; article_2; article_1].
Proof.
  apply (left_join_row_count [article_1; article_2; article_1] [author_1; author_2]).
  apply (bool_decide_unpack _). vm_compute. exact I.
Defined.

(** With a duplicated Author Id the join multiplies the matching rows. *)
Example left_join_fans_out :
  length (merge_left [article_1] [author_1; author_1]) = 2%nat.
Proof. reflexivity. Qed.

(** ** Filter engine *)

(** C3: with an active cutoff, a row passes the time-window filter exactly
    when its date is not null and is at or after the cutoff; so a row with
    a null date is dropped, a row dated exactly at the cutoff is kept, and
    the rows that pass keep their order. *)
Theorem time_window_filter {R} (col : R → option Z) (c : Z) (df : list R) :
  (∀ r, r ∈ filter_date col (Some c) df ↔
        r ∈ df ∧ ∃ d, col r = Some d ∧ c ≤ d) ∧
  (∀ r, col r = None → r ∉ filter_date col (Some c) df) ∧
  (∀ r, r ∈ df → col r = Some c → r ∈ filter_date col (Some c) df) ∧
  filter_date col (Some c) df `sublist_of` df ∧
  (∀ now choice, choice ≠ All_Time → is_Some (date_cutoff now choice)) ∧
  (∀ merged_df, filtered_merged_df merged_df (Some c)
               = filter_date Merged.Date (Some c) merged_df).
Proof.
  assert (∀ r, date_ge (col r) c ↔ ∃ d, col r = Some d ∧ c ≤ d) as Hge.
  { intros r. unfold date_ge. destruct (col r) as [d|].
    - split; [eauto | intros (d' & [= <-] & ?); done].
    - split; [done | intros (d' & ? & _); discriminate]. }
  split_and!.
  - intros r. simpl. rewrite list_elem_of_filter, Hge. tauto.
  - intros r Hr. simpl. rewrite list_elem_of_filter, Hge, Hr.
    intros [(d & ? & _) _]. discriminate.
  - intros r Hin Hr. simpl. rewrite list_elem_of_filter, Hge.
    split; [| done]. exists c. split; [done | lia].
  - apply sublist_filter.
  - intros now [] H; simpl; eauto. done.
  - reflexivity.
Qed.

(** ** Keyword tokenizer *)

Lemma string_of_list_ascii_app (a b : list ascii) :
  string_of_list_ascii (a ++ b) =
    (string_of_list_ascii a ++ string_of_list_ascii b)%string.
Proof. induction a as [|c a IH]; [done |]. simpl. rewrite app_String. by f_equal. Qed.

Lemma split_go_no_space (cur : list ascii) (s : string) :
  s ≠ "" ∨ cur ≠ [] → no_space s →
  Str.split_go cur s = [(string_of_list_ascii (rev cur) ++ s)%string].
Proof.
  revert cur. induction s as [|c s IH]; intros cur Hne Hs; simpl.
  - destruct Hne as [? | Hcur]; [done |].
    destruct cur; [done |]. simpl. f_equal.
    generalize (string_of_list_ascii (rev cur ++ [a])).
    intros t. induction t; simpl; [done |]. rewrite app_String. by f_equal.
  - destruct Hs as [Hc Hs]. rewrite Hc. rewrite IH; [| by right | done].
    f_equal. simpl. rewrite string_of_list_ascii_app. simpl.
    generalize (string_of_list_ascii (rev cur)). intros t.
    induction t; simpl; [done |]. rewrite !app_String. by f_equal.
Qed.

Lemma split_go_space (cur : list ascii) (a b : string) (c : ascii) :
  Str.isspace c = true →
  Str.split_go cur (a ++ String c b)%string =
    (Str.split_go cur a ++ Str.split b)%list.
Proof.
  intros Hc. revert cur. induction a as [|x a IH]; intros cur.
  - rewrite app_empty. simpl. by rewrite Hc.
  - rewrite app_String. simpl. destruct (Str.isspace x).
    + rewrite IH. by rewrite <- app_assoc.
    + apply IH.
Qed.

Lemma dropna_explode_fmap {A B} (f : A → list B) (l : list A) :
  dropna (explode (f <$> l)) = l ≫= f.
Proof.
  unfold dropna, explode. induction l as [|x l IH]; [done |].
  rewrite fmap_cons, !bind_cons, omap_app, IH. f_equal.
  destruct (f x) as [|y ys]; [done |].
  generalize (y :: ys). intros zs.
  induction zs as [|z zs IHz]; [done |]. rewrite fmap_cons. simpl. by f_equal.
Qed.

Lemma dropna_filter_isin (values : list string) (l : list (option string)) :
  dropna (filter (λ k, negb (isin values k) = true) l) =
    filter (λ t, t ∉ values) (dropna l).
Proof.
  unfold dropna. induction l as [|[s|] l IH]; [done | |].
  - rewrite filter_cons. simpl. rewrite filter_cons.
    destruct (decide (s ∈ values)) as [Hin | Hin].
    + rewrite bool_decide_eq_true_2 by done. simpl.
      destruct (decide (s ∉ values)); [done | exact IH].
    + rewrite bool_decide_eq_false_2 by done. simpl.
      destruct (decide (s ∉ values)); [| done]. f_equal. exact IH.
  - rewrite filter_cons. simpl. apply IH.
Qed.

Lemma clean_keywords_tokens (titles : list (option string)) :
  dropna (clean_keywords titles) = filter (λ t, t ∉ stopwords) (tokens titles).
Proof.
  unfold clean_keywords, keywords, tokens.
  rewrite dropna_filter_isin. f_equal.
  rewrite <- list_fmap_compose. apply dropna_explode_fmap.
Qed.

Lemma count_cons {A} `{EqDecision A} (t x : A) (l : list A) :
  count t (x :: l) = if decide (t = x) then S (count t l) else count t l.
Proof. unfold count. rewrite filter_cons. by case_decide. Qed.

Lemma value_counts_lookup (col : list (option string)) (t : string) :
  value_counts col !! t =
    if decide (count t (dropna col) = 0%nat) then None
    else Some (count t (dropna col)).
Proof.
  induction col as [|[s|] col IH]; [done | | exact IH].
  change (dropna (Some s :: col)) with (s :: dropna col).
  change (value_counts (Some s :: col)) with
    (<[s := S (default 0%nat (value_counts col !! s))]> (value_counts col)).
  rewrite count_cons. destruct (decide (t = s)) as [-> | Hne].
  - rewrite lookup_insert_eq, IH.
    destruct (decide (S (count s (dropna col)) = 0%nat)) as [? | _]; [lia |].
    f_equal. case_decide as H0; simpl; [by rewrite H0 | done].
  - rewrite lookup_insert_ne by done. exact IH.
Qed.

Lemma count_filter_not_in (values : list string) (t : string) (l : list string) :
  count t (filter (λ x, x ∉ values) l) =
    if decide (t ∈ values) then 0%nat else count t l.
Proof.
  induction l as [|x l IH]; [by case_decide |].
  rewrite filter_cons, count_cons. destruct (decide (x ∉ values)) as [Hx | Hx].
  - rewrite count_cons, IH. destruct (decide (t = x)) as [-> | Hne]; [| done].
    destruct (decide (x ∈ values)); [contradiction | reflexivity].
  - rewrite IH. destruct (decide (t ∈ values)) as [Ht | Ht]; [done |].
    destruct (decide (t = x)) as [-> | Hne]; [| done].
    exfalso. apply Hx. exact Ht.
Qed.

(** C7: the tokenizer lower-cases each title that is there, splits it at
    white space, puts all tokens in one sequence, drops exactly the tokens
    of the stopword list and counts the others; for
    ["The Future of ESG Compliance"] the counts are 1 for each of
    future, of, esg and compliance, and "the" is not counted. *)
Theorem keyword_counts (titles : list (option string)) :
  (Str.split "" = [] ∧
   (∀ s, s ≠ "" → no_space s → Str.split s = [s]) ∧
   (∀ a c b, Str.isspace c = true →
      Str.split (a ++ String c b)%string = (Str.split a ++ Str.split b)%list)) ∧
  dropna (clean_keywords titles) = filter (λ t, t ∉ stopwords) (tokens titles) ∧
  (∀ t, value_counts (clean_keywords titles) !! t =
     let n := if decide (t ∈ stopwords) then 0%nat else count t (tokens titles) in
     if decide (n = 0%nat) then None else Some n) ∧
  value_counts (clean_keywords [Some "The Future of ESG Compliance"]) =
    {[ "future" := 1%nat; "of" := 1%nat; "esg" := 1%nat; "compliance" := 1%nat ]}.
Proof.
  split_and!.
  - reflexivity.
  - intros s Hne Hs. unfold Str.split. rewrite split_go_no_space; auto.
  - intros a c b Hc. by apply split_go_space.
  - apply clean_keywords_tokens.
  - intros t. cbv zeta.
    rewrite value_counts_lookup, clean_keywords_tokens, count_filter_not_in.
    done.
  - vm_compute. reflexivity.
Qed.

(** ** Copy on filter *)

Section StoreSteps.
Context {R : Type}.
Implicit Types (σ : gmap nat (list R)) (rows : list R).

Lemma fresh_unused σ : σ !! fresh (dom σ) = None.
Proof. apply not_elem_of_dom, is_fresh. Qed.

Lemma df_copy_allocates σ df rows :
  σ !! df = Some rows → allocates (df_copy df) σ rows.
Proof.
  intros Hdf. unfold allocates, df_copy. rewrite Hdf.
  eexists _, _. split_and!; [done | | apply lookup_insert_eq].
  apply insert_subseteq, fresh_unused.
Qed.

Lemma df_getitem_allocates σ df rows (P : R → Prop) `{!∀ r, Decision (P r)} :
  σ !! df = Some rows → allocates (df_getitem df P) σ (filter P rows).
Proof.
  intros Hdf. unfold allocates, df_getitem. rewrite Hdf.
  eexists _, _. split_and!; [done | | apply lookup_insert_eq].
  apply insert_subseteq, fresh_unused.
Qed.

Lemma ret_allocates σ df rows :
  σ !! df = Some rows → allocates (ret df) σ rows.
Proof. intros Hdf. by exists df, σ. Qed.

(** Sequencing: the second step starts from the frame the first one
    built. *)
Lemma bind_allocates σ (m : script nat) (k : nat → script nat) rows1 rows2 :
  allocates m σ rows1 →
  (∀ out σ', σ' !! out = Some rows1 → allocates (k out) σ' rows2) →
  allocates (bind m k) σ rows2.
Proof.
  intros (out & σ1 & Hm & Hsub & Hout) Hk.
  destruct (Hk out σ1 Hout) as (out2 & σ2 & Hk2 & Hsub2 & Hout2).
  exists out2, σ2. unfold bind. rewrite Hm. split_and!; [done | | done].
  by transitivity σ1.
Qed.
End StoreSteps.

Lemma apply_reader_filters_allocates (σ : gmap nat (list reader))
    (reader_df : nat) (rows : list reader)
    (country_filter industry_filter : string) (cutoff : option Z) :
  σ !! reader_df = Some rows →
  allocates (apply_reader_filters reader_df country_filter industry_filter cutoff)
    σ (filtered_reader_df rows country_filter industry_filter cutoff).
Proof.
  intros Hdf. unfold apply_reader_filters, filtered_reader_df.
  eapply bind_allocates; [by apply df_copy_allocates |].
  intros f1 σ1 H1.
  eapply bind_allocates
    with (rows1 := filter_choice Reader.Country country_filter rows).
  { unfold filter_choice. case_decide.
    - by apply df_getitem_allocates.
    - by apply ret_allocates. }
  intros f2 σ2 H2.
  eapply bind_allocates
    with (rows1 := filter_choice Reader.Industry industry_filter
                     (filter_choice Reader.Country country_filter rows)).
  { unfold filter_choice at 1. case_decide.
    - by apply df_getitem_allocates.
    - by apply ret_allocates. }
  intros f3 σ3 H3.
  eapply bind_allocates
    with (rows1 := filter_date Reader.Last_Access_Date cutoff
                     (filter_choice Reader.Industry industry_filter
                        (filter_choice Reader.Country country_filter rows))).
  { unfold filter_date. destruct cutoff.
    - by apply df_getitem_allocates.
    - by apply ret_allocates. }
  intros f4 σ4 H4. by apply ret_allocates.
Qed.

(** C6: applying the country, industry and time filters builds the
    filtered table as a new frame and leaves every frame that was there, in
    particular the reader table, as it was; so the same base table can be
    filtered again: after filtering by country "Germany", filtering the
    base table with country "All" gives back all its rows. *)
Theorem filters_leave_base_unchanged (σ : gmap nat (list reader))
    (reader_df : nat) (rows : list reader)
    (country_filter industry_filter : string) (cutoff : option Z) :
  σ !! reader_df = Some rows →
  (∃ out σ',
     apply_reader_filters reader_df country_filter industry_filter cutoff σ
       = Some (out, σ') ∧
     σ' !! out
       = Some (filtered_reader_df rows country_filter industry_filter cutoff) ∧
     σ' !! reader_df = Some rows ∧
     ∀ df other, σ !! df = Some other → σ' !! df = Some other) ∧
  (∃ out1 σ1 out2 σ2,
     apply_reader_filters reader_df "Germany" "All" None σ = Some (out1, σ1) ∧
     apply_reader_filters reader_df "All" "All" None σ1 = Some (out2, σ2) ∧
     σ2 !! out2 = Some rows ∧ σ2 !! reader_df = Some rows).
Proof.
  intros Hdf. split.
  - destruct (apply_reader_filters_allocates σ reader_df rows country_filter
                industry_filter cutoff Hdf) as (out & σ' & Hrun & Hsub & Hout).
    exists out, σ'. split_and!; [done | done | |].
    + by eapply lookup_weaken.
    + intros df other Hother. by eapply lookup_weaken.
  - destruct (apply_reader_filters_allocates σ reader_df rows "Germany" "All"
                None Hdf) as (out1 & σ1 & Hrun1 & Hsub1 & Hout1).
    assert (σ1 !! reader_df = Some rows) as Hdf1 by by eapply lookup_weaken.
    destruct (apply_reader_filters_allocates σ1 reader_df rows "All" "All"
                None Hdf1) as (out2 & σ2 & Hrun2 & Hsub2 & Hout2).
    exists out1, σ1, out2, σ2. split_and!; [done | done | done |].
    by eapply lookup_weaken.
Qed.

Lemma filters_leave_base_unchanged_witness :
  ∃ out σ',
    apply_reader_filters 0 "Germany" "All" (Some 50)
      {[ 0%nat := [reader_1; reader_2] ]} = Some (out, σ') ∧
    σ' !! out = Some [reader_1] ∧
    σ' !! 0%nat = Some [reader_1; reader_2].
Proof.
  destruct (filters_leave_base_unchanged {[ 0%nat := [reader_1; reader_2] ]}
              0 [reader_1; reader_2] "Germany" "All" (Some 50))
    as [(out & σ' & H1 & H2 & H3 & _) _].
  - reflexivity.
  - exists out, σ'. split_and!; [done | | done]. exact H2.
Defined.

(** ** The whole render *)

(** C9: with the source files and the selection (clock reading included)
    fixed, a second run of the script returns what the first run returned;
    loading writes no file, and the only state it touches is the cache
    slot, which the second run leaves as the first run left it. *)
Theorem render_twice_same (to_datetime : string → option Z)
    (argsort : list Z → list nat) (sel : selection) (w : world) :
  let first := render to_datetime argsort sel w in
  let second := render to_datetime argsort sel first.2 in
  second.1 = first.1 ∧
  files first.2 = files w ∧
  second.2 = first.2 ∧
  (let l1 := load_data_cached to_datetime w in
   let l2 := load_data_cached to_datetime l1.2 in
   l2.1 = l1.1 ∧ files l1.2 = files w ∧ l2.2 = l1.2) ∧
  (cache w = None →
   first.1 = match load_data to_datetime (files w) with
             | inr v => derive argsort sel v
             | inl e => inl e
             end).
Proof.
  unfold render, load_data_cached. destruct w as [d [v|]]; simpl.
  - split_and!; try done.
  - destruct (load_data to_datetime d) as [e|v] eqn:Hl; simpl.
    + rewrite Hl. simpl. split_and!; try done.
    + split_and!; try done.
Qed.

(** ** Indexing by an array of positions *)

Section TakeIdx.
Context {A : Type}.
Implicit Types (l : list A) (idx : list nat).

Lemma take_idx_cons l i idx :
  take_idx l (i :: idx) =
    match l !! i with
    | Some x => x :: take_idx l idx
    | None => take_idx l idx
    end.
Proof. reflexivity. Qed.

Lemma take_idx_app l idx1 idx2 :
  take_idx l (idx1 ++ idx2) = take_idx l idx1 ++ take_idx l idx2.
Proof. apply omap_app. Qed.

Lemma take_idx_reverse l idx :
  take_idx l (reverse idx) = reverse (take_idx l idx).
Proof.
  induction idx as [|i idx IH]; [done |].
  rewrite reverse_cons, take_idx_app, IH.
  rewrite (take_idx_cons l i idx), (take_idx_cons l i []).
  destruct (l !! i) as [x|]; [by rewrite reverse_cons | by rewrite app_nil_r].
Qed.

Lemma take_idx_shift x l idx : take_idx (x :: l) (S <$> idx) = take_idx l idx.
Proof.
  induction idx as [|i idx IH]; [done |].
  rewrite fmap_cons, !take_idx_cons, IH. done.
Qed.

Lemma take_idx_seq l : take_idx l (seq 0 (length l)) = l.
Proof.
  induction l as [|x l IH]; [done |].
  simpl length. rewrite <- cons_seq, take_idx_cons. simpl.
  by rewrite <- fmap_S_seq, take_idx_shift, IH.
Qed.

Lemma take_idx_Permutation l idx :
  idx ≡ₚ seq 0 (length l) → take_idx l idx ≡ₚ l.
Proof.
  intros H. unfold take_idx. rewrite H. fold (take_idx l (seq 0 (length l))).
  by rewrite take_idx_seq.
Qed.

Lemma take_idx_elem_of l idx x : x ∈ take_idx l idx → x ∈ l.
Proof.
  intros (i & _ & Hi)%list_elem_of_omap. by eapply list_elem_of_lookup_2.
Qed.

(** When every position is in range nothing is dropped: the result is
    read position by position. *)
Lemma take_idx_lookup l idx j :
  Forall (λ i, (i < length l)%nat) idx →
  take_idx l idx !! j = idx !! j ≫= (l !!.).
Proof.
  intros H. revert j. induction H as [|i idx Hi H IH]; intros j; [done |].
  rewrite take_idx_cons. destruct (lookup_lt_is_Some_2 l i Hi) as [x Hx].
  rewrite Hx. destruct j as [|j]; simpl; [done | apply IH].
Qed.

Lemma take_idx_length l idx :
  Forall (λ i, (i < length l)%nat) idx → length (take_idx l idx) = length idx.
Proof.
  induction 1 as [|i idx Hi H IH]; [done |].
  rewrite take_idx_cons. destruct (lookup_lt_is_Some_2 l i Hi) as [x ->].
  simpl. by rewrite IH.
Qed.

End TakeIdx.

Lemma take_idx_take_idx {A} (l : list A) (idx1 idx2 : list nat) :
  Forall (λ i, (i < length l)%nat) idx1 →
  take_idx l (take_idx idx1 idx2) = take_idx (take_idx l idx1) idx2.
Proof.
  intros H. induction idx2 as [|j idx2 IH]; [done |].
  rewrite (take_idx_cons idx1 j idx2), (take_idx_cons (take_idx l idx1) j idx2).
  rewrite take_idx_lookup by done.
  destruct (idx1 !! j) as [i|] eqn:Hj; [| exact IH].
  change (Some i ≫= (l !!.)) with (l !! i).
  rewrite take_idx_cons, IH.
  assert (is_Some (l !! i)) as [x ->]; [| done].
  apply lookup_lt_is_Some_2. eapply Forall_forall in H; [done |].
  by eapply list_elem_of_lookup_2.
Qed.

Lemma take_idx_fmap {A B} (f : A → B) (l : list A) (idx : list nat) :
  take_idx (f <$> l) idx = f <$> take_idx l idx.
Proof.
  induction idx as [|i idx IH]; [done |].
  rewrite !take_idx_cons, list_lookup_fmap, IH. by destruct (l !! i).
Qed.

(** ** Selection by a mask *)

Lemma getitem_mask_cons {A} (x : A) (arr : list A) (b : bool) (mask : list bool) :
  getitem_mask (x :: arr) (b :: mask) =
    if b then x :: getitem_mask arr mask else getitem_mask arr mask.
Proof. unfold getitem_mask. simpl. rewrite filter_cons. by destruct b. Qed.

Lemma getitem_mask_fmap {A B} (f : A → B) (arr : list A) (mask : list bool) :
  getitem_mask (f <$> arr) mask = f <$> getitem_mask arr mask.
Proof.
  revert mask. induction arr as [|x arr IH]; intros [|b mask]; try done.
  rewrite fmap_cons, !getitem_mask_cons, IH. by destruct b.
Qed.

(** The rows at the positions a mask selects are the rows the mask holds
    on. *)
Lemma take_idx_getitem_mask {A} (p : A → bool) (l : list A) :
  take_idx l (getitem_mask (seq 0 (length l)) (p <$> l)) =
    filter (λ x, p x = true) l.
Proof.
  induction l as [|x l IH]; [done |].
  simpl length. rewrite <- cons_seq, fmap_cons, getitem_mask_cons, filter_cons.
  rewrite <- fmap_S_seq, getitem_mask_fmap.
  destruct (decide (p x = true)) as [Hp | Hp].
  - rewrite Hp, take_idx_cons. simpl lookup. by rewrite take_idx_shift, IH.
  - apply not_true_is_false in Hp. by rewrite Hp, take_idx_shift, IH.
Qed.

Lemma getitem_mask_in_range {A} (p : A → bool) (l : list A) :
  Forall (λ i, (i < length l)%nat) (getitem_mask (seq 0 (length l)) (p <$> l)).
Proof.
  apply Forall_forall. intros i Hi.
  unfold getitem_mask in Hi. apply list_elem_of_fmap in Hi as ([i' b] & -> & Hi).
  apply list_elem_of_filter in Hi as [_ Hi]. apply elem_of_zip_l in Hi.
  apply elem_of_seq in Hi. simpl. lia.
Qed.

Lemma getitem_mask_length {A} (p : A → bool) (l : list A) :
  length (getitem_mask (seq 0 (length l)) (p <$> l)) =
    length (filter (λ x, p x = true) l).
Proof.
  rewrite <- take_idx_getitem_mask, take_idx_length; [done |].
  apply getitem_mask_in_range.
Qed.

(** ** The shape of a descending [sort_values] *)

Section SortValues.
Context {R : Type} (argsort : list Z → list nat) (col : R → option Z).
Implicit Types df : list R.

(** The ranking of the rows with a value, followed by the rows without
    a value in input order.  This holds whatever [argsort] returns. *)
Lemma sort_values_desc_eq df :
  sort_values argsort col false df =
    reverse (take_idx (reverse (nonnull col df)) (argsort (ranked_array col df)))
    ++ nulls col df.
Proof.
  unfold sort_values, nargsort, ranked_array. cbv zeta.
  rewrite length_fmap, <- !list_fmap_compose.
  rewrite take_idx_app, take_idx_reverse, take_idx_take_idx.
  - rewrite take_idx_reverse.
    rewrite (take_idx_getitem_mask (negb ∘ isna ∘ col) df).
    rewrite (take_idx_getitem_mask (isna ∘ col) df). done.
  - apply Forall_reverse, (getitem_mask_in_range (negb ∘ isna ∘ col) df).
Qed.

Lemma nonnull_values df : col <$> nonnull col df = Some <$> dropna (col <$> df).
Proof.
  unfold dropna, nonnull. induction df as [|r df IH]; [done |].
  rewrite filter_cons, fmap_cons. destruct (col r) as [x|] eqn:Hr; simpl.
  - rewrite Hr. f_equal. exact IH.
  - exact IH.
Qed.

Lemma nulls_values df : col <$> nulls col df = replicate (length (nulls col df)) None.
Proof.
  unfold nulls. induction df as [|r df IH]; [done |].
  rewrite filter_cons. destruct (col r) as [x|] eqn:Hr; simpl; [exact IH |].
  rewrite Hr. by f_equal.
Qed.

Lemma nonnull_length df : length (nonnull col df) = length (ranked_array col df).
Proof.
  unfold ranked_array.
  transitivity (length (col <$> nonnull col df)); [by rewrite length_fmap |].
  by rewrite nonnull_values, length_fmap, length_reverse.
Qed.

Lemma nonnull_nulls_Permutation df : nonnull col df ++ nulls col df ≡ₚ df.
Proof.
  unfold nonnull, nulls. induction df as [|r df IH]; [done |].
  rewrite !filter_cons. destruct (isna (col r)); simpl.
  - by rewrite <- Permutation_middle, IH.
  - by rewrite IH.
Qed.

Lemma reverse_nonnull_values df :
  col <$> reverse (nonnull col df) = Some <$> ranked_array col df.
Proof.
  unfold ranked_array. by rewrite !fmap_reverse, nonnull_values.
Qed.

Section WithContract.
Variable df : list R.
Hypothesis Hok : argsort_ok argsort (ranked_array col df).

Lemma ranked_nonnull_Permutation :
  take_idx (reverse (nonnull col df)) (argsort (ranked_array col df))
    ≡ₚ nonnull col df.
Proof.
  destruct Hok as [Hperm _].
  rewrite take_idx_Permutation; [apply reverse_Permutation |].
  by rewrite length_reverse, nonnull_length.
Qed.

Lemma sort_values_desc_Permutation : sort_values argsort col false df ≡ₚ df.
Proof.
  rewrite sort_values_desc_eq, reverse_Permutation,
    ranked_nonnull_Permutation.
  apply nonnull_nulls_Permutation.
Qed.

Lemma sort_values_desc_keys :
  col <$> sort_values argsort col false df =
    (Some <$> reverse (take_idx (ranked_array col df)
                         (argsort (ranked_array col df))))
    ++ replicate (length (nulls col df)) None.
Proof.
  rewrite sort_values_desc_eq, fmap_app, nulls_values. f_equal.
  by rewrite fmap_reverse, <- take_idx_fmap, reverse_nonnull_values,
    take_idx_fmap, fmap_reverse.
Qed.
End WithContract.
End SortValues.

(** ** Order of a descending ranking *)

Lemma StronglySorted_replicate_None (m : nat) :
  StronglySorted desc_nulls_last (replicate m None).
Proof.
  induction m as [|m IH]; simpl; constructor; [done |].
  apply Forall_forall. intros x ?%elem_of_replicate_inv. by subst.
Qed.

Lemma desc_keys_sorted (l : list Z) (m : nat) :
  Sorted Z.le l →
  StronglySorted desc_nulls_last ((Some <$> reverse l) ++ replicate m None).
Proof.
  intros Hl. apply StronglySorted_app. split_and!.
  - intros x1 x2 _ ?%elem_of_replicate_inv. subst. by destruct x1.
  - apply (StronglySorted_fmap Some (flip Z.le)); [by intros x y |].
    apply Sorted_StronglySorted; [| by apply Sorted_reverse].
    intros x y z. unfold flip. lia.
  - apply StronglySorted_replicate_None.
Qed.

Lemma StronglySorted_fmap_inv {A B} (f : A → B) (R2 : relation B) (l : list A) :
  StronglySorted R2 (f <$> l) → StronglySorted (λ x y, R2 (f x) (f y)) l.
Proof.
  induction l as [|x l IH]; [constructor |].
  rewrite fmap_cons. intros [H1 H2]%StronglySorted_cons.
  constructor; [by apply IH |].
  apply Forall_forall. intros y Hy.
  eapply Forall_forall in H1; [done |]. by apply list_elem_of_fmap_2.
Qed.

Lemma StronglySorted_take {A} (R : relation A) (n : nat) (l : list A) :
  StronglySorted R l → StronglySorted R (take n l).
Proof.
  intros H. rewrite <- (take_drop n l) in H. by apply StronglySorted_app in H as (_ & ? & _).
Qed.

(** Under the promise of [argsort] for this call, the descending
    [sort_values] ranks every row once, by descending value with the nulls
    last. *)
Lemma sort_values_desc_sorted {R} (argsort : list Z → list nat)
    (col : R → option Z) (df : list R) :
  argsort_ok argsort (ranked_array col df) →
  StronglySorted (λ r s, desc_nulls_last (col r) (col s))
    (sort_values argsort col false df).
Proof.
  intros Hok. apply StronglySorted_fmap_inv.
  rewrite sort_values_desc_keys by done.
  apply desc_keys_sorted. by destruct Hok.
Qed.

(** ** Grouped sums *)

Lemma group_keys_Permutation (keys : list (option string)) :
  group_keys keys ≡ₚ remove_dups (dropna keys).
Proof. apply merge_sort_Permutation. Qed.

Lemma group_keys_NoDup (keys : list (option string)) : NoDup (group_keys keys).
Proof. rewrite group_keys_Permutation. apply NoDup_remove_dups. Qed.

Lemma group_keys_elem_of (keys : list (option string)) (k : string) :
  k ∈ group_keys keys ↔ Some k ∈ keys.
Proof.
  rewrite group_keys_Permutation, elem_of_remove_dups. unfold dropna.
  rewrite list_elem_of_omap. split.
  - intros (x & Hx & Hk). simpl in Hk. by subst.
  - intros H. by exists (Some k).
Qed.

Lemma label_of_spec (uniques : list string) (i : nat) (k : string)
    (key : option string) :
  NoDup uniques → uniques !! i = Some k →
  label_of uniques key = Some i ↔ key = Some k.
Proof.
  intros Hnd Hi. destruct key as [s|]; simpl; [| done]. split.
  - intros ([j y] & Hf & Hj)%fmap_Some. simpl in Hj. subst j.
    apply list_find_Some in Hf as (Hy & -> & _). congruence.
  - intros [= ->].
    destruct (list_find_elem_of (k =.) uniques k) as [[j y] Hf]; [| done |].
    { by eapply list_elem_of_lookup_2. }
    rewrite Hf. simpl. f_equal.
    apply list_find_Some in Hf as (Hy & <- & _). by eapply NoDup_lookup.
Qed.

(** *** Arithmetic of the two types *)

Lemma wrap_spec (z : Z) : ∃ k, Int64.wrap z = z + k * 2 ^ 64.
Proof.
  unfold Int64.wrap. exists (- ((z + 2 ^ 63) / 2 ^ 64)).
  pose proof (Z.div_mod (z + 2 ^ 63) (2 ^ 64)). lia.
Qed.

Lemma wrap_eq (a b k : Z) : a = b + k * 2 ^ 64 → Int64.wrap a = Int64.wrap b.
Proof.
  intros ->. unfold Int64.wrap. f_equal.
  replace (b + k * 2 ^ 64 + 2 ^ 63) with (b + 2 ^ 63 + k * 2 ^ 64) by lia.
  apply Z_mod_plus_full.
Qed.

Lemma wrap_range (z : Z) : - 2 ^ 63 ≤ Int64.wrap z < 2 ^ 63.
Proof.
  unfold Int64.wrap. pose proof (Z.mod_pos_bound (z + 2 ^ 63) (2 ^ 64)). lia.
Qed.

Lemma wrap_small (z : Z) : - 2 ^ 63 ≤ z < 2 ^ 63 → Int64.wrap z = z.
Proof.
  intros Hz. unfold Int64.wrap. rewrite Z.mod_small by lia. lia.
Qed.

Lemma wrap_wrap (z : Z) : Int64.wrap (Int64.wrap z) = Int64.wrap z.
Proof. apply wrap_small, wrap_range. Qed.

Lemma round_small (z : Z) : Z.abs z < 2 ^ 53 → Float64.round z = z.
Proof.
  intros Hz. unfold Float64.round. cbv zeta.
  by rewrite (proj2 (Z.ltb_lt _ _) Hz).
Qed.

(** One compensated step in int64: the cell takes the wrapped sum and the
    compensation stays 0. *)
Lemma int64_step (s x : Z) :
  dtype_add int64 s (dtype_sub int64 x 0) = Int64.wrap (s + x) ∧
  dtype_sub int64
    (dtype_sub int64 (dtype_add int64 s (dtype_sub int64 x 0)) s)
    (dtype_sub int64 x 0) = 0.
Proof.
  unfold dtype_add, dtype_sub.
  destruct (wrap_spec (x - 0)) as [k1 H1].
  destruct (wrap_spec (s + Int64.wrap (x - 0))) as [k2 H2].
  destruct (wrap_spec (Int64.wrap (s + Int64.wrap (x - 0)) - s)) as [k3 H3].
  split.
  - apply (wrap_eq _ _ k1). lia.
  - change 0 with (Int64.wrap 0) at 3. apply (wrap_eq _ _ (k2 + k3)). lia.
Qed.

(** One compensated step in float64 is exact as long as the sum has 53
    bits. *)
Lemma float64_step (s x : Z) :
  Z.abs s + Z.abs x < 2 ^ 53 →
  dtype_add float64 s (dtype_sub float64 x 0) = s + x ∧
  dtype_sub float64
    (dtype_sub float64 (dtype_add float64 s (dtype_sub float64 x 0)) s)
    (dtype_sub float64 x 0) = 0.
Proof.
  intros Hb. unfold dtype_add, dtype_sub.
  rewrite (round_small (x - 0)) by lia.
  rewrite (round_small (s + (x - 0))) by lia.
  rewrite (round_small (s + (x - 0) - s)) by lia.
  split; [lia |]. rewrite round_small by lia. lia.
Qed.

(** *** The summation loop *)

Lemma group_sum_cons (t : dtype) (lab : option nat) (val : option Z)
    (labels : list (option nat)) (values : list (option Z))
    (sumx compensation : list Z) :
  group_sum t (lab :: labels) (val :: values) sumx compensation =
    match lab, val with
    | Some l, Some x =>
        let y := dtype_sub t x (compensation !!! l) in
        let s := dtype_add t (sumx !!! l) y in
        group_sum t labels values (<[l := s]> sumx)
          (<[l := dtype_sub t (dtype_sub t s (sumx !!! l)) y]> compensation)
    | _, _ => group_sum t labels values sumx compensation
    end.
Proof. by destruct lab, val. Qed.

Lemma group_sum_length (t : dtype) (labels : list (option nat))
    (values : list (option Z)) (sumx compensation : list Z) :
  length (group_sum t labels values sumx compensation) = length sumx.
Proof.
  revert values sumx compensation.
  induction labels as [|lab labels IH]; intros [|val values] sumx compensation;
    try done.
  rewrite group_sum_cons. destruct lab, val; rewrite ?IH, ?length_insert; done.
Qed.

Lemma zeros_lookup_total (compensation : list Z) (l : nat) :
  Forall (λ c, c = 0) compensation → (l < length compensation)%nat →
  compensation !!! l = 0.
Proof.
  intros Hc [c Hl]%lookup_lt_is_Some_2.
  rewrite (list_lookup_total_correct _ _ _ Hl).
  by apply (Forall_lookup_1 _ _ _ _ Hc Hl).
Qed.

Lemma label_of_lt (uniques : list string) (key : option string) (i : nat) :
  label_of uniques key = Some i → (i < length uniques)%nat.
Proof.
  destruct key as [s|]; simpl; [| done].
  intros ([j y] & Hf & Hj)%fmap_Some. simpl in Hj. subst j.
  apply list_find_Some in Hf as (Hy & _). by eapply lookup_lt_Some.
Qed.

Lemma zeros_insert (compensation : list Z) (l : nat) :
  Forall (λ c, c = 0) compensation → Forall (λ c, c = 0) (<[l := 0]> compensation).
Proof. intros Hc. by apply Forall_insert. Qed.

(** In int64 the cell of a label ends up with the wrapped sum of what it
    held and the values of the rows with that label. *)
Lemma group_sum_int64_lookup {R} (lab : R → option nat) (val : R → option Z)
    (df : list R) (sumx compensation : list Z) (l : nat) :
  Forall (λ s, Int64.wrap s = s) sumx → Forall (λ c, c = 0) compensation →
  length compensation = length sumx →
  (∀ r l', lab r = Some l' → (l' < length sumx)%nat) →
  group_sum int64 (lab <$> df) (val <$> df) sumx compensation !! l =
    (λ s, Int64.wrap
            (s + foldr Z.add 0
                   (default 0 ∘ val <$> filter (λ r, lab r = Some l) df)))
      <$> sumx !! l.
Proof.
  revert sumx compensation.
  induction df as [|r df IH]; intros sumx comp Hs Hc Hlen Hlab'.
  - simpl. destruct (sumx !! l) as [s|] eqn:Hl; simpl; [| done].
    rewrite Z.add_0_r. f_equal. symmetry.
    by apply (Forall_lookup_1 _ _ _ _ Hs Hl).
  - rewrite !fmap_cons, group_sum_cons, filter_cons.
    destruct (lab r) as [l'|] eqn:Hlab; [| rewrite decide_False by done; by apply IH].
    destruct (val r) as [x|] eqn:Hval.
    + cbv zeta.
      rewrite (zeros_lookup_total comp l' Hc)
        by (rewrite Hlen; by apply (Hlab' r)).
      destruct (int64_step (sumx !!! l') x) as [-> ->].
      rewrite IH; [| apply Forall_insert; [done | apply wrap_wrap]
                   | by apply zeros_insert
                   | by rewrite !length_insert
                   | intros r' l'' Hr'; rewrite length_insert; by apply (Hlab' r')].
      destruct (decide (l' = l)) as [-> | Hne].
      * rewrite decide_True by done. rewrite fmap_cons. simpl foldr.
        rewrite Hval. simpl. rewrite list_lookup_insert. case_decide as Hl.
        -- destruct Hl as [_ Hl]. apply lookup_lt_is_Some_2 in Hl as [s Hsl].
           rewrite (list_lookup_total_correct _ _ _ Hsl), Hsl. simpl. f_equal.
           destruct (wrap_spec (s + x)) as [k Hk]. apply (wrap_eq _ _ k). lia.
        -- destruct (sumx !! l) eqn:Hsl; [| done].
           exfalso. apply Hl. split; [done |]. by eapply lookup_lt_Some.
      * rewrite decide_False by congruence. by rewrite list_lookup_insert_ne.
    + rewrite IH by done. destruct (decide (l' = l)) as [-> | Hne].
      * rewrite decide_True by done. rewrite fmap_cons. simpl foldr.
        by rewrite Hval.
      * by rewrite decide_False by congruence.
Qed.

Lemma sum_abs_cons (cell : option Z) (col : list (option Z)) :
  sum_abs (cell :: col) = Z.abs (default 0 cell) + sum_abs col.
Proof. reflexivity. Qed.

Lemma sum_abs_nonneg (col : list (option Z)) : 0 ≤ sum_abs col.
Proof.
  induction col as [|cell col IH]; [done |]. rewrite sum_abs_cons. lia.
Qed.

(** In float64 the cell of a label ends up with the sum of what it held
    and the values of the rows with that label, as long as all of that
    has 53 bits. *)
Lemma group_sum_float64_lookup {R} (lab : R → option nat) (val : R → option Z)
    (df : list R) (sumx compensation : list Z) (l : nat) :
  Forall (λ s, Z.abs s + sum_abs (val <$> df) < 2 ^ 53) sumx →
  sum_abs (val <$> df) < 2 ^ 53 →
  Forall (λ c, c = 0) compensation →
  length compensation = length sumx →
  (∀ r l', lab r = Some l' → (l' < length sumx)%nat) →
  group_sum float64 (lab <$> df) (val <$> df) sumx compensation !! l =
    (λ s, s + foldr Z.add 0
                (default 0 ∘ val <$> filter (λ r, lab r = Some l) df))
      <$> sumx !! l.
Proof.
  revert sumx compensation.
  induction df as [|r df IH]; intros sumx comp Hs Hb Hc Hlen Hlab'.
  - simpl. destruct (sumx !! l) as [s|]; simpl; [f_equal; lia | done].
  - rewrite !fmap_cons, sum_abs_cons in Hs, Hb.
    pose proof (sum_abs_nonneg (val <$> df)) as Hnn.
    assert (Forall (λ s, Z.abs s + sum_abs (val <$> df) < 2 ^ 53) sumx) as Hs'.
    { eapply Forall_impl; [exact Hs |]. intros s Hlt. simpl in Hlt. lia. }
    rewrite !fmap_cons, group_sum_cons, filter_cons.
    destruct (lab r) as [l'|] eqn:Hlab;
      [| rewrite decide_False by done; apply IH; [done | lia | done | done | done]].
    destruct (val r) as [x|] eqn:Hval.
    + cbv zeta.
      rewrite (zeros_lookup_total comp l' Hc)
        by (rewrite Hlen; by apply (Hlab' r)).
      assert (Z.abs (sumx !!! l') + Z.abs x + sum_abs (val <$> df) < 2 ^ 53) as Hl'.
      { destruct (lookup_lt_is_Some_2 sumx l') as [s Hsl]; [by apply (Hlab' r) |].
        rewrite (list_lookup_total_correct _ _ _ Hsl).
        pose proof (Forall_lookup_1 _ _ _ _ Hs Hsl) as Hlt. simpl in Hlt. lia. }
      destruct (float64_step (sumx !!! l') x) as [-> ->]; [lia |].
      rewrite IH; [| | lia | by apply zeros_insert | by rewrite !length_insert
                   | intros r' l'' Hr'; rewrite length_insert; by apply (Hlab' r')].
      2:{ apply Forall_insert; [done | lia]. }
      destruct (decide (l' = l)) as [-> | Hne].
      * rewrite decide_True by done. rewrite fmap_cons. simpl foldr.
        rewrite Hval. simpl. rewrite list_lookup_insert. case_decide as Hl.
        -- destruct Hl as [_ Hl]. apply lookup_lt_is_Some_2 in Hl as [s Hsl].
           rewrite (list_lookup_total_correct _ _ _ Hsl), Hsl. simpl. f_equal.
           lia.
        -- destruct (sumx !! l) eqn:Hsl; [| done].
           exfalso. apply Hl. split; [done |]. by eapply lookup_lt_Some.
      * rewrite decide_False by congruence. by rewrite list_lookup_insert_ne.
    + rewrite IH; [| done | lia | done | done | done].
      destruct (decide (l' = l)) as [-> | Hne].
      * rewrite decide_True by done. rewrite fmap_cons. simpl foldr.
        by rewrite Hval.
      * by rewrite decide_False by congruence.
Qed.

Lemma zip_fmap_self {A B} (f : A → B) (l : list A) :
  zip l (f <$> l) = (λ x, (x, f x)) <$> l.
Proof. induction l as [|x l IH]; [done |]. rewrite !fmap_cons. simpl. by f_equal. Qed.

(** *** The grouped sum *)

(** One entry per group key, whatever the type of the values. *)
Lemma groupby_sum_keys {R} (t : dtype) (key : R → option string)
    (val : R → option Z) (df : list R) :
  (groupby_sum t key val df).*1 = group_keys (key <$> df).
Proof.
  unfold groupby_sum. cbv zeta. apply fst_zip.
  by rewrite group_sum_length, length_replicate.
Qed.

Lemma groupby_sum_has_rows {R} (t : dtype) (key : R → option string)
    (val : R → option Z) (df : list R) (k : string) (s : Z) :
  (k, s) ∈ groupby_sum t key val df → ∃ r, r ∈ df ∧ key r = Some k.
Proof.
  intros Hin.
  assert (k ∈ (groupby_sum t key val df).*1) as Hk
    by (apply list_elem_of_fmap; by exists (k, s)).
  rewrite groupby_sum_keys in Hk.
  apply group_keys_elem_of, list_elem_of_fmap in Hk as (r & ? & ?). eauto.
Qed.

Lemma group_total_bound {R} (key : R → option string) (val : R → option Z)
    (k : string) (df : list R) :
  Z.abs (group_total key val k df) ≤ sum_abs (val <$> df).
Proof.
  unfold group_total. induction df as [|r df IH]; [done |].
  rewrite fmap_cons, sum_abs_cons, filter_cons.
  case_decide; [rewrite fmap_cons; simpl foldr |]; simpl; lia.
Qed.

(** In int64 the total of a group is the sum of its values wrapped to 64
    bits. *)
Lemma groupby_sum_int64 {R} (key : R → option string) (val : R → option Z)
    (df : list R) :
  groupby_sum int64 key val df =
    (λ k, (k, Int64.wrap (group_total key val k df)))
      <$> group_keys (key <$> df).
Proof.
  unfold groupby_sum. cbv zeta.
  rewrite <- (zip_fmap_self (λ k, Int64.wrap (group_total key val k df))).
  f_equal.
  set (uniques := group_keys (key <$> df)).
  apply list_eq. intros i.
  rewrite (group_sum_int64_lookup (label_of uniques ∘ key) val df),
    list_lookup_fmap.
  - destruct (uniques !! i) as [k|] eqn:Hi.
    + rewrite lookup_replicate_2 by by eapply lookup_lt_Some. simpl. f_equal.
      unfold group_total. rewrite Z.add_0_l. do 3 f_equal.
      apply list_filter_iff. intros r. simpl.
      apply label_of_spec; [apply group_keys_NoDup | done].
    + apply lookup_ge_None in Hi.
      rewrite (proj1 (lookup_replicate_None _ _ _)); [done | done].
  - apply Forall_replicate. by apply wrap_small.
  - by apply Forall_replicate.
  - by rewrite !length_replicate.
  - intros r l' Hl'. rewrite length_replicate. by eapply label_of_lt.
Qed.

(** When the magnitudes of the values add up to less than 2^53, the total
    of a group is the sum of its values in either type. *)
Lemma groupby_sum_exact {R} (t : dtype) (key : R → option string)
    (val : R → option Z) (df : list R) :
  sum_abs (val <$> df) < 2 ^ 53 →
  groupby_sum t key val df =
    (λ k, (k, group_total key val k df)) <$> group_keys (key <$> df).
Proof.
  intros Hb. destruct t.
  - rewrite groupby_sum_int64. apply list_fmap_ext. intros i k _. f_equal.
    apply wrap_small. pose proof (group_total_bound key val k df). lia.
  - unfold groupby_sum. cbv zeta.
    rewrite <- (zip_fmap_self (λ k, group_total key val k df)). f_equal.
    set (uniques := group_keys (key <$> df)).
    apply list_eq. intros i.
    rewrite (group_sum_float64_lookup (label_of uniques ∘ key) val df),
      list_lookup_fmap.
    + destruct (uniques !! i) as [k|] eqn:Hi.
      * rewrite lookup_replicate_2 by by eapply lookup_lt_Some. simpl. f_equal.
        unfold group_total. rewrite Z.add_0_l. do 2 f_equal.
        apply list_filter_iff. intros r. simpl.
        apply label_of_spec; [apply group_keys_NoDup | done].
      * apply lookup_ge_None in Hi.
        rewrite (proj1 (lookup_replicate_None _ _ _)); [done | done].
    + apply Forall_replicate. simpl. lia.
    + done.
    + by apply Forall_replicate.
    + by rewrite !length_replicate.
    + intros r l' Hl'. rewrite length_replicate. by eapply label_of_lt.
Qed.

(** ** Aggregators *)

Lemma argsort_ok_decide (argsort : list Z → list nat) (v : list Z) :
  bool_decide (argsort v ≡ₚ seq 0 (length v) ∧
               Sorted Z.le (take_idx v (argsort v))) = true →
  argsort_ok argsort v.
Proof. intros H. by apply bool_decide_eq_true in H. Qed.

(** Whatever [argsort] is, if it keeps its promise for this call, the
    grouped top-N chain returns the first [n] entries of a descending
    ranking of the groups: at most [n] (key, total) pairs, sorted
    descending by total, with distinct keys, each an entry of the grouped
    sum. *)
Lemma groupby_sum_top_contract {R} (argsort : list Z → list nat) (t : dtype)
    (key : R → option string) (val : R → option Z) (n : nat) (df : list R) :
  argsort_ok argsort
    (ranked_array (λ g : string * Z, Some g.2) (groupby_sum t key val df)) →
  (∃ ranked,
     groupby_sum_top argsort t key val n df = take n ranked ∧
     ranked ≡ₚ groupby_sum t key val df ∧
     StronglySorted (λ g h : string * Z, h.2 ≤ g.2) ranked) ∧
  StronglySorted (λ g h : string * Z, h.2 ≤ g.2)
    (groupby_sum_top argsort t key val n df) ∧
  (length (groupby_sum_top argsort t key val n df) ≤ n)%nat ∧
  NoDup (groupby_sum_top argsort t key val n df).*1 ∧
  (∀ k s, (k, s) ∈ groupby_sum_top argsort t key val n df →
     (k, s) ∈ groupby_sum t key val df).
Proof.
  intros Hok.
  set (ranked := sort_values argsort (λ g : string * Z, Some g.2) false
                   (groupby_sum t key val df)).
  assert (ranked ≡ₚ groupby_sum t key val df) as Hperm
    by by apply sort_values_desc_Permutation.
  assert (StronglySorted (λ g h : string * Z, h.2 ≤ g.2) ranked) as Hsorted.
  { pose proof (sort_values_desc_sorted argsort _ _ Hok) as H.
    eapply (StronglySorted_fmap id) in H; [by rewrite list_fmap_id in H |].
    by intros g h. }
  change (groupby_sum_top argsort t key val n df) with (take n ranked).
  split_and!.
  - by exists ranked.
  - by apply StronglySorted_take.
  - rewrite length_take. lia.
  - rewrite fmap_take. eapply sublist_NoDup; [| apply sublist_take].
    rewrite Hperm, groupby_sum_keys. apply group_keys_NoDup.
  - intros k s Hin. rewrite <- Hperm. by eapply subseteq_take.
Qed.

(** What an entry of the grouped sum holds: a key that some row has, with
    the sum of the values of its rows, a null value adding nothing, as the
    type of the values returns it: wrapped to 64 bits in int64, so exact
    when the sum lies in the int64 range, and exact in either type when
    the magnitudes of the values add up to less than 2^53. *)
Lemma groupby_sum_entry {R} (t : dtype) (key : R → option string)
    (val : R → option Z) (df : list R) (k : string) (s : Z) :
  (k, s) ∈ groupby_sum t key val df →
  (∃ r, r ∈ df ∧ key r = Some k) ∧
  (t = int64 → s = Int64.wrap (group_total key val k df)) ∧
  (t = int64 → - 2 ^ 63 ≤ group_total key val k df < 2 ^ 63 →
   s = group_total key val k df) ∧
  (sum_abs (val <$> df) < 2 ^ 53 → s = group_total key val k df).
Proof.
  intros Hin.
  assert (t = int64 → s = Int64.wrap (group_total key val k df)) as Hwrap.
  { intros ->. rewrite groupby_sum_int64 in Hin.
    by apply list_elem_of_fmap in Hin as (k' & [= -> ->] & _). }
  split_and!.
  - by eapply groupby_sum_has_rows.
  - exact Hwrap.
  - intros Ht Hrange. rewrite Hwrap by done. by apply wrap_small.
  - intros Hb. rewrite groupby_sum_exact in Hin by done.
    by apply list_elem_of_fmap in Hin as (k' & [= -> ->] & _).
Qed.

(** ** The index array of the default sort

    Every step of the sort writes into a cell of the index array a value
    it has read from the array, so the array keeps its length and holds
    valid positions only. *)

Section Positions.
Variable v : list Z.
Variable n : nat.
Implicit Types tosort : list nat.

Lemma positions_ok_read tosort p :
  positions_ok n tosort → (0 < n)%nat → (tosort !!! p < n)%nat.
Proof.
  intros [_ Hall] Hn. rewrite list_lookup_total_alt.
  destruct (tosort !! p) as [i|] eqn:Hp; simpl; [| done].
  eapply Forall_forall in Hall; [done |]. by eapply list_elem_of_lookup_2.
Qed.

Lemma positions_ok_write tosort p i :
  positions_ok n tosort → ((0 < n)%nat → (i < n)%nat) →
  positions_ok n (<[p := i]> tosort).
Proof.
  intros [Hlen Hall] Hi. split; [by rewrite length_insert |].
  destruct (decide (p < length tosort)%nat) as [Hp | Hp].
  - apply Forall_insert; [done |]. apply Hi. lia.
  - by rewrite list_insert_ge by lia.
Qed.

Lemma positions_ok_move tosort p q :
  positions_ok n tosort → positions_ok n (<[p := tosort !!! q]> tosort).
Proof. intros H. apply positions_ok_write; [done |]. by apply positions_ok_read. Qed.

Lemma INTP_SWAP_positions tosort pa pb :
  positions_ok n tosort → positions_ok n (Numpy.INTP_SWAP tosort pa pb).
Proof.
  intros H. unfold Numpy.INTP_SWAP.
  apply positions_ok_write; [by apply positions_ok_move |].
  by apply positions_ok_read.
Qed.

Lemma swap_if_less_positions tosort pa pb :
  positions_ok n tosort → positions_ok n (Numpy.swap_if_less v tosort pa pb).
Proof.
  intros H. unfold Numpy.swap_if_less. case_bool_decide; [| done].
  by apply INTP_SWAP_positions.
Qed.

Lemma partition_loop_positions fuel tosort vp pi pj :
  positions_ok n tosort →
  positions_ok n (Numpy.partition_loop v fuel tosort vp pi pj).1.
Proof.
  revert tosort pi pj. induction fuel as [|fuel IH]; intros tosort pi pj H; simpl.
  - by case_bool_decide.
  - case_bool_decide; [done |]. by apply IH, INTP_SWAP_positions.
Qed.

Lemma shift_right_positions fuel tosort pl vp pj :
  positions_ok n tosort →
  positions_ok n (Numpy.shift_right v fuel tosort pl vp pj).1.
Proof.
  revert tosort pj. induction fuel as [|fuel IH]; intros tosort pj H; simpl;
    [done |].
  destruct (_ && _); [| done]. by apply IH, positions_ok_move.
Qed.

Lemma insertion_for_positions count tosort pl pi :
  positions_ok n tosort →
  positions_ok n (Numpy.insertion_for v count tosort pl pi).
Proof.
  revert tosort pi. induction count as [|count IH]; intros tosort pi H; simpl;
    [done |].
  pose proof (shift_right_positions pi tosort pl (v !!! (tosort !!! pi)) pi H)
    as Hs.
  destruct (Numpy.shift_right v pi tosort pl (v !!! (tosort !!! pi)) pi)
    as [tosort' pj].
  apply IH, positions_ok_write; [done |]. by apply positions_ok_read.
Qed.

Lemma sift_down_positions fuel tosort base m tmp i j :
  positions_ok n tosort → ((0 < n)%nat → (tmp < n)%nat) →
  positions_ok n (Numpy.sift_down v fuel tosort base m tmp i j).
Proof.
  intros H Htmp. revert tosort i j H.
  induction fuel as [|fuel IH]; intros tosort i j H; simpl.
  - by apply positions_ok_write.
  - case_bool_decide; [| by apply positions_ok_write].
    case_bool_decide; [| by apply positions_ok_write].
    by apply IH, positions_ok_move.
Qed.

Lemma heap_build_positions l tosort base m :
  positions_ok n tosort → positions_ok n (Numpy.heap_build v l tosort base m).
Proof.
  revert tosort. induction l as [|l IH]; intros tosort H; simpl; [done |].
  apply IH, sift_down_positions; [done |]. by apply positions_ok_read.
Qed.

Lemma heap_extract_positions fuel tosort base m :
  positions_ok n tosort → positions_ok n (Numpy.heap_extract v fuel tosort base m).
Proof.
  revert tosort m. induction fuel as [|fuel IH]; intros tosort m H; simpl;
    [done |].
  case_bool_decide; [| done].
  apply IH, sift_down_positions; [by apply positions_ok_move |].
  by apply positions_ok_read.
Qed.

Lemma partition_positions tosort pl pr :
  positions_ok n tosort → positions_ok n (Numpy.partition v tosort pl pr).1.
Proof.
  intros H. unfold Numpy.partition.
  set (t3 := Numpy.INTP_SWAP _ _ _).
  assert (positions_ok n t3) as H3.
  { apply INTP_SWAP_positions. by do 3 apply swap_if_less_positions. }
  pose proof (partition_loop_positions (length t3) t3
                (Numpy.at_ v
                   (Numpy.swap_if_less v
                      (Numpy.swap_if_less v
                         (Numpy.swap_if_less v tosort (pl + (pr - pl) / 2) pl)
                         pr (pl + (pr - pl) / 2))
                      (pl + (pr - pl) / 2) pl)
                   (pl + (pr - pl) / 2))
                pl (pred pr) H3) as H4.
  destruct (Numpy.partition_loop v (length t3) t3 _ pl (pred pr)) as [t4 pi].
  by apply INTP_SWAP_positions.
Qed.

Lemma partition_while_positions fuel tosort pl pr cdepth stack :
  positions_ok n tosort →
  positions_ok n (Numpy.partition_while v fuel tosort pl pr cdepth stack).1.1.1.
Proof.
  revert tosort pl pr cdepth stack.
  induction fuel as [|fuel IH]; intros tosort pl pr cdepth stack H; simpl;
    [done |].
  case_bool_decide; [| done].
  pose proof (partition_positions tosort pl pr H) as Hp.
  destruct (Numpy.partition v tosort pl pr) as [t1 pi].
  case_bool_decide; by apply IH.
Qed.

Lemma aquicksort_loop_positions fuel tosort pl pr cdepth stack :
  positions_ok n tosort →
  positions_ok n (Numpy.aquicksort_loop v fuel tosort pl pr cdepth stack).
Proof.
  revert tosort pl pr cdepth stack.
  induction fuel as [|fuel IH]; intros tosort pl pr cdepth stack H; simpl;
    [done |].
  case_bool_decide.
  - assert (positions_ok n (Numpy.aheapsort v tosort pl (pr - pl + 1))) as H'.
    { by apply heap_extract_positions, heap_build_positions. }
    destruct stack as [|[[pl' pr'] d] stack]; [done | by apply IH].
  - pose proof (partition_while_positions (length tosort) tosort pl pr cdepth
                  stack H) as Hw.
    destruct (Numpy.partition_while v (length tosort) tosort pl pr cdepth stack)
      as [[[t1 pl1] pr1] stack1].
    assert (positions_ok n (Numpy.insertion_sort v t1 pl1 pr1)) as H'.
    { by apply insertion_for_positions. }
    destruct stack1 as [|[[pl' pr'] d] stack1]; [done | by apply IH].
Qed.
End Positions.

(** The default sort returns one valid position per value. *)
Lemma aquicksort_positions (v : list Z) :
  positions_ok (length v) (Numpy.aquicksort v).
Proof.
  apply aquicksort_loop_positions. split; [apply length_seq |].
  apply Forall_forall. intros i Hi%elem_of_seq. lia.
Qed.

(** ** Swaps in the index array *)

Lemma INTP_SWAP_length (t : list nat) (i j : nat) :
  length (Numpy.INTP_SWAP t i j) = length t.
Proof. unfold Numpy.INTP_SWAP. by rewrite !length_insert. Qed.

Lemma INTP_SWAP_lookup (t : list nat) (i j k : nat) :
  (i < length t)%nat → (j < length t)%nat →
  Numpy.INTP_SWAP t i j !! k =
    if decide (k = j) then t !! i else if decide (k = i) then t !! j else t !! k.
Proof.
  intros Hi Hj. unfold Numpy.INTP_SWAP.
  destruct (decide (k = j)) as [-> | Hkj].
  - rewrite list_lookup_insert_eq by by rewrite length_insert.
    by rewrite list_lookup_lookup_total_lt.
  - rewrite list_lookup_insert_ne by done.
    destruct (decide (k = i)) as [-> | Hki].
    + rewrite list_lookup_insert_eq by done.
      by rewrite list_lookup_lookup_total_lt.
    + by rewrite list_lookup_insert_ne.
Qed.

Lemma INTP_SWAP_lookup_total (t : list nat) (i j k : nat) :
  (i < length t)%nat → (j < length t)%nat →
  Numpy.INTP_SWAP t i j !!! k =
    if decide (k = j) then t !!! i else if decide (k = i) then t !!! j
    else t !!! k.
Proof.
  intros Hi Hj. rewrite !list_lookup_total_alt, INTP_SWAP_lookup by done.
  repeat case_decide; by rewrite ?list_lookup_total_alt.
Qed.

Lemma INTP_SWAP_Permutation (t : list nat) (i j : nat) :
  (i < length t)%nat → (j < length t)%nat → Numpy.INTP_SWAP t i j ≡ₚ t.
Proof.
  intros Hi Hj. apply Permutation_inj. split; [apply INTP_SWAP_length |].
  exists (transpose i j). split.
  - intros x y. unfold transpose. repeat case_decide; congruence.
  - intros k. rewrite INTP_SWAP_lookup by done. unfold transpose.
    repeat case_decide; done.
Qed.

(** ** Rearrangements inside a range *)

Section Rearranged.
Variables a b : nat.
Implicit Types t : list nat.

Lemma rearranged_length t t' : rearranged a b t t' → length t' = length t.
Proof. induction 1; [done |]. by rewrite INTP_SWAP_length. Qed.

Lemma rearranged_Permutation t t' : rearranged a b t t' → t' ≡ₚ t.
Proof.
  induction 1 as [|t t' i j H IH Hi Hj Hb]; [done |].
  rewrite INTP_SWAP_Permutation; [done | lia | lia].
Qed.

(** Cells outside the range are untouched. *)
Lemma rearranged_frame t t' k :
  rearranged a b t t' → (k < a ∨ b < k)%nat → t' !! k = t !! k.
Proof.
  induction 1 as [|t t' i j H IH Hi Hj Hb]; intros Hk; [done |].
  rewrite INTP_SWAP_lookup by lia. rewrite !decide_False by lia. by apply IH.
Qed.

(** Every cell of the range holds what some cell of the range held. *)
Lemma rearranged_member t t' k :
  rearranged a b t t' → (a ≤ k ≤ b)%nat →
  ∃ k', (a ≤ k' ≤ b)%nat ∧ t' !! k = t !! k'.
Proof.
  intros H. revert k.
  induction H as [|t t' i j H IH Hi Hj Hb]; intros k Hk; [by exists k |].
  rewrite INTP_SWAP_lookup by lia. repeat case_decide; by apply IH.
Qed.

Lemma rearranged_trans t1 t2 t3 :
  rearranged a b t1 t2 → rearranged a b t2 t3 → rearranged a b t1 t3.
Proof.
  intros H12 H23. induction H23 as [|t t' i j H IH Hi Hj Hb]; [done |].
  constructor; [by apply IH | done | done | done].
Qed.

Lemma rearranged_swap_1 t i j :
  (a ≤ i ≤ b)%nat → (a ≤ j ≤ b)%nat → (b < length t)%nat →
  rearranged a b t (Numpy.INTP_SWAP t i j).
Proof. intros. constructor; [constructor | done | done | done]. Qed.
End Rearranged.

Lemma rearranged_weaken (a b a' b' : nat) (t t' : list nat) :
  rearranged a b t t' → (a' ≤ a)%nat → (b ≤ b')%nat → (b' < length t)%nat →
  rearranged a' b' t t'.
Proof.
  intros H Ha Hb Hlen. induction H as [|t t' i j H IH Hi Hj Hb']; [constructor |].
  constructor; [by apply IH | lia | lia |].
  by rewrite (rearranged_length a b t t').
Qed.

(** ** The value read through a cell *)

Section At.
Variable v : list Z.
Implicit Types t : list nat.

Lemma at_swap t i j k :
  (i < length t)%nat → (j < length t)%nat →
  Numpy.at_ v (Numpy.INTP_SWAP t i j) k =
    if decide (k = j) then Numpy.at_ v t i
    else if decide (k = i) then Numpy.at_ v t j else Numpy.at_ v t k.
Proof.
  intros Hi Hj. unfold Numpy.at_. rewrite INTP_SWAP_lookup_total by done.
  by repeat case_decide.
Qed.

Lemma at_frame (a b : nat) t t' k :
  rearranged a b t t' → (k < a ∨ b < k)%nat → Numpy.at_ v t' k = Numpy.at_ v t k.
Proof.
  intros H Hk. unfold Numpy.at_.
  by rewrite !list_lookup_total_alt, (rearranged_frame a b t t').
Qed.

Lemma at_member (a b : nat) t t' k :
  rearranged a b t t' → (a ≤ k ≤ b)%nat →
  ∃ k', (a ≤ k' ≤ b)%nat ∧ Numpy.at_ v t' k = Numpy.at_ v t k'.
Proof.
  intros H Hk. destruct (rearranged_member a b t t' k H Hk) as (k' & Hk' & Heq).
  exists k'. split; [done |]. unfold Numpy.at_.
  by rewrite !list_lookup_total_alt, Heq.
Qed.

(** A cell with a hole: [<[h := x]> t] is the array once the value [x] held
    aside is put into the hole [h].  Moving the cell [q] into the hole
    swaps the two cells of the filled array. *)
Lemma fill_move t h q x :
  h ≠ q → (h < length t)%nat → (q < length t)%nat →
  <[q := x]> (<[h := t !!! q]> t) = Numpy.INTP_SWAP (<[h := x]> t) h q.
Proof.
  intros Hne Hh Hq. unfold Numpy.INTP_SWAP.
  rewrite list_lookup_total_insert_eq by done.
  rewrite list_lookup_total_insert_ne by done.
  by rewrite list_insert_insert_eq.
Qed.

Lemma at_fill_eq t h x :
  (h < length t)%nat → Numpy.at_ v (<[h := x]> t) h = v !!! x.
Proof. intros. unfold Numpy.at_. by rewrite list_lookup_total_insert_eq. Qed.

Lemma at_fill_ne t h x k :
  h ≠ k → Numpy.at_ v (<[h := x]> t) k = Numpy.at_ v t k.
Proof. intros. unfold Numpy.at_. by rewrite list_lookup_total_insert_ne. Qed.
End At.

(** ** The insertion sort of a short range *)

Section InsertionSort.
Variable v : list Z.
Implicit Types t : list nat.

(** The shifting loop, seen on the array with the value [vi] held aside put
    into the hole [pj]: if the cells [pl..pi] ascend when the hole is left
    out and the cells after the hole are above [vi], the loop ends with the
    cells [pl..pi] ascending, hole included. *)
Lemma shift_right_spec (pl pi vi : nat) fuel t pj :
  (pl ≤ pj)%nat → (pj ≤ pi)%nat → (pi < length t)%nat → (pj - pl ≤ fuel)%nat →
  (∀ i j, (pl ≤ i)%nat → (i < j)%nat → (j ≤ pi)%nat → i ≠ pj → j ≠ pj →
     Numpy.at_ v (<[pj := vi]> t) i ≤ Numpy.at_ v (<[pj := vi]> t) j) →
  (∀ k, (pj < k)%nat → (k ≤ pi)%nat →
     v !!! vi < Numpy.at_ v (<[pj := vi]> t) k) →
  rearranged pl pi (<[pj := vi]> t)
    (<[(Numpy.shift_right v fuel t pl (v !!! vi) pj).2 := vi]>
       (Numpy.shift_right v fuel t pl (v !!! vi) pj).1) ∧
  sorted_on v
    (<[(Numpy.shift_right v fuel t pl (v !!! vi) pj).2 := vi]>
       (Numpy.shift_right v fuel t pl (v !!! vi) pj).1) pl pi.
Proof.
  revert t pj. induction fuel as [|fuel IH]; intros t pj Hpl Hpi Hlen Hfuel I1 I2.
  - assert (pj = pl) as -> by lia. simpl. split; [constructor |].
    intros i j Hi Hij Hj.
    destruct (decide (i = j)) as [-> | Hne]; [lia |].
    destruct (decide (i = pl)) as [-> | Hne'].
    + rewrite at_fill_eq by lia. apply Z.lt_le_incl, I2; lia.
    + apply I1; lia.
  - simpl.
    destruct (bool_decide (pl < pj)%nat && _) eqn:Hc.
    + apply andb_true_iff in Hc as [Hlt%bool_decide_eq_true Hv%bool_decide_eq_true].
      assert (Numpy.at_ v t (pred pj) = Numpy.at_ v (<[pj := vi]> t) (pred pj))
        as Hpred by (rewrite at_fill_ne; [done | lia]).
      rewrite Hpred in Hv.
      pose proof (fill_move t pj (pred pj) vi) as Hmove.
      assert (let A1 := <[pred pj := vi]> (<[pj := t !!! pred pj]> t) in
              A1 = Numpy.INTP_SWAP (<[pj := vi]> t) pj (pred pj)) as HA1.
      { apply Hmove; lia. }
      cbv zeta in HA1.
      destruct (IH (<[pj := t !!! pred pj]> t) (pred pj)) as [Hr Hs].
      * lia.
      * lia.
      * by rewrite length_insert.
      * lia.
      * intros i j Hi Hij Hj Hni Hnj. rewrite HA1.
        rewrite !at_swap by (rewrite length_insert; lia).
        repeat case_decide; first [lia | apply I1; lia].
      * intros k Hk1 Hk2. rewrite HA1.
        rewrite at_swap by (rewrite length_insert; lia).
        repeat case_decide; first [lia | apply I2; lia].
      * split; [| done].
        eapply rearranged_trans; [| exact Hr]. rewrite HA1.
        apply rearranged_swap_1; [lia | lia |]. rewrite length_insert. lia.
    + simpl. split; [constructor |].
      apply andb_false_iff in Hc.
      intros i j Hi Hij Hj.
      destruct (decide (i = j)) as [-> | Hne]; [lia |].
      destruct (decide (i = pj)) as [-> | Hni].
      { rewrite at_fill_eq by lia. apply Z.lt_le_incl, I2; lia. }
      destruct (decide (j = pj)) as [-> | Hnj]; [| apply I1; lia].
      assert (¬ (v !!! vi < Numpy.at_ v t (pred pj))) as Hv.
      { destruct Hc as [Hc | Hc]; apply bool_decide_eq_false in Hc; [lia | done]. }
      rewrite (at_fill_eq v t pj vi) by lia.
      assert (Numpy.at_ v (<[pj := vi]> t) i ≤ Numpy.at_ v t (pred pj)); [| lia].
      rewrite <- (at_fill_ne v t pj vi (pred pj)) by lia.
      destruct (decide (i = pred pj)) as [-> | Hnp]; [lia |].
      apply I1; lia.
Qed.

Lemma insertion_for_spec (pl pr : nat) count t pi :
  (pl < pi)%nat → (pi + count = S pr)%nat → (pr < length t)%nat →
  sorted_on v t pl (pred pi) →
  rearranged pl pr t (Numpy.insertion_for v count t pl pi) ∧
  sorted_on v (Numpy.insertion_for v count t pl pi) pl pr.
Proof.
  revert t pi. induction count as [|count IH]; intros t pi Hpl Hcount Hlen Hs.
  - simpl. split; [constructor |]. by replace pr with (pred pi) by lia.
  - simpl.
    assert (<[pi := t !!! pi]> t = t) as Hfill.
    { apply list_insert_id, list_lookup_lookup_total_lt. lia. }
    destruct (shift_right_spec pl pi (t !!! pi) pi t pi) as [Hr Hs'].
    + lia.
    + lia.
    + lia.
    + lia.
    + intros i j Hi Hij Hj Hni Hnj. rewrite Hfill. apply Hs; lia.
    + intros k Hk1 Hk2. lia.
    + rewrite Hfill in Hr.
      destruct (Numpy.shift_right v pi t pl (v !!! (t !!! pi)) pi) as [t1 pj].
      simpl in Hr, Hs'.
      pose proof (rearranged_length _ _ _ _ Hr) as Hlen'.
      destruct (IH (<[pj := t !!! pi]> t1) (S pi)) as [Hr2 Hs2].
      * lia.
      * lia.
      * lia.
      * exact Hs'.
      * split; [| done].
        eapply rearranged_trans; [| exact Hr2].
        eapply rearranged_weaken; [exact Hr | lia | lia | lia].
Qed.

(** The insertion sort rearranges the range [pl..pr] and leaves it
    ascending. *)
Lemma insertion_sort_spec (pl pr : nat) t :
  (pl ≤ pr)%nat → (pr < length t)%nat →
  rearranged pl pr t (Numpy.insertion_sort v t pl pr) ∧
  sorted_on v (Numpy.insertion_sort v t pl pr) pl pr.
Proof.
  intros Hpl Hlen. unfold Numpy.insertion_sort.
  apply insertion_for_spec; [lia | lia | done |].
  intros i j Hi Hij Hj. simpl in Hj. by replace j with i by lia.
Qed.
End InsertionSort.

(** ** The quicksort partition *)

Section Partition.
Variable v : list Z.
Implicit Types t : list nat.

(** The upward scan stops at the first cell after [pi] that is not below
    the pivot; a cell [s] that is not below the pivot bounds it. *)
Lemma scan_up_spec fuel t vp pi s :
  (pi < s)%nat → vp ≤ Numpy.at_ v t s → (s - pi ≤ S fuel)%nat →
  (pi < Numpy.scan_up v fuel t vp pi ≤ s)%nat ∧
  vp ≤ Numpy.at_ v t (Numpy.scan_up v fuel t vp pi) ∧
  ∀ k, (pi < k)%nat → (k < Numpy.scan_up v fuel t vp pi)%nat →
    Numpy.at_ v t k < vp.
Proof.
  revert pi. induction fuel as [|fuel IH]; intros pi Hs Hvs Hfuel; simpl.
  - assert (s = S pi) as -> by lia. split_and!; [lia | lia | done |].
    intros k Hk1 Hk2. lia.
  - case_bool_decide as Hlt.
    + assert (s ≠ S pi) by (intros ->; lia).
      destruct (IH (S pi)) as (Hr & Hv & Hk); [lia | done | lia |].
      split_and!; [lia | lia | done |].
      intros k Hk1 Hk2. destruct (decide (k = S pi)) as [-> | Hne]; [done |].
      apply Hk; lia.
    + split_and!; [lia | lia | lia |]. intros k Hk1 Hk2. lia.
Qed.

(** The downward scan stops at the first cell before [pj] that is not above
    the pivot; a cell [s] that is not above the pivot bounds it. *)
Lemma scan_down_spec fuel t vp pj s :
  (s < pj)%nat → Numpy.at_ v t s ≤ vp → (pj - s ≤ S fuel)%nat →
  (s ≤ Numpy.scan_down v fuel t vp pj < pj)%nat ∧
  Numpy.at_ v t (Numpy.scan_down v fuel t vp pj) ≤ vp ∧
  ∀ k, (Numpy.scan_down v fuel t vp pj < k)%nat → (k < pj)%nat →
    vp < Numpy.at_ v t k.
Proof.
  revert pj. induction fuel as [|fuel IH]; intros pj Hs Hvs Hfuel; simpl.
  - assert (s = pred pj) as -> by lia. split_and!; [lia | lia | done |].
    intros k Hk1 Hk2. lia.
  - case_bool_decide as Hlt.
    + assert (s ≠ pred pj) by (intros ->; lia).
      destruct (IH (pred pj)) as (Hr & Hv & Hk); [lia | done | lia |].
      split_and!; [lia | lia | done |].
      intros k Hk1 Hk2. destruct (decide (k = pred pj)) as [-> | Hne]; [done |].
      apply Hk; lia.
    + split_and!; [lia | lia | lia |]. intros k Hk1 Hk2. lia.
Qed.

(** The partition loop: with the cells up to [pi] not above the pivot, the
    cells from [pj] on not below it, and the pivot in the cell before [pr],
    the loop rearranges the range and returns a place [p] with the cells
    before [p] not above the pivot and the cells from [p] on not below. *)
Lemma partition_loop_spec (pl pr : nat) (vp : Z) fuel t pi pj :
  (pl ≤ pi)%nat → (pi < pj)%nat → (pj < pr)%nat → (pr < length t)%nat →
  (pj - pi ≤ fuel)%nat →
  (∀ k, (pl ≤ k)%nat → (k ≤ pi)%nat → Numpy.at_ v t k ≤ vp) →
  (∀ k, (pj ≤ k)%nat → (k ≤ pr)%nat → vp ≤ Numpy.at_ v t k) →
  Numpy.at_ v t (pred pr) = vp →
  let r := Numpy.partition_loop v fuel t vp pi pj in
  rearranged pl pr t r.1 ∧
  (pi < r.2)%nat ∧ (r.2 < pr)%nat ∧
  (∀ k, (pl ≤ k)%nat → (k < r.2)%nat → Numpy.at_ v r.1 k ≤ vp) ∧
  (∀ k, (r.2 ≤ k)%nat → (k ≤ pr)%nat → vp ≤ Numpy.at_ v r.1 k) ∧
  Numpy.at_ v r.1 (pred pr) = vp.
Proof.
  revert t pi pj.
  induction fuel as [|fuel IH]; intros t pi pj Hpl Hij Hpr Hlen Hfuel L G Hp;
    [lia |].
  cbv zeta. simpl.
  destruct (scan_up_spec (length t) t vp pi pj) as (Hu1 & Hu2 & Hu3);
    [lia | apply G; lia | lia |].
  destruct (scan_down_spec (length t) t vp pj pi) as (Hd1 & Hd2 & Hd3);
    [lia | apply L; lia | lia |].
  set (pi' := Numpy.scan_up v (length t) t vp pi) in *.
  set (pj' := Numpy.scan_down v (length t) t vp pj) in *.
  case_bool_decide as Hcross.
  - simpl. split_and!; [constructor | lia | lia | | | done].
    + intros k Hk1 Hk2. destruct (decide (k ≤ pi)%nat); [by apply L |].
      apply Z.lt_le_incl, Hu3; lia.
    + intros k Hk1 Hk2. destruct (decide (k = pi')) as [-> | Hne]; [done |].
      destruct (decide (k < pj)%nat); [| apply G; lia].
      apply Z.lt_le_incl, Hd3; lia.
  - destruct (IH (Numpy.INTP_SWAP t pi' pj') pi' pj')
      as (Hr & Hr1 & Hr2 & HL & HG & Hpiv).
    + lia.
    + lia.
    + lia.
    + by rewrite INTP_SWAP_length.
    + lia.
    + intros k Hk1 Hk2. rewrite at_swap by lia.
      repeat case_decide; try first [lia | done].
      destruct (decide (k ≤ pi)%nat); [by apply L |].
      apply Z.lt_le_incl, Hu3; lia.
    + intros k Hk1 Hk2. rewrite at_swap by lia.
      repeat case_decide; try first [lia | done].
      destruct (decide (k < pj)%nat); [| apply G; lia].
      apply Z.lt_le_incl, Hd3; lia.
    + rewrite at_swap by lia. repeat case_decide; first [lia | done].
    + split_and!; [| lia | lia | done | done | done].
      eapply rearranged_trans; [| exact Hr].
      apply rearranged_swap_1; lia.
Qed.

Lemma swap_if_less_length t pa pb :
  length (Numpy.swap_if_less v t pa pb) = length t.
Proof.
  unfold Numpy.swap_if_less. case_bool_decide; [apply INTP_SWAP_length | done].
Qed.

(** After the conditional swap the cell [pa] holds the larger and the cell
    [pb] the smaller of the two values. *)
Lemma swap_if_less_at t pa pb k :
  (pa < length t)%nat → (pb < length t)%nat → pa ≠ pb →
  Numpy.at_ v (Numpy.swap_if_less v t pa pb) k =
    if decide (k = pa) then Z.max (Numpy.at_ v t pa) (Numpy.at_ v t pb)
    else if decide (k = pb) then Z.min (Numpy.at_ v t pa) (Numpy.at_ v t pb)
    else Numpy.at_ v t k.
Proof.
  intros Ha Hb Hne. unfold Numpy.swap_if_less. case_bool_decide as Hlt.
  - rewrite at_swap by done. repeat case_decide; lia.
  - repeat case_decide; subst; lia.
Qed.

Lemma swap_if_less_rearranged (a b : nat) t pa pb :
  (a ≤ pa ≤ b)%nat → (a ≤ pb ≤ b)%nat → (b < length t)%nat →
  rearranged a b t (Numpy.swap_if_less v t pa pb).
Proof.
  intros. unfold Numpy.swap_if_less.
  case_bool_decide; [by apply rearranged_swap_1 | constructor].
Qed.

(** One round of the quicksort: the range is rearranged around a pivot
    cell [p] strictly inside it, with no larger value before it and no
    smaller value after it. *)
Lemma partition_spec (pl pr : nat) t :
  (16 < pr - pl)%nat → (pr < length t)%nat →
  rearranged pl pr t (Numpy.partition v t pl pr).1 ∧
  (pl < (Numpy.partition v t pl pr).2 < pr)%nat ∧
  (∀ k, (pl ≤ k)%nat → (k < (Numpy.partition v t pl pr).2)%nat →
     Numpy.at_ v (Numpy.partition v t pl pr).1 k
       ≤ Numpy.at_ v (Numpy.partition v t pl pr).1 (Numpy.partition v t pl pr).2) ∧
  (∀ k, ((Numpy.partition v t pl pr).2 < k)%nat → (k ≤ pr)%nat →
     Numpy.at_ v (Numpy.partition v t pl pr).1 (Numpy.partition v t pl pr).2
       ≤ Numpy.at_ v (Numpy.partition v t pl pr).1 k).
Proof.
  intros Hbig Hlen. unfold Numpy.partition.
  set (pm := (pl + (pr - pl) / 2)%nat).
  assert (pl < pm ∧ pm < pred pr)%nat as [Hpm1 Hpm2].
  { subst pm. pose proof (Nat.div_mod_eq (pr - pl) 2).
    pose proof (Nat.mod_upper_bound (pr - pl) 2). lia. }
  set (t1 := Numpy.swap_if_less v t pm pl).
  set (t2 := Numpy.swap_if_less v t1 pr pm).
  set (t3 := Numpy.swap_if_less v t2 pm pl).
  assert (length t1 = length t) as Hl1 by apply swap_if_less_length.
  assert (length t2 = length t) as Hl2
    by (unfold t2; by rewrite swap_if_less_length).
  assert (length t3 = length t) as Hl3
    by (unfold t3; by rewrite swap_if_less_length).
  assert (rearranged pl pr t t3) as Hr3.
  { eapply rearranged_trans; [| apply swap_if_less_rearranged; lia].
    eapply rearranged_trans; [| apply swap_if_less_rearranged; lia].
    apply swap_if_less_rearranged; lia. }
  assert (Numpy.at_ v t3 pl ≤ Numpy.at_ v t3 pm ≤ Numpy.at_ v t3 pr) as Hmed.
  { unfold t3. rewrite !(swap_if_less_at t2) by lia.
    unfold t2. rewrite !(swap_if_less_at t1) by lia.
    unfold t1. rewrite !(swap_if_less_at t) by lia.
    repeat case_decide; lia. }
  set (vp := Numpy.at_ v t3 pm).
  set (t4 := Numpy.INTP_SWAP t3 pm (pred pr)).
  assert (length t4 = length t) as Hl4
    by (unfold t4; by rewrite INTP_SWAP_length).
  destruct (partition_loop_spec pl pr vp (length t4) t4 pl (pred pr))
    as (Hr5 & Hp1 & Hp2 & HL & HG & Hpiv).
  - lia.
  - lia.
  - lia.
  - lia.
  - lia.
  - intros k Hk1 Hk2. assert (k = pl) as -> by lia.
    unfold t4. rewrite at_swap by lia.
    repeat case_decide; first [lia | done | subst vp; lia].
  - intros k Hk1 Hk2. unfold t4. rewrite at_swap by lia.
    repeat case_decide; try lia.
    assert (k = pr) as -> by lia. subst vp. lia.
  - unfold t4. rewrite at_swap by lia. repeat case_decide; first [lia | done].
  - destruct (Numpy.partition_loop v (length t4) t4 vp pl (pred pr))
      as [t5 p].
    cbn [fst snd] in *.
    pose proof (rearranged_length _ _ _ _ Hr5) as Hl5.
    split_and!.
    + eapply rearranged_trans; [exact Hr3 |].
      eapply rearranged_trans;
        [apply (rearranged_swap_1 pl pr t3 pm (pred pr)); lia |].
      eapply rearranged_trans; [exact Hr5 |].
      apply rearranged_swap_1; lia.
    + lia.
    + lia.
    + intros k Hk1 Hk2. rewrite !at_swap by lia.
      assert (Numpy.at_ v t5 k ≤ vp) by (apply HL; lia).
      destruct (decide (p = pred pr)) as [Heq | Hne].
      * rewrite <- Heq in Hpiv. repeat case_decide; lia.
      * repeat case_decide; lia.
    + intros k Hk1 Hk2. rewrite !at_swap by lia.
      assert (vp ≤ Numpy.at_ v t5 k) by (apply HG; lia).
      assert (vp ≤ Numpy.at_ v t5 p) by (apply HG; lia).
      destruct (decide (p = pred pr)) as [Heq | Hne].
      * rewrite <- Heq in Hpiv. repeat case_decide; lia.
      * repeat case_decide; lia.
Qed.
End Partition.

(** ** The heapsort of a range that used up its budget *)

Section HeapSort.
Variable v : list Z.
Variable base : nat.
Implicit Types t : list nat.

Local Abbreviation a := (Numpy.a_ base).
Local Abbreviation key t k := (Numpy.at_ v t (Numpy.a_ base k)).

Lemma a_inj (k1 k2 : nat) : (1 ≤ k1)%nat → (1 ≤ k2)%nat → a k1 = a k2 → k1 = k2.
Proof. unfold Numpy.a_. lia. Qed.

(** Sifting down, seen on the array with the value [tmp] held aside put
    into the hole [i]: if heap order holds for all parents from [lo] on
    except the hole, and the children of the hole are not above its parent,
    the loop ends with heap order for all parents from [lo] on. *)
Lemma sift_down_spec (n lo tmp : nat) fuel t i :
  (1 ≤ lo)%nat → (lo ≤ i)%nat → (i ≤ n)%nat → (base + n ≤ length t)%nat →
  (n ≤ fuel + i)%nat →
  (∀ p c, (lo ≤ p)%nat → c = (p + p)%nat ∨ c = S (p + p) → (c ≤ n)%nat →
     p ≠ i → key (<[a i := tmp]> t) c ≤ key (<[a i := tmp]> t) p) →
  (∀ p c, (lo ≤ p)%nat → i = (p + p)%nat ∨ i = S (p + p) →
     c = (i + i)%nat ∨ c = S (i + i) → (c ≤ n)%nat →
     key (<[a i := tmp]> t) c ≤ key (<[a i := tmp]> t) p) →
  rearranged (a 1) (a n) (<[a i := tmp]> t)
    (Numpy.sift_down v fuel t base n tmp i (i + i)) ∧
  heap_order v (Numpy.sift_down v fuel t base n tmp i (i + i)) base lo n.
Proof.
  intros Hlo. revert t i.
  induction fuel as [|fuel IH]; intros t i Hi Hn Hlen Hfuel P1 P2.
  { simpl. split; [constructor |]. intros p c Hp Hc Hcn.
    apply P1; [done | done | done | lia]. }
  simpl. case_bool_decide as Hjn; cycle 1.
  { split; [constructor |]. intros p c Hp Hc Hcn.
    apply P1; [done | done | done | lia]. }
  set (j := if bool_decide (i + i < n)%nat &&
               bool_decide (Numpy.at_ v t (a (i + i))
                            < Numpy.at_ v t (a (S (i + i))))
            then S (i + i) else (i + i)%nat).
  assert (∀ k, k ≠ i → (1 ≤ k)%nat → key (<[a i := tmp]> t) k = key t k) as Hfill.
  { intros k Hk Hk1. apply at_fill_ne. intros Heq. apply Hk.
    symmetry. apply a_inj; [lia | lia | done]. }
  assert ((j = (i + i)%nat ∨ j = S (i + i)) ∧ (j ≤ n)%nat ∧
          ∀ c, c = (i + i)%nat ∨ c = S (i + i) → (c ≤ n)%nat → key t c ≤ key t j)
    as (Hj & Hjn' & Hmax).
  { subst j. destruct (bool_decide (i + i < n)%nat) eqn:Hb1; simpl.
    - apply bool_decide_eq_true in Hb1. case_bool_decide as Hb2.
      + split_and!; [by right | lia |]. intros c [-> | ->] Hc; lia.
      + split_and!; [by left | lia |]. intros c [-> | ->] Hc; lia.
    - apply bool_decide_eq_false in Hb1.
      split_and!; [by left | lia |].
      intros c [-> | ->] Hc; [lia | lia]. }
  clearbody j.
  assert (key (<[a i := tmp]> t) i = v !!! tmp) as Hhole.
  { apply at_fill_eq. unfold Numpy.a_. lia. }
  case_bool_decide as Hlt; cycle 1.
  { split; [constructor |]. intros p c Hp Hc Hcn.
    destruct (decide (p = i)) as [-> | Hne]; [| by apply P1].
    rewrite Hhole, Hfill by lia.
    assert (key t c ≤ key t j) by by apply Hmax. lia. }
  assert (<[a j := tmp]> (<[a i := t !!! a j]> t)
          = Numpy.INTP_SWAP (<[a i := tmp]> t) (a i) (a j)) as HA1.
  { apply fill_move; unfold Numpy.a_; lia. }
  assert (∀ k, (1 ≤ k)%nat →
            key (Numpy.INTP_SWAP (<[a i := tmp]> t) (a i) (a j)) k =
              if decide (k = j) then v !!! tmp
              else if decide (k = i) then key t j
              else key t k) as Hswap.
  { intros k Hk. rewrite at_swap
      by (rewrite length_insert; unfold Numpy.a_; lia).
    destruct (decide (k = j)) as [-> | Hkj].
    - rewrite decide_True by done. done.
    - rewrite decide_False by (intros Heq; apply Hkj, a_inj; [lia | lia | done]).
      destruct (decide (k = i)) as [-> | Hki].
      + rewrite decide_True by done. apply Hfill; lia.
      + rewrite decide_False
          by (intros Heq; apply Hki, a_inj; [lia | lia | done]).
        by apply Hfill. }
  destruct (IH (<[a i := t !!! a j]> t) j) as [Hr Hh].
  - lia.
  - done.
  - by rewrite length_insert.
  - lia.
  - intros p c Hp Hc Hcn Hpj. rewrite HA1, !Hswap by lia.
    repeat case_decide; try lia;
      first [ apply Hmax; lia
            | rewrite <- (Hfill j), <- (Hfill p) by lia; apply (P2 p j); lia
            | rewrite <- (Hfill c), <- (Hfill p) by lia; apply P1; lia ].
  - intros p c Hp Hjp Hc Hcn. rewrite HA1, !Hswap by lia.
    repeat case_decide; try lia.
    rewrite <- (Hfill c), <- (Hfill j) by lia. apply P1; lia.
  - split; [| done].
    eapply rearranged_trans; [| exact Hr]. rewrite HA1.
    apply rearranged_swap_1; [unfold Numpy.a_; lia | unfold Numpy.a_; lia |].
    rewrite length_insert. unfold Numpy.a_. lia.
Qed.

Lemma heap_build_spec (n : nat) l t :
  (l ≤ n)%nat → (base + n ≤ length t)%nat → heap_order v t base (S l) n →
  rearranged (a 1) (a n) t (Numpy.heap_build v l t base n) ∧
  heap_order v (Numpy.heap_build v l t base n) base 1 n.
Proof.
  revert t. induction l as [|l IH]; intros t Hl Hlen Hh.
  { simpl. split; [constructor | done]. }
  change (Numpy.heap_build v (S l) t base n) with
    (Numpy.heap_build v l
       (Numpy.sift_down v n t base n (t !!! a (S l)) (S l) (S l + S l)) base n).
  assert (<[a (S l) := t !!! a (S l)]> t = t) as Hfill.
  { apply list_insert_id, list_lookup_lookup_total_lt. unfold Numpy.a_. lia. }
  destruct (sift_down_spec n (S l) (t !!! a (S l)) n t (S l)) as [Hr Hh'].
  - lia.
  - lia.
  - lia.
  - lia.
  - lia.
  - intros p c Hp Hc Hcn Hne. rewrite Hfill. apply Hh; [lia | done | done].
  - intros p c Hp Hi Hc Hcn. lia.
  - rewrite Hfill in Hr.
    destruct (IH (Numpy.sift_down v n t base n (t !!! a (S l)) (S l) (S l + S l)))
      as [Hr2 Hh2].
    + lia.
    + by rewrite (rearranged_length _ _ _ _ Hr).
    + exact Hh'.
    + split; [| done]. by eapply rearranged_trans.
Qed.

(** In heap order the root holds the largest value. *)
Lemma heap_root_max (n : nat) t k :
  heap_order v t base 1 n → (1 ≤ k)%nat → (k ≤ n)%nat → key t k ≤ key t 1.
Proof.
  intros Hh. induction k as [k IH] using lt_wf_ind. intros Hk1 Hkn.
  destruct (decide (k = 1%nat)) as [-> | Hne]; [lia |].
  pose proof (Nat.div_mod_eq k 2) as Hdiv.
  pose proof (Nat.mod_upper_bound k 2) as Hmod.
  assert (key t k ≤ key t (k / 2)%nat).
  { apply Hh; [lia | lia | done]. }
  assert (key t (k / 2)%nat ≤ key t 1); [| lia].
  apply IH; lia.
Qed.

(** The extraction loop on the heap of the first [n] cells, the cells after
    it ascending and not below the heap: the [m] cells end up ascending. *)
Lemma heap_extract_spec (m : nat) fuel t n :
  (n ≤ m)%nat → (base + m ≤ length t)%nat → (n ≤ S fuel)%nat →
  heap_order v t base 1 n →
  (∀ q1 q2, (n < q1)%nat → (q1 ≤ q2)%nat → (q2 ≤ m)%nat → key t q1 ≤ key t q2) →
  (∀ k q, (1 ≤ k)%nat → (k ≤ n)%nat → (n < q)%nat → (q ≤ m)%nat →
     key t k ≤ key t q) →
  rearranged (a 1) (a m) t (Numpy.heap_extract v fuel t base n) ∧
  (∀ q1 q2, (1 ≤ q1)%nat → (q1 ≤ q2)%nat → (q2 ≤ m)%nat →
     key (Numpy.heap_extract v fuel t base n) q1
       ≤ key (Numpy.heap_extract v fuel t base n) q2).
Proof.
  revert t n. induction fuel as [|fuel IH]; intros t n Hn Hlen Hfuel Hh Htail Hle.
  { simpl. split; [constructor |]. intros q1 q2 Hq1 Hq12 Hq2.
    destruct (decide (q1 = q2)) as [-> | Hne]; [lia |].
    destruct (decide (n < q1)%nat); [by apply Htail |]. apply Hle; lia. }
  simpl. case_bool_decide as Hn1; cycle 1.
  { split; [constructor |]. intros q1 q2 Hq1 Hq12 Hq2.
    destruct (decide (q1 = q2)) as [-> | Hne]; [lia |].
    destruct (decide (n < q1)%nat); [by apply Htail |]. apply Hle; lia. }
  set (tmp := t !!! a n).
  set (t1 := <[a n := t !!! a 1]> t).
  assert (length t1 = length t) as Hl1 by apply length_insert.
  assert (<[a 1 := tmp]> t1 = Numpy.INTP_SWAP t (a n) (a 1)) as HA1.
  { unfold t1, tmp. rewrite fill_move by (unfold Numpy.a_; lia).
    f_equal. apply list_insert_id, list_lookup_lookup_total_lt.
    unfold Numpy.a_. lia. }
  assert (∀ k, (1 ≤ k)%nat →
            key (<[a 1 := tmp]> t1) k =
              if decide (k = 1%nat) then key t n
              else if decide (k = n) then key t 1 else key t k) as Hswap.
  { intros k Hk. rewrite HA1, at_swap by (unfold Numpy.a_; lia).
    destruct (decide (k = 1%nat)) as [-> | Hk1].
    - by rewrite decide_True.
    - rewrite decide_False by (intros Heq; apply Hk1, a_inj; [lia | lia | done]).
      destruct (decide (k = n)) as [-> | Hkn].
      + by rewrite decide_True.
      + rewrite decide_False
          by (intros Heq; apply Hkn, a_inj; [lia | lia | done]).
        done. }
  destruct (sift_down_spec (pred n) 1 tmp (pred n) t1 1) as [Hr Hh'].
  - lia.
  - lia.
  - lia.
  - lia.
  - lia.
  - intros p c Hp Hc Hcn Hne. rewrite !Hswap by lia.
    repeat case_decide; try lia. by apply Hh; [| | lia].
  - intros p c Hp Hi Hc Hcn. lia.
  - change (1 + 1)%nat with 2%nat in Hr, Hh'.
    set (t2 := Numpy.sift_down v (pred n) t1 base (pred n) tmp 1 2) in *.
    assert (length t2 = length t) as Hl2.
    { rewrite (rearranged_length _ _ _ _ Hr), length_insert. done. }
    assert (∀ q, (n ≤ q)%nat →
              key t2 q = if decide (q = n) then key t 1 else key t q) as Hout.
    { intros q Hq. rewrite (at_frame v _ _ _ _ _ Hr)
        by (unfold Numpy.a_; lia).
      rewrite Hswap by lia. rewrite decide_False by lia. done. }
    assert (∀ k, (1 ≤ k)%nat → (k ≤ pred n)%nat →
              ∃ k', (1 ≤ k')%nat ∧ (k' ≤ n)%nat ∧ key t2 k = key t k') as Hin.
    { intros k Hk1 Hk2.
      destruct (at_member v _ _ _ _ (a k) Hr) as (pos & Hpos & Heq).
      { unfold Numpy.a_. lia. }
      assert (pos = a (S (pos - base))) as Hposk
        by (unfold Numpy.a_ in *; lia).
      rewrite Hposk in Heq. rewrite Hswap in Heq by lia.
      repeat case_decide.
      - exists n. split_and!; [lia | lia | done].
      - exfalso. unfold Numpy.a_ in *. lia.
      - exists (S (pos - base)). split_and!; [lia | | done].
        unfold Numpy.a_ in *. lia. }
    destruct (IH t2 (pred n)) as [Hr2 Hs2].
    + lia.
    + lia.
    + lia.
    + exact Hh'.
    + intros q1 q2 Hq1 Hq12 Hq2. rewrite !Hout by lia.
      repeat case_decide; try lia.
      * apply Hle; lia.
      * apply Htail; lia.
    + intros k q Hk1 Hk2 Hq1 Hq2. rewrite (Hout q) by lia.
      destruct (Hin k Hk1 Hk2) as (k' & Hk'1 & Hk'2 & ->).
      case_decide.
      * by apply (heap_root_max n).
      * apply Hle; lia.
    + split; [| done].
      eapply rearranged_trans; [| exact Hr2].
      eapply rearranged_trans;
        [apply (rearranged_swap_1 (a 1) (a m) t (a n) (a 1));
           unfold Numpy.a_; lia |].
      rewrite <- HA1.
      eapply rearranged_weaken; [exact Hr | lia | unfold Numpy.a_; lia |].
      rewrite length_insert. unfold Numpy.a_. lia.
Qed.
End HeapSort.

(** The heapsort rearranges the range [pl..pr] and leaves it ascending. *)
Lemma aheapsort_spec (v : list Z) (pl pr : nat) (t : list nat) :
  (pl ≤ pr)%nat → (pr < length t)%nat →
  rearranged pl pr t (Numpy.aheapsort v t pl (pr - pl + 1)) ∧
  sorted_on v (Numpy.aheapsort v t pl (pr - pl + 1)) pl pr.
Proof.
  intros Hpl Hlen. unfold Numpy.aheapsort.
  set (m := (pr - pl + 1)%nat).
  pose proof (Nat.div_mod_eq m 2) as Hdiv.
  pose proof (Nat.mod_upper_bound m 2) as Hmod.
  assert (Numpy.a_ pl 1 = pl) as Ha1 by (unfold Numpy.a_; lia).
  assert (Numpy.a_ pl m = pr) as Ham by (unfold Numpy.a_; lia).
  destruct (heap_build_spec v pl m (m / 2)%nat t) as [Hr1 Hh1].
  - lia.
  - lia.
  - intros p c Hp Hc Hcm. lia.
  - set (t1 := Numpy.heap_build v (m / 2)%nat t pl m) in *.
    destruct (heap_extract_spec v pl m m t1 m) as [Hr2 Hs2].
    + lia.
    + rewrite (rearranged_length _ _ _ _ Hr1). lia.
    + lia.
    + exact Hh1.
    + intros q1 q2 Hq1 Hq12 Hq2. lia.
    + intros k q Hk1 Hk2 Hq1 Hq2. lia.
    + rewrite Ha1, Ham in *. split; [by eapply rearranged_trans |].
      intros i j Hi Hij Hj.
      pose proof (Hs2 (S (i - pl)) (S (j - pl))) as Hs.
      replace (Numpy.a_ pl (S (i - pl))) with i in Hs
        by (unfold Numpy.a_; lia).
      replace (Numpy.a_ pl (S (j - pl))) with j in Hs
        by (unfold Numpy.a_; lia).
      apply Hs; lia.
Qed.

(** ** The quicksort loop *)

Section QuickSort.
Variable v : list Z.
Implicit Types (t : list nat) (rs : list (nat * nat)).

(** Rearranging one pending range keeps all other pairs of cells in order. *)
Lemma ordered_except_rearranged (n a b : nat) t t' rs :
  length t = n → ranges_ok n rs → (a, b) ∈ rs → rearranged a b t t' →
  ordered_except v t rs → ordered_except v t' rs.
Proof.
  intros Hlen (Hin & Hapart & _) Hab Hr Hord i j Hij Hj Hnot.
  rewrite (rearranged_length _ _ _ _ Hr) in Hj.
  pose proof (Hin _ Hab) as [_ Hbn]. simpl in Hbn.
  assert (∀ i' j', (i' < j')%nat → (j' < length t)%nat →
            ((a ≤ i' ≤ b)%nat ∧ (j' < a ∨ b < j')%nat ∨
             (i' < a ∨ b < i')%nat ∧ (a ≤ j' ≤ b)%nat) →
            (∀ r, r ∈ rs → ¬ ((r.1 ≤ i')%nat ∧ (j' ≤ r.2)%nat))) as Hsep.
  { intros i' j' Hij' Hj' Hcase r Hr' [Hr1 Hr2].
    destruct (Hapart r (a, b) Hr' Hab) as [-> | Hdis]; simpl in *; lia. }
  destruct (decide (a ≤ i ≤ b)%nat) as [Hi | Hi];
    destruct (decide (a ≤ j ≤ b)%nat) as [Hj' | Hj'].
  - exfalso. apply (Hnot (a, b) Hab). simpl. lia.
  - destruct (at_member v a b t t' i Hr Hi) as (i' & Hi' & ->).
    rewrite (at_frame v a b t t' j Hr) by lia.
    apply Hord; [lia | done |]. apply Hsep; [lia | done | left; lia].
  - destruct (at_member v a b t t' j Hr Hj') as (j' & Hj'' & ->).
    rewrite (at_frame v a b t t' i Hr) by lia.
    apply Hord; [lia | lia |]. apply Hsep; [lia | lia | right; lia].
  - rewrite (at_frame v a b t t' i Hr), (at_frame v a b t t' j Hr) by lia.
    by apply Hord.
Qed.

(** A pending range that is ascending is done. *)
Lemma ordered_except_done (a b : nat) t rs :
  ordered_except v t ((a, b) :: rs) → sorted_on v t a b →
  ordered_except v t rs.
Proof.
  intros Hord Hs i j Hij Hj Hnot.
  destruct (decide ((a ≤ i)%nat ∧ (j ≤ b)%nat)) as [Hin | Hout].
  - apply Hs; lia.
  - apply Hord; [done | done |].
    intros r [-> | Hr]%elem_of_cons; [done | by apply Hnot].
Qed.

(** A partitioned range splits into the two ranges beside the pivot. *)
Lemma ordered_except_split (a b p : nat) t rs rs' :
  (a < p)%nat → (p < b)%nat →
  (∀ k, (a ≤ k)%nat → (k < p)%nat → Numpy.at_ v t k ≤ Numpy.at_ v t p) →
  (∀ k, (p < k)%nat → (k ≤ b)%nat → Numpy.at_ v t p ≤ Numpy.at_ v t k) →
  (a, pred p) ∈ rs' → (S p, b) ∈ rs' → (∀ r, r ∈ rs → r ∈ rs') →
  ordered_except v t ((a, b) :: rs) → ordered_except v t rs'.
Proof.
  intros Hap Hpb HL HG H1 H2 Hsub Hord i j Hij Hj Hnot.
  destruct (decide ((a ≤ i)%nat ∧ (j ≤ b)%nat)) as [Hin | Hout].
  - pose proof (Hnot _ H1) as N1. pose proof (Hnot _ H2) as N2. simpl in *.
    assert (i ≤ p ≤ j)%nat as Hipj by lia.
    assert (Numpy.at_ v t i ≤ Numpy.at_ v t p).
    { destruct (decide (i = p)) as [-> | ?]; [lia | apply HL; lia]. }
    assert (Numpy.at_ v t p ≤ Numpy.at_ v t j); [| lia].
    destruct (decide (j = p)) as [-> | ?]; [lia | apply HG; lia].
  - apply Hord; [done | done |].
    intros r [-> | Hr]%elem_of_cons; [done |]. by apply Hnot, Hsub.
Qed.

Lemma ranges_ok_Permutation (n : nat) rs rs' :
  rs ≡ₚ rs' → ranges_ok n rs → ranges_ok n rs'.
Proof.
  intros HP (Hin & Hapart & Hnd). split; [| split].
  - intros r Hr. apply Hin. by rewrite HP.
  - intros r1 r2 Hr1 Hr2. apply Hapart; by rewrite HP.
  - by rewrite <- HP.
Qed.

Lemma ranges_ok_tail (n : nat) r rs : ranges_ok n (r :: rs) → ranges_ok n rs.
Proof.
  intros (Hin & Hapart & Hnd). split; [| split].
  - intros r' Hr'. apply Hin. by right.
  - intros r1 r2 Hr1 Hr2. apply Hapart; by right.
  - by apply NoDup_cons in Hnd as [_ Hnd].
Qed.

(** The two ranges beside the pivot take the place of the partitioned
    range. *)
Lemma ranges_ok_split (n a b p : nat) rs :
  (a < p)%nat → (p < b)%nat →
  ranges_ok n ((a, b) :: rs) → ranges_ok n ((a, pred p) :: (S p, b) :: rs).
Proof.
  intros Hap Hpb (Hin & Hapart & Hnd).
  apply NoDup_cons in Hnd as [Hnotin Hnd].
  assert (∀ r, r ∈ rs → (r.2 < a ∨ b < r.1)%nat) as Hout.
  { intros r Hr. destruct (Hapart r (a, b)) as [-> | Hd];
      [by right | left | done | simpl in Hd; lia]. }
  assert ((a ≤ b)%nat ∧ (b < n)%nat) as Hab by (apply (Hin (a, b)); left).
  assert (∀ r, r ∈ (a, pred p) :: (S p, b) :: rs →
            r = (a, pred p) ∨ r = (S p, b) ∨
            (r ∈ rs ∧ (r.2 < a ∨ b < r.1)%nat)) as Hcls.
  { intros r [-> | [-> | Hr]%elem_of_cons]%elem_of_cons;
      [by left | by right; left |].
    right; right. split; [done | by apply Hout]. }
  split; [| split].
  - intros r Hr. destruct (Hcls r Hr) as [-> | [-> | [Hr' _]]]; simpl; [lia | lia |].
    apply Hin. by right.
  - intros r1 r2 Hr1 Hr2.
    destruct (Hcls r1 Hr1) as [-> | [-> | [Hr1' Hd1]]];
      destruct (Hcls r2 Hr2) as [-> | [-> | [Hr2' Hd2]]];
      simpl in *; try (by left); try (right; lia).
    apply Hapart; by right.
  - apply NoDup_cons. split.
    + intros [Heq | Hr]%elem_of_cons; [inversion Heq; lia |].
      pose proof (Hout _ Hr) as Hd. simpl in Hd. lia.
    + apply NoDup_cons. split; [| done].
      intros Hr. pose proof (Hout _ Hr) as Hd. simpl in Hd. lia.
Qed.

(** Once the current range is ascending, the cells are in order but for
    the ranges on the stack. *)
Lemma range_done (n a b : nat) t t' rs :
  length t = n → ranges_ok n ((a, b) :: rs) →
  ordered_except v t ((a, b) :: rs) →
  rearranged a b t t' → sorted_on v t' a b →
  length t' = n ∧ ranges_ok n rs ∧ ordered_except v t' rs ∧ t' ≡ₚ t.
Proof.
  intros Hlen Hok Hord Hr Hs. split; [| split; [| split]].
  - by rewrite (rearranged_length a b t t').
  - by eapply ranges_ok_tail.
  - apply (ordered_except_done a b); [| done].
    apply (ordered_except_rearranged n a b t t'); [done | done | left | done | done].
  - by eapply rearranged_Permutation.
Qed.

(** The partitioning loop keeps the cells in order but for the pending
    ranges, and leaves as much work as it found. *)
Lemma partition_while_spec (n : nat) fuel t pl pr cdepth stack :
  length t = n →
  ranges_ok n ((pl, pr) :: ranges_of stack) →
  ordered_except v t ((pl, pr) :: ranges_of stack) →
  ∃ t' pl' pr' stack',
    Numpy.partition_while v fuel t pl pr cdepth stack = (t', pl', pr', stack') ∧
    t' ≡ₚ t ∧ length t' = n ∧
    ranges_ok n ((pl', pr') :: ranges_of stack') ∧
    ordered_except v t' ((pl', pr') :: ranges_of stack') ∧
    weight ((pl', pr') :: ranges_of stack') = weight ((pl, pr) :: ranges_of stack).
Proof.
  revert t pl pr cdepth stack.
  induction fuel as [|fuel IH]; intros t pl pr cdepth stack Hlen Hok Hord.
  { by exists t, pl, pr, stack. }
  simpl (Numpy.partition_while _ _ _ _ _ _ _).
  case_bool_decide as Hbig; [| by exists t, pl, pr, stack].
  unfold Numpy.SMALL_QUICKSORT in Hbig.
  assert (pr < length t)%nat as Hpr.
  { rewrite Hlen. apply (proj1 Hok (pl, pr)). left. }
  destruct (partition_spec v pl pr t Hbig Hpr) as (Hr & Hp & HL & HG).
  destruct (Numpy.partition v t pl pr) as [t1 p]. simpl in Hr, Hp, HL, HG.
  assert (length t1 = n) as Hlen1.
  { rewrite (rearranged_length pl pr t t1); [done | done]. }
  assert (ordered_except v t1 ((pl, pr) :: ranges_of stack)) as Hord1.
  { apply (ordered_except_rearranged n pl pr t t1); [done | done | left | done | done]. }
  assert (ranges_ok n ((pl, pred p) :: (S p, pr) :: ranges_of stack)) as Hok1.
  { apply ranges_ok_split; [lia | lia | done]. }
  assert (t1 ≡ₚ t) as HP1 by by eapply rearranged_Permutation.
  assert (weight ((pl, pred p) :: (S p, pr) :: ranges_of stack)
          = weight ((pl, pr) :: ranges_of stack)) as Hw1.
  { unfold weight. simpl. lia. }
  case_bool_decide as Hside.
  - destruct (IH t1 pl (pred p) (cdepth - 1) ((S p, pr, cdepth - 1) :: stack))
      as (t' & pl' & pr' & stack' & Heq & HP & Hlen' & Hok' & Hord' & Hw');
      [done | done | |].
    { apply (ordered_except_split pl pr p t1 (ranges_of stack));
        [lia | lia | done | done | left | right; left | | done].
      intros r Hr'. by do 2 right. }
    exists t', pl', pr', stack'.
    split; [done |]. split; [by rewrite HP |]. split; [done |].
    split; [done |]. split; [done |]. by rewrite Hw'.
  - destruct (IH t1 (S p) pr (cdepth - 1) ((pl, pred p, cdepth - 1) :: stack))
      as (t' & pl' & pr' & stack' & Heq & HP & Hlen' & Hok' & Hord' & Hw');
      [done | | |].
    { eapply ranges_ok_Permutation; [| exact Hok1]. apply Permutation_swap. }
    { apply (ordered_except_split pl pr p t1 (ranges_of stack));
        [lia | lia | done | done | right; left | left | | done].
      intros r Hr'. by do 2 right. }
    exists t', pl', pr', stack'.
    split; [done |]. split; [by rewrite HP |]. split; [done |].
    split; [done |]. split; [done |].
    rewrite Hw', <- Hw1. unfold weight. simpl. lia.
Qed.

(** The sort leaves all cells in order when the fuel covers the pending
    work. *)
Lemma aquicksort_loop_spec (n : nat) fuel t pl pr cdepth stack :
  length t = n →
  ranges_ok n ((pl, pr) :: ranges_of stack) →
  ordered_except v t ((pl, pr) :: ranges_of stack) →
  (weight ((pl, pr) :: ranges_of stack) ≤ 2 * fuel)%nat →
  Numpy.aquicksort_loop v fuel t pl pr cdepth stack ≡ₚ t ∧
  ordered_except v (Numpy.aquicksort_loop v fuel t pl pr cdepth stack) [].
Proof.
  revert t pl pr cdepth stack.
  induction fuel as [|fuel IH]; intros t pl pr cdepth stack Hlen Hok Hord Hw.
  { unfold weight in Hw. simpl in Hw. lia. }
  assert (∀ t1 a b st t2,
            length t1 = n → ranges_ok n ((a, b) :: ranges_of st) →
            ordered_except v t1 ((a, b) :: ranges_of st) → t1 ≡ₚ t →
            (weight ((a, b) :: ranges_of st) ≤ 2 * S fuel)%nat →
            rearranged a b t1 t2 → sorted_on v t2 a b →
            match st with
            | [] => t2
            | (pl, pr, cdepth) :: st' =>
                Numpy.aquicksort_loop v fuel t2 pl pr cdepth st'
            end ≡ₚ t ∧
            ordered_except v
              match st with
              | [] => t2
              | (pl, pr, cdepth) :: st' =>
                  Numpy.aquicksort_loop v fuel t2 pl pr cdepth st'
              end []) as Htail.
  { intros t1 a b st t2 Hlen1 Hok1 Hord1 HP1 Hw1 Hr Hs.
    destruct (range_done n a b t1 t2 (ranges_of st))
      as (Hlen2 & Hok2 & Hord2 & HP2); [done | done | done | done | done |].
    destruct st as [|[[pl2 pr2] cd2] st']; [split; [by rewrite HP2 | done] |].
    destruct (IH t2 pl2 pr2 cd2 st') as [HP3 Hord3]; [done | done | done | |].
    { unfold weight in Hw1 |- *. simpl in Hw1 |- *. lia. }
    split; [by rewrite HP3, HP2 | done]. }
  assert (pl ≤ pr)%nat as Hle by (apply (proj1 Hok (pl, pr)); left).
  assert (pr < length t)%nat as Hpr.
  { rewrite Hlen. apply (proj1 Hok (pl, pr)). left. }
  simpl (Numpy.aquicksort_loop _ _ _ _ _ _ _).
  case_bool_decide as Hdepth.
  - destruct (aheapsort_spec v pl pr t Hle Hpr) as [Hr Hs].
    by apply (Htail t pl pr stack).
  - destruct (partition_while_spec n (length t) t pl pr cdepth stack)
      as (t1 & pl1 & pr1 & stack1 & Heq & HP1 & Hlen1 & Hok1 & Hord1 & Hw1);
      [done | done | done |].
    rewrite Heq.
    assert (pl1 ≤ pr1)%nat as Hle1 by (apply (proj1 Hok1 (pl1, pr1)); left).
    assert (pr1 < length t1)%nat as Hpr1.
    { rewrite Hlen1. apply (proj1 Hok1 (pl1, pr1)). left. }
    destruct (insertion_sort_spec v pl1 pr1 t1 Hle1 Hpr1) as [Hr Hs].
    apply (Htail t1 pl1 pr1 stack1); [done | done | done | done | | done | done].
    by rewrite Hw1.
Qed.

(** Cells in order from first to last give ascending values. *)
Lemma ordered_Sorted t :
  Forall (λ i, (i < length v)%nat) t → ordered_except v t [] →
  Sorted Z.le (take_idx v t).
Proof.
  intros Hall Hord.
  assert (∀ i j, (i < j)%nat → (j < length t)%nat →
            Numpy.at_ v t i ≤ Numpy.at_ v t j) as H.
  { intros i j Hij Hj. apply Hord; [done | done |]. by intros r ?%elem_of_nil. }
  clear Hord. induction Hall as [|i t Hi Hall IH]; [constructor |].
  rewrite take_idx_cons.
  destruct (lookup_lt_is_Some_2 v i Hi) as [x Hx]. rewrite Hx.
  constructor.
  - apply IH. intros i' j' Hij Hj. apply (H (S i') (S j')); simpl; lia.
  - destruct Hall as [|j t' Hj Hall]; [constructor |].
    rewrite take_idx_cons.
    destruct (lookup_lt_is_Some_2 v j Hj) as [y Hy]. rewrite Hy.
    constructor. specialize (H 0%nat 1%nat). unfold Numpy.at_ in H. simpl in H.
    rewrite (list_lookup_total_correct _ _ _ Hx) in H.
    rewrite (list_lookup_total_correct _ _ _ Hy) in H.
    apply H; lia.
Qed.
End QuickSort.

(** [np.argsort] of the default kind, as embedded, meets its contract on
    every array. *)
Lemma aquicksort_ok (v : list Z) : argsort_ok Numpy.aquicksort v.
Proof.
  unfold argsort_ok.
  destruct v as [|x v'] eqn:Hv.
  { assert (Numpy.aquicksort [] = []) as -> by (vm_compute; reflexivity).
    split; [done | constructor]. }
  rewrite <- Hv. set (n := length v).
  assert (0 < n)%nat as Hn by (subst n; rewrite Hv; simpl; lia).
  destruct (aquicksort_loop_spec v n (S n) (seq 0 n) 0 (n - 1)
              (Numpy.depth_limit n) []) as [HP Hord].
  - apply length_seq.
  - split; [| split].
    + intros r ->%list_elem_of_singleton. simpl. lia.
    + intros r1 r2 ->%list_elem_of_singleton ->%list_elem_of_singleton. by left.
    + apply NoDup_singleton.
  - intros i j Hij Hj Hnot. rewrite length_seq in Hj.
    exfalso. apply (Hnot (0%nat, (n - 1)%nat)); [left | simpl; lia].
  - unfold weight. simpl. lia.
  - change (Numpy.aquicksort v ≡ₚ seq 0 n) in HP.
    change (ordered_except v (Numpy.aquicksort v) []) in Hord.
    split; [done |].
    apply ordered_Sorted; [| done].
    apply Forall_forall. intros i Hi. rewrite HP in Hi.
    apply elem_of_seq in Hi. lia.
Qed.

(** ** Top groups *)



(** ** Rows without a value *)

Section NullsLast.
Context {R : Type} (argsort : list Z → list nat) (col : R → option Z).
Implicit Types df : list R.

Lemma elem_of_nonnull df r : r ∈ nonnull col df ↔ col r ≠ None ∧ r ∈ df.
Proof.
  unfold nonnull. rewrite list_elem_of_filter.
  destruct (col r); simpl; split; intros [H1 H2]; by split.
Qed.

Lemma elem_of_nulls df r : r ∈ nulls col df ↔ col r = None ∧ r ∈ df.
Proof.
  unfold nulls. rewrite list_elem_of_filter.
  destruct (col r); simpl; split; intros [H1 H2]; by split.
Qed.

Lemma nulls_app df1 df2 : nulls col (df1 ++ df2) = nulls col df1 ++ nulls col df2.
Proof. apply filter_app. Qed.

Lemma nulls_none df : (∀ r, r ∈ df → col r ≠ None) → nulls col df = [].
Proof.
  intros H. induction df as [|r df IH]; [done |].
  unfold nulls. rewrite filter_cons.
  destruct (col r) eqn:Hr; simpl.
  - apply IH. intros r' Hr'. apply H. by right.
  - exfalso. by apply (H r); [left |].
Qed.

Lemma nulls_nulls df : nulls col (nulls col df) = nulls col df.
Proof.
  induction df as [|r df IH]; [done |].
  unfold nulls in *. rewrite filter_cons.
  destruct (isna (col r)) eqn:Hr; simpl; [| exact IH].
  rewrite filter_cons, Hr. simpl. by f_equal.
Qed.

Lemma sort_values_desc_parts df :
  sort_values argsort col false df = ranked_part argsort col df ++ nulls col df.
Proof. apply sort_values_desc_eq. Qed.

Lemma ranked_part_has_value df r : r ∈ ranked_part argsort col df → col r ≠ None.
Proof.
  unfold ranked_part. rewrite elem_of_reverse. intros H%take_idx_elem_of.
  apply elem_of_reverse, elem_of_nonnull in H. tauto.
Qed.

Lemma argsort_ok_positions (v : list Z) :
  argsort_ok argsort v → positions_ok (length v) (argsort v).
Proof.
  intros [Hperm _]. split; [by rewrite Hperm, length_seq |].
  apply Forall_forall. intros i Hi. rewrite Hperm in Hi.
  apply elem_of_seq in Hi. lia.
Qed.

Lemma ranked_part_length df :
  positions_ok (length (ranked_array col df)) (argsort (ranked_array col df)) →
  length (ranked_part argsort col df) = length (nonnull col df).
Proof.
  intros [Hlen Hall]. unfold ranked_part.
  rewrite length_reverse, take_idx_length.
  - by rewrite Hlen, nonnull_length.
  - by rewrite length_reverse, nonnull_length.
Qed.

(** In a descending [sort_values] every row without a value comes after
    every row with one, and the rows without a value keep their order. *)
Lemma sort_values_desc_nulls_last df i j r s :
  sort_values argsort col false df !! i = Some r →
  sort_values argsort col false df !! j = Some s →
  col r = None → col s ≠ None → (j < i)%nat.
Proof.
  rewrite sort_values_desc_parts. intros Hi Hj Hr Hs.
  apply lookup_app_Some in Hi as [Hi | [Hi _]].
  { exfalso. apply list_elem_of_lookup_2, ranked_part_has_value in Hi. done. }
  apply lookup_app_Some in Hj as [Hj | [_ Hj]].
  - apply lookup_lt_Some in Hj. lia.
  - exfalso. apply list_elem_of_lookup_2, elem_of_nulls in Hj. tauto.
Qed.

Lemma sort_values_desc_nulls df :
  nulls col (sort_values argsort col false df) = nulls col df.
Proof.
  rewrite sort_values_desc_parts, nulls_app, nulls_nulls, nulls_none; [done |].
  apply ranked_part_has_value.
Qed.
End NullsLast.

Lemma nonnull_project (filtered : list merged) :
  nonnull TopArticle.Article_Reads (project <$> filtered) =
    project <$> nonnull Merged.Article_Reads filtered.
Proof.
  unfold nonnull. induction filtered as [|m filtered IH]; [done |].
  rewrite fmap_cons, !filter_cons.
  change (TopArticle.Article_Reads (project m)) with (Merged.Article_Reads m).
  destruct (decide (negb (isna (Merged.Article_Reads m)) = true));
    [| exact IH].
  rewrite fmap_cons. by f_equal.
Qed.

(** ** Top articles *)

(** Whatever [argsort] is, if it keeps its promise for this call, the
    top-5 selection is the first five rows of a ranking of the projected
    rows by descending Article Reads with the rows without a read count
    last, these in input order. *)
Lemma top_articles_contract (argsort : list Z → list nat) (filtered : list merged) :
  argsort_ok argsort
    (ranked_array TopArticle.Article_Reads (project <$> filtered)) →
  ∃ ranked,
    top_articles argsort filtered = take 5 ranked ∧
    ranked ≡ₚ project <$> filtered ∧
    StronglySorted
      (λ r s, desc_nulls_last (TopArticle.Article_Reads r)
                (TopArticle.Article_Reads s)) ranked ∧
    nulls TopArticle.Article_Reads ranked
      = nulls TopArticle.Article_Reads (project <$> filtered).
Proof.
  intros Hok.
  exists (sort_values argsort TopArticle.Article_Reads false (project <$> filtered)).
  split_and!.
  - reflexivity.
  - by apply sort_values_desc_Permutation.
  - by apply sort_values_desc_sorted.
  - apply sort_values_desc_nulls.
Qed.

(** C5, as the code has it: for every joined table the top-5 selection,
    ranked by the default sort, is the first five rows of a ranking of the
    projected rows by descending Article Reads with the rows without a
    read count last, these in input order; the order among rows with equal
    reads is the one the default sort leaves.  The rows with the reads
    50, 50, 10 come out in input order. *)
Theorem top_articles_ranked (filtered : list merged) :
  (∃ ranked,
     top_articles Numpy.aquicksort filtered = take 5 ranked ∧
     ranked ≡ₚ project <$> filtered ∧
     StronglySorted
       (λ r s, desc_nulls_last (TopArticle.Article_Reads r)
                 (TopArticle.Article_Reads s)) ranked ∧
     nulls TopArticle.Article_Reads ranked
       = nulls TopArticle.Article_Reads (project <$> filtered)) ∧
  top_articles Numpy.aquicksort rows_50_50_10 = project <$> rows_50_50_10.
Proof.
  split; [| vm_compute; reflexivity].
  apply top_articles_contract, aquicksort_ok.
Qed.

(** C5 as stated fails: on eighteen rows, one with 10 reads followed by
    seventeen with 50 reads each, the default sort ranks the values as
    promised, yet the top five are the rows j, b, q, p, o, not the first
    five rows with 50 reads in input order. *)
Lemma top_articles_ties_reordered :
  argsort_ok Numpy.aquicksort
    (ranked_array TopArticle.Article_Reads (project <$> rows_18)) ∧
  top_articles Numpy.aquicksort rows_18 =
    project <$> [row "j" (Some 50); row "b" (Some 50); row "q" (Some 50);
                 row "p" (Some 50); row "o" (Some 50)] ∧
  df_head 5 (rank_keeping_ties TopArticle.Article_Reads (project <$> rows_18)) =
    project <$> [row "b" (Some 50); row "c" (Some 50); row "d" (Some 50);
                 row "e" (Some 50); row "f" (Some 50)] ∧
  top_articles Numpy.aquicksort rows_18 ≠
    df_head 5 (rank_keeping_ties TopArticle.Article_Reads (project <$> rows_18)).
Proof.
  split_and!.
  - apply argsort_ok_decide. vm_compute. reflexivity.
  - vm_compute. reflexivity.
  - vm_compute. reflexivity.
  - vm_compute. intros H. discriminate H.
Qed.

Lemma top_articles_null_needs_room (argsort : list Z → list nat)
    (filtered : list merged) (r : TopArticle.t) :
  positions_ok
    (length (ranked_array TopArticle.Article_Reads (project <$> filtered)))
    (argsort (ranked_array TopArticle.Article_Reads (project <$> filtered))) →
  r ∈ top_articles argsort filtered → TopArticle.Article_Reads r = None →
  (length (nonnull Merged.Article_Reads filtered) < 5)%nat.
Proof.
  intros Hpos Hin Hr. unfold top_articles, df_head in Hin.
  apply elem_of_take in Hin as (i & Hi & Hlt).
  rewrite sort_values_desc_parts in Hi.
  apply lookup_app_Some in Hi as [Hi | [Hi _]].
  { exfalso. apply list_elem_of_lookup_2, ranked_part_has_value in Hi. done. }
  rewrite ranked_part_length in Hi by done.
  rewrite nonnull_project, length_fmap in Hi. lia.
Qed.

(** C10: in the descending ranking behind the top-5 selection every row
    without a read count comes after every row with one, whatever order
    [argsort] gives to the values; so with the default sort, and with
    any [argsort] that keeps its promise for the call, a row without a read
    count is among the top five only when fewer than five rows have a read
    count. *)
Theorem null_reads_ranked_last (filtered : list merged) :
  (∀ argsort i j r s,
     sort_values argsort TopArticle.Article_Reads false (project <$> filtered)
       !! i = Some r →
     sort_values argsort TopArticle.Article_Reads false (project <$> filtered)
       !! j = Some s →
     TopArticle.Article_Reads r = None → TopArticle.Article_Reads s ≠ None →
     (j < i)%nat) ∧
  (∀ r, r ∈ top_articles Numpy.aquicksort filtered →
     TopArticle.Article_Reads r = None →
     (length (nonnull Merged.Article_Reads filtered) < 5)%nat) ∧
  (∀ argsort r,
     argsort_ok argsort
       (ranked_array TopArticle.Article_Reads (project <$> filtered)) →
     r ∈ top_articles argsort filtered →
     TopArticle.Article_Reads r = None →
     (length (nonnull Merged.Article_Reads filtered) < 5)%nat).
Proof.
  split_and!.
  - intros argsort i j r s. apply sort_values_desc_nulls_last.
  - intros r. apply top_articles_null_needs_room, aquicksort_positions.
  - intros argsort r Hok.
    by apply top_articles_null_needs_room, argsort_ok_positions.
Qed.

(** Two rows, the first without a read count: it is ranked second. *)
Example top_articles_null_first :
  top_articles Numpy.aquicksort rows_null_first =
    [project (row "b" (Some 4)); project (row "a" None)].
Proof. vm_compute. reflexivity. Qed.

(** * Further properties of the script *)

(** ** The join without the assumption of distinct Author Ids *)

Lemma article_of_merge_rows (a : article) (us : list author) :
  article_of <$> (merge_row a ∘ Some <$> us) = replicate (length us) a.
Proof.
  induction us as [|u us IH]; [done |].
  rewrite !fmap_cons, IH. simpl. by rewrite article_of_merge_row.
Qed.

Lemma merge_left_articles (article_df : list article) (author_df : list author) :
  article_of <$> merge_left article_df author_df =
    article_df ≫= λ a, replicate (Nat.max 1 (matches author_df a)) a.
Proof.
  induction article_df as [|a article_df IH]; [done |].
  rewrite merge_left_cons, fmap_app, IH, bind_cons. f_equal. unfold matches.
  destruct (filter _ author_df) as [|u us].
  - simpl. by rewrite article_of_merge_row.
  - rewrite article_of_merge_rows. f_equal.
Qed.

(** X1: the left join keeps every article, in order: its article columns
    are the article table with each row repeated once for every author row
    that has the same Author Id, and once when there is none.  So no
    article is lost, and the join has as many rows as these repetitions
    add up to. *)
Theorem left_join_keeps_articles (article_df : list article)
    (author_df : list author) :
  article_of <$> merge_left article_df author_df =
    article_df ≫= (λ a, replicate (Nat.max 1 (matches author_df a)) a) ∧
  length (merge_left article_df author_df) =
    sum_list ((λ a, Nat.max 1 (matches author_df a)) <$> article_df) ∧
  (length article_df ≤ length (merge_left article_df author_df))%nat ∧
  (∀ a, a ∈ article_df ↔
        ∃ m, m ∈ merge_left article_df author_df ∧ article_of m = a).
Proof.
  pose proof (merge_left_articles article_df author_df) as Heq.
  assert (length (merge_left article_df author_df) =
          sum_list ((λ a, Nat.max 1 (matches author_df a)) <$> article_df)) as Hlen.
  { rewrite <- (length_fmap article_of), Heq. clear Heq.
    induction article_df as [|a l IH]; [done |].
    rewrite bind_cons, length_app, length_replicate, IH. done. }
  split_and!; [done | done | |].
  - rewrite Hlen. clear. induction article_df as [|a l IH]; [done |].
    rewrite fmap_cons. simpl sum_list. simpl length. lia.
  - intros a. split.
    + intros Ha.
      assert (a ∈ article_of <$> merge_left article_df author_df) as H.
      { rewrite Heq. apply list_elem_of_bind. exists a. split; [| done].
        apply elem_of_replicate. split; [done | lia]. }
      apply list_elem_of_fmap in H as (m & -> & Hm). eauto.
    + intros (m & Hm & <-).
      assert (article_of m ∈ article_of <$> merge_left article_df author_df) as H
        by (apply list_elem_of_fmap; eauto).
      rewrite Heq in H.
      apply list_elem_of_bind in H as (a' & [-> _]%elem_of_replicate & Ha').
      done.
Qed.

(** X2: the author columns of a joined row are those of an author row with
    the same Author Id when there is one, null cells of that row
    included, and they are null when no author row has that Author Id; a
    null Author Id is matched by the author rows whose Author Id is
    null. *)
Theorem left_join_author_columns (article_df : list article)
    (author_df : list author) (m : merged) :
  m ∈ merge_left article_df author_df →
  (∃ u, u ∈ author_df ∧ Author.Author_Id u = Merged.Author_Id m ∧
        Merged.Author_Name_author m = Author.Author_Name u ∧
        Merged.Reads_author m = Author.Reads u) ∨
  ((∀ u, u ∈ author_df → Author.Author_Id u ≠ Merged.Author_Id m) ∧
   Merged.Author_Name_author m = None ∧ Merged.Reads_author m = None).
Proof.
  unfold merge_left. intros (a & Hm & Ha)%list_elem_of_bind.
  destruct (filter _ author_df) as [|u us] eqn:Hf.
  - apply list_elem_of_singleton in Hm as ->. right. split; [| done].
    intros u Hu Heq.
    assert (u ∈ filter (λ u, Author.Author_Id u = Article.Author_Id a) author_df)
      as Hin by (apply list_elem_of_filter; done).
    rewrite Hf in Hin. by apply elem_of_nil in Hin.
  - apply list_elem_of_fmap in Hm as (u' & -> & Hu'). rewrite <- Hf in Hu'.
    apply list_elem_of_filter in Hu' as [Hid Hu']. left. by exists u'.
Qed.

Lemma left_join_author_columns_witness :
  (∃ u, u ∈ [author_1; author_2] ∧
        Author.Author_Id u = Merged.Author_Id (merge_row article_1 (Some author_1)) ∧
        Merged.Author_Name_author (merge_row article_1 (Some author_1))
          = Author.Author_Name u ∧
        Merged.Reads_author (merge_row article_1 (Some author_1)) = Author.Reads u) ∨
  ((∀ u, u ∈ [author_1; author_2] →
      Author.Author_Id u ≠ Merged.Author_Id (merge_row article_1 (Some author_1))) ∧
   Merged.Author_Name_author (merge_row article_1 (Some author_1)) = None ∧
   Merged.Reads_author (merge_row article_1 (Some author_1)) = None).
Proof.
  apply (left_join_author_columns [article_1; article_2] [author_1; author_2]).
  vm_compute. left.
Defined.

(** ** The reader filters together *)

Lemma filter_all {A} (P : A → Prop) `{!∀ x, Decision (P x)} (l : list A) :
  (∀ x, P x) → filter P l = l.
Proof.
  intros HP. induction l as [|x l IH]; [done |].
  by rewrite filter_cons_True, IH.
Qed.

Lemma filter_choice_filter {R} (col : R → option string) (choice : string)
    (df : list R) :
  filter_choice col choice df =
    filter (λ r, choice = "All" ∨ col r = Some choice) df.
Proof.
  unfold filter_choice. case_decide as Hc.
  - apply list_filter_iff. intros r. split; [by right | by intros [? | ?]].
  - symmetry. apply filter_all. intros r. by left.
Qed.

Lemma filtered_reader_df_mask (reader_df : list reader)
    (country_filter industry_filter : string) (cutoff : option Z) :
  filtered_reader_df reader_df country_filter industry_filter cutoff =
    filter (reader_mask country_filter industry_filter cutoff) reader_df.
Proof.
  unfold filtered_reader_df. rewrite !filter_choice_filter.
  destruct cutoff as [c|]; simpl; rewrite !list_filter_filter;
    apply list_filter_iff; intros r; unfold reader_mask; tauto.
Qed.

(** X3: the country, industry and time filters act as one mask: a reader
    row is kept, in its place, exactly when it passes every filter that is
    switched on; the choice "All" switches a filter off, and a row with a
    null cell in a filtered column is dropped.  The order in which the
    country and the industry filter are applied makes no difference, and
    filtering the result again with the same choices changes nothing. *)
Theorem reader_filters_one_mask (reader_df : list reader)
    (country_filter industry_filter : string) (cutoff : option Z) :
  filtered_reader_df reader_df country_filter industry_filter cutoff =
    filter (reader_mask country_filter industry_filter cutoff) reader_df ∧
  filtered_reader_df reader_df country_filter industry_filter cutoff
    `sublist_of` reader_df ∧
  filter_choice Reader.Country country_filter
    (filter_choice Reader.Industry industry_filter reader_df) =
  filter_choice Reader.Industry industry_filter
    (filter_choice Reader.Country country_filter reader_df) ∧
  filtered_reader_df
    (filtered_reader_df reader_df country_filter industry_filter cutoff)
    country_filter industry_filter cutoff =
  filtered_reader_df reader_df country_filter industry_filter cutoff ∧
  (∀ r, r ∈ reader_df → Reader.Country r = None → country_filter ≠ "All" →
        r ∉ filtered_reader_df reader_df country_filter industry_filter cutoff).
Proof.
  split_and!.
  - apply filtered_reader_df_mask.
  - rewrite filtered_reader_df_mask. apply sublist_filter.
  - rewrite !filter_choice_filter, !list_filter_filter.
    apply list_filter_iff. intros r. tauto.
  - rewrite !filtered_reader_df_mask, list_filter_filter.
    apply list_filter_iff. intros r. tauto.
  - intros r Hr Hnull Hc. rewrite filtered_reader_df_mask, list_elem_of_filter.
    intros [[[? | Hcountry] _] _]; [done |]. rewrite Hnull in Hcountry. done.
Qed.

(** ** The time windows *)

Lemma filter_date_narrow {R} (col : R → option Z) (c1 c2 : Z) (df : list R) :
  c2 ≤ c1 →
  filter_date col (Some c1) (filter_date col (Some c2) df)
    = filter_date col (Some c1) df.
Proof.
  intros Hle. simpl. rewrite list_filter_filter. apply list_filter_iff.
  intros r. unfold date_ge. destruct (col r); [lia | tauto].
Qed.

Lemma filter_date_sublist {R} (col : R → option Z) (c1 c2 : Z) (df : list R) :
  c2 ≤ c1 →
  filter_date col (Some c1) df `sublist_of` filter_date col (Some c2) df.
Proof.
  intros Hle. rewrite <- (filter_date_narrow col c1 c2 df Hle).
  apply sublist_filter.
Qed.

(** X4: the time windows nest.  For one reading of the clock the rows kept
    for the last 7 days are among those kept for the last 30 days, these
    among those kept for the last 90 days, and these among all rows, always
    in input order; narrowing the 30-day result to 7 days gives the 7-day
    result.  No window has an upper end: a row dated at or after the clock
    reading passes every window. *)
Theorem time_windows_nest {R} (col : R → option Z) (now : Z) (df : list R) :
  filter_date col (date_cutoff now Last_7_Days) df
    `sublist_of` filter_date col (date_cutoff now Last_30_Days) df ∧
  filter_date col (date_cutoff now Last_30_Days) df
    `sublist_of` filter_date col (date_cutoff now Last_90_Days) df ∧
  filter_date col (date_cutoff now Last_90_Days) df
    `sublist_of` filter_date col (date_cutoff now All_Time) df ∧
  filter_date col (date_cutoff now All_Time) df = df ∧
  filter_date col (date_cutoff now Last_7_Days)
    (filter_date col (date_cutoff now Last_30_Days) df)
    = filter_date col (date_cutoff now Last_7_Days) df ∧
  (∀ choice r d, r ∈ df → col r = Some d → now ≤ d →
     r ∈ filter_date col (date_cutoff now choice) df).
Proof.
  unfold date_cutoff, timedelta_days. split_and!.
  - apply filter_date_sublist. lia.
  - apply filter_date_sublist. lia.
  - apply sublist_filter.
  - reflexivity.
  - apply filter_date_narrow. lia.
  - intros choice r d Hr Hd Hnow.
    destruct choice; simpl; [done | | |];
      apply list_elem_of_filter; (split; [| done]);
      unfold date_ge; rewrite Hd; lia.
Qed.

(** ** The order of text *)

Lemma compare_not_Gt_trans (s1 s2 s3 : string) :
  String.compare s1 s2 ≠ Gt → String.compare s2 s3 ≠ Gt →
  String.compare s1 s3 ≠ Gt.
Proof.
  revert s2 s3. induction s1 as [|c1 s1 IH]; intros [|c2 s2] [|c3 s3];
    simpl; try done.
  unfold Ascii.compare.
  destruct (N.compare_spec (N_of_ascii c1) (N_of_ascii c2));
    destruct (N.compare_spec (N_of_ascii c2) (N_of_ascii c3));
    destruct (N.compare_spec (N_of_ascii c1) (N_of_ascii c3));
    try done; try lia.
  apply IH.
Qed.

Lemma key_le_compare (a b : string) : key_le a b ↔ String.compare a b ≠ Gt.
Proof. unfold key_le, String.leb. by destruct (String.compare a b). Qed.

Global Instance key_le_trans : Transitive key_le.
Proof.
  intros a b c. rewrite !key_le_compare. apply compare_not_Gt_trans.
Qed.

Global Instance key_le_total : Total key_le.
Proof. intros a b. apply String.leb_total. Qed.

Global Instance key_lt_trans : Transitive key_lt.
Proof.
  intros a b c [Hab Hne] [Hbc Hne']. split; [by etrans |].
  intros ->. apply Hne. by apply String.leb_antisym.
Qed.

(** An ascending list without repetition ascends strictly. *)
Lemma StronglySorted_key_lt (l : list string) :
  StronglySorted key_le l → NoDup l → StronglySorted key_lt l.
Proof.
  induction 1 as [|x l Hs IH Hall]; intros Hnd; [constructor |].
  apply NoDup_cons in Hnd as [Hx Hnd]. constructor; [by apply IH |].
  apply Forall_forall. intros y Hy. split.
  - rewrite Forall_forall in Hall. by apply Hall.
  - by intros ->.
Qed.

(** ** Distinct values *)

Lemma elem_of_unique_go (seen col : list string) (x : string) :
  x ∈ unique_go seen col ↔ x ∈ col ∧ x ∉ seen.
Proof.
  revert seen. induction col as [|y col IH]; intros seen; simpl.
  - split; [by intros ?%elem_of_nil | by intros [?%elem_of_nil _]].
  - case_decide as Hy.
    + rewrite IH, elem_of_cons. split; [tauto |].
      intros [[-> | ?] ?]; [done | tauto].
    + rewrite !elem_of_cons, IH, elem_of_cons. split.
      * intros [-> | [? ?]]; [tauto |]. tauto.
      * intros [[-> | ?] ?]; [tauto |].
        destruct (decide (x = y)); [tauto | tauto].
Qed.

Lemma NoDup_unique_go (seen col : list string) : NoDup (unique_go seen col).
Proof.
  revert seen. induction col as [|y col IH]; intros seen; simpl; [constructor |].
  case_decide as Hy; [apply IH |].
  apply NoDup_cons. split; [| apply IH].
  rewrite elem_of_unique_go, elem_of_cons. tauto.
Qed.

Lemma elem_of_unique (col : list string) (x : string) : x ∈ unique col ↔ x ∈ col.
Proof.
  unfold unique. rewrite elem_of_unique_go. split; [tauto |].
  intros ?. split; [done | by intros ?%elem_of_nil].
Qed.

Lemma NoDup_unique (col : list string) : NoDup (unique col).
Proof. apply NoDup_unique_go. Qed.

Lemma unique_length_le (col1 col2 : list string) :
  (∀ x, x ∈ col1 → x ∈ col2) →
  (length (unique col1) ≤ length (unique col2))%nat.
Proof.
  intros Hsub. apply submseteq_length, NoDup_submseteq; [apply NoDup_unique |].
  intros x. rewrite !elem_of_unique. apply Hsub.
Qed.

Lemma elem_of_dropna {A} (col : list (option A)) (x : A) :
  x ∈ dropna col ↔ Some x ∈ col.
Proof.
  unfold dropna. rewrite list_elem_of_omap. split.
  - by intros ([y|] & Hy & [= ->]).
  - intros H. by exists (Some x).
Qed.

Lemma unique_length (col : list string) :
  (length (unique col) ≤ length col)%nat.
Proof.
  apply submseteq_length, NoDup_submseteq; [apply NoDup_unique |].
  intros x. by rewrite elem_of_unique.
Qed.

Lemma dropna_length {A} (col : list (option A)) :
  (length (dropna col) ≤ length col)%nat.
Proof.
  induction col as [|[x|] col IH]; [done | |].
  - change (dropna (Some x :: col)) with (x :: dropna col).
    rewrite !length_cons. lia.
  - change (dropna (None :: col)) with (dropna col).
    rewrite length_cons. lia.
Qed.

(** ** Sidebar options *)

(** X5: a select box offers "All" and then the distinct non-null values of
    its column in strictly ascending order: a value is offered exactly
    when some reader row has it, no value is offered twice, and an empty
    table offers "All" alone.  Choosing an offered value other than "All"
    keeps at least one row. *)
Theorem select_options_offered (col : reader → option string)
    (reader_df : list reader) :
  ∃ values,
    select_options col reader_df = "All" :: values ∧
    StronglySorted key_lt values ∧
    (∀ s, s ∈ values ↔ ∃ r, r ∈ reader_df ∧ col r = Some s) ∧
    (reader_df = [] → values = []) ∧
    (∀ s, s ∈ values → s ≠ "All" → filter_choice col s reader_df ≠ []).
Proof.
  exists (sorted (unique (dropna (col <$> reader_df)))).
  assert (∀ s, s ∈ sorted (unique (dropna (col <$> reader_df))) ↔
               ∃ r, r ∈ reader_df ∧ col r = Some s) as Hin.
  { intros s. unfold sorted.
    rewrite merge_sort_Permutation, elem_of_unique, elem_of_dropna,
      list_elem_of_fmap.
    split; intros (r & ? & ?); eauto. }
  split_and!.
  - reflexivity.
  - apply StronglySorted_key_lt.
    + apply StronglySorted_merge_sort; apply _.
    + unfold sorted. rewrite merge_sort_Permutation. apply NoDup_unique.
  - exact Hin.
  - by intros ->.
  - intros s (r & Hr & Hs)%Hin Hne.
    assert (r ∈ filter_choice col s reader_df) as Hkept.
    { rewrite filter_choice_filter. apply list_elem_of_filter. by split; [right |]. }
    intros Hnil. rewrite Hnil in Hkept. by apply elem_of_nil in Hkept.
Qed.

(** ** KPIs *)

(** X6: Total Readers is the number of distinct e-mail addresses among the
    rows: a row without address counts for nobody, a repeated address
    counts once, so the number is at most the number of rows, and 0 for no
    rows; and whatever is chosen in the sidebar, the filtered rows never
    give more than the whole reader table. *)
Theorem total_readers_distinct (reader_df : list reader)
    (country_filter industry_filter : string) (cutoff : option Z) :
  total_readers reader_df =
    size (list_to_set (C := gset string) (dropna (Reader.Email <$> reader_df))) ∧
  (total_readers reader_df ≤ length reader_df)%nat ∧
  total_readers [] = 0%nat ∧
  (total_readers
     (filtered_reader_df reader_df country_filter industry_filter cutoff)
   ≤ total_readers reader_df)%nat.
Proof.
  unfold total_readers, nunique. split_and!.
  - rewrite <- (size_list_to_set (C := gset string)) by apply NoDup_unique.
    f_equal. apply set_eq. intros x.
    by rewrite !elem_of_list_to_set, elem_of_unique.
  - etrans; [apply unique_length |]. etrans; [apply dropna_length |].
    by rewrite length_fmap.
  - reflexivity.
  - apply unique_length_le. intros x. rewrite !elem_of_dropna, !list_elem_of_fmap.
    intros (r & Hr & Hin). exists r. split; [done |].
    rewrite filtered_reader_df_mask in Hin.
    by apply list_elem_of_filter in Hin as [_ ?].
Qed.

(** ** Tables of counts *)

Lemma total_count_insert (m : gmap string nat) (s : string) (c : nat) :
  (total_count (<[s := c]> m) + default 0 (m !! s) = c + total_count m)%nat.
Proof.
  unfold total_count.
  assert (∀ (m' : gmap string nat) (j1 j2 : string) (z1 z2 y : nat),
            j1 ≠ j2 → m' !! j1 = Some z1 → m' !! j2 = Some z2 →
            (z1 + (z2 + y) = z2 + (z1 + y))%nat) as Hcomm by (intros; lia).
  destruct (m !! s) as [c0|] eqn:Hs; simpl.
  - rewrite <- (insert_delete_eq m s c).
    rewrite (map_fold_insert_L _ _ s c (delete s m));
      [| apply Hcomm | apply lookup_delete_eq].
    rewrite (map_fold_delete_L _ _ s c0 m); [| apply Hcomm | done]. lia.
  - rewrite (map_fold_insert_L _ _ s c m); [| apply Hcomm | done]. lia.
Qed.

Lemma value_counts_total (col : list (option string)) :
  total_count (value_counts col) = length (dropna col).
Proof.
  induction col as [|[s|] col IH]; [done | | exact IH].
  change (dropna (Some s :: col)) with (s :: dropna col).
  change (value_counts (Some s :: col)) with
    (<[s := S (default 0%nat (value_counts col !! s))]> (value_counts col)).
  pose proof (total_count_insert (value_counts col) s
                (S (default 0%nat (value_counts col !! s)))) as H.
  rewrite length_cons. lia.
Qed.

Lemma dropna_Some {A} (l : list A) : dropna (Some <$> l) = l.
Proof.
  unfold dropna. induction l as [|x l IH]; [done |].
  rewrite fmap_cons. simpl. by f_equal.
Qed.

Lemma value_counts_dropna (col : list (option string)) :
  value_counts (Some <$> dropna col) = value_counts col.
Proof.
  apply map_eq. intros k. by rewrite !value_counts_lookup, dropna_Some.
Qed.

Lemma value_counts_positive (col : list (option string)) (k : string) (n : nat) :
  value_counts col !! k = Some n → (1 ≤ n)%nat ∧ n = count k (dropna col).
Proof.
  rewrite value_counts_lookup. case_decide; [done |]. intros [= <-]. lia.
Qed.

(** X8: in the tables of counts behind the charts of the reader tab, every
    count is the number of filtered rows with that value and is at least
    1, and the counts of a table add up to the number of filtered rows
    that have a value in the column; so no table counts more than there
    are rows.  Dropping the null positions before counting, as line 78
    does, changes nothing. *)
Theorem reader_counts_add_up (filtered : list reader) :
  position_counts filtered = value_counts (Reader.Position <$> filtered) ∧
  total_count (position_counts filtered)
    = length (dropna (Reader.Position <$> filtered)) ∧
  total_count (activity_counts filtered)
    = length (dropna (Reader.Activity_Desc <$> filtered)) ∧
  total_count (country_counts filtered)
    = length (dropna (Reader.Country <$> filtered)) ∧
  (total_count (country_counts filtered) ≤ length filtered)%nat ∧
  (∀ k n, country_counts filtered !! k = Some n →
     (1 ≤ n)%nat ∧
     n = length (filter (λ r, Reader.Country r = Some k) filtered)).
Proof.
  unfold position_counts, activity_counts, country_counts.
  rewrite value_counts_dropna, !value_counts_total. split_and!; try done.
  - etrans; [apply dropna_length |]. by rewrite length_fmap.
  - intros k n [Hn ->]%value_counts_positive. split; [done |].
    unfold count. clear Hn.
    induction filtered as [|r filtered IH]; [done |].
    rewrite fmap_cons, (filter_cons (λ r, Reader.Country r = Some k)).
    destruct (Reader.Country r) as [s|] eqn:Hr.
    + change (dropna (Some s :: ?l)) with (s :: dropna l).
      rewrite filter_cons.
      destruct (decide (k = s)) as [-> | Hne].
      * rewrite decide_True by done. simpl. by rewrite IH.
      * rewrite decide_False by congruence. exact IH.
    + change (dropna (None :: ?l)) with (dropna l).
      rewrite decide_False by done. exact IH.
Qed.

(** X9: with a country chosen in the sidebar, the table of counts behind
    the map has no other country: it is empty when no row passes the
    filters, and otherwise its single entry gives the chosen country the
    number of filtered rows. *)
Theorem country_counts_one_country (reader_df : list reader)
    (country_filter industry_filter : string) (cutoff : option Z) :
  country_filter ≠ "All" →
  country_counts
    (filtered_reader_df reader_df country_filter industry_filter cutoff) =
  match filtered_reader_df reader_df country_filter industry_filter cutoff with
  | [] => ∅
  | rows => {[ country_filter := length rows ]}
  end.
Proof.
  intros Hc.
  assert (Forall (λ r, Reader.Country r = Some country_filter)
            (filtered_reader_df reader_df country_filter industry_filter cutoff))
    as Hall.
  { rewrite filtered_reader_df_mask. apply Forall_forall.
    intros r [[[? | ?] _] _]%list_elem_of_filter; done. }
  revert Hall.
  generalize (filtered_reader_df reader_df country_filter industry_filter cutoff).
  intros rows Hall. unfold country_counts.
  assert (∀ k, count k (dropna (Reader.Country <$> rows)) =
               if decide (k = country_filter) then length rows else 0%nat) as Hcount.
  { intros k. induction Hall as [|r rows Hr Hall IH]; [by case_decide |].
    rewrite fmap_cons, Hr.
    change (dropna (Some country_filter :: ?l)) with (country_filter :: dropna l).
    rewrite count_cons, IH. by case_decide. }
  apply map_eq. intros k. rewrite value_counts_lookup, Hcount.
  destruct rows as [|r rows].
  - rewrite lookup_empty. by repeat case_decide.
  - destruct (decide (k = country_filter)) as [-> | Hne].
    + by rewrite lookup_singleton_eq.
    + by rewrite lookup_singleton_ne.
Qed.

Lemma country_counts_one_country_witness :
  country_counts
    (filtered_reader_df [reader_1; reader_2; reader_3] "Germany" "All" None) =
  match filtered_reader_df [reader_1; reader_2; reader_3] "Germany" "All" None with
  | [] => ∅
  | rows => {[ "Germany" := length rows ]}
  end.
Proof.
  apply (country_counts_one_country [reader_1; reader_2; reader_3]
           "Germany" "All" None).
  discriminate.
Defined.

(** ** Group totals add up *)

Lemma values_sum_cons (cell : option Z) (col : list (option Z)) :
  values_sum (cell :: col) = default 0 cell + values_sum col.
Proof. reflexivity. Qed.

Lemma group_total_cons {R} (key : R → option string) (val : R → option Z)
    (k : string) (r : R) (df : list R) :
  group_total key val k (r :: df) =
    (if decide (key r = Some k) then default 0 (val r) else 0)
    + group_total key val k df.
Proof.
  unfold group_total. rewrite filter_cons. by case_decide.
Qed.

Lemma sum_fmap_add {A} (f g : A → Z) (l : list A) :
  foldr Z.add 0 ((λ x, f x + g x) <$> l) =
    foldr Z.add 0 (f <$> l) + foldr Z.add 0 (g <$> l).
Proof. induction l as [|x l IH]; [done |]. rewrite !fmap_cons. simpl. lia. Qed.

Lemma sum_one_key (cell : option string) (x : Z) (ks : list string) :
  NoDup ks →
  foldr Z.add 0 ((λ k, if decide (cell = Some k) then x else 0) <$> ks) =
    match cell with
    | Some k => if decide (k ∈ ks) then x else 0
    | None => 0
    end.
Proof.
  induction 1 as [|k ks Hk Hnd IH].
  - destruct cell; [by rewrite decide_False by by intros ?%elem_of_nil | done].
  - rewrite fmap_cons. simpl. rewrite IH. destruct cell as [k'|].
    + destruct (decide (Some k' = Some k)) as [[= ->] | Hne].
      * rewrite decide_False by done. rewrite decide_True by left. lia.
      * destruct (decide (k' ∈ ks)) as [Hin | Hin].
        -- rewrite decide_True by by right. lia.
        -- rewrite decide_False; [lia |].
           intros [-> | ?]%elem_of_cons; [done | done].
    + rewrite decide_False by done. lia.
Qed.

Lemma group_totals_sum {R} (key : R → option string) (val : R → option Z)
    (ks : list string) (df : list R) :
  NoDup ks →
  foldr Z.add 0 ((λ k, group_total key val k df) <$> ks) =
    values_sum (val <$> filter (λ r, key r ∈ Some <$> ks) df).
Proof.
  intros Hnd. induction df as [|r df IH].
  - clear. induction ks as [|k ks IH]; [done |]. rewrite fmap_cons. simpl.
    rewrite IH. done.
  - erewrite list_fmap_ext; [| intros i k _; apply group_total_cons].
    rewrite (sum_fmap_add
               (λ k, if decide (key r = Some k) then default 0 (val r) else 0)),
      IH, sum_one_key by done.
    rewrite filter_cons. destruct (key r) as [k|] eqn:Hr.
    + destruct (decide (k ∈ ks)) as [Hin | Hin].
      * rewrite decide_True by (apply list_elem_of_fmap; eauto).
        by rewrite fmap_cons, values_sum_cons.
      * rewrite decide_False; [done |].
        by intros (k' & [= ->] & Hk')%list_elem_of_fmap.
    + rewrite decide_False; [done |]. by intros (k' & ? & _)%list_elem_of_fmap.
Qed.

Lemma filter_iff_elem_of {A} (P Q : A → Prop) `{!∀ x, Decision (P x)}
    `{!∀ x, Decision (Q x)} (l : list A) :
  (∀ x, x ∈ l → P x ↔ Q x) → filter P l = filter Q l.
Proof.
  induction l as [|x l IH]; intros Hiff; [done |].
  rewrite !filter_cons, IH by (intros y Hy; apply Hiff; by right).
  destruct (decide (P x)) as [HP | HP].
  - rewrite decide_True; [done |]. apply Hiff; [left | done].
  - rewrite decide_False; [done |]. intros HQ. apply HP, Hiff; [left | done].
Qed.

Lemma groupby_sum_total {R} (t : dtype) (key : R → option string)
    (val : R → option Z) (df : list R) :
  sum_abs (val <$> df) < 2 ^ 53 →
  foldr Z.add 0 ((groupby_sum t key val df).*2) =
    values_sum (val <$> filter (λ r, is_Some (key r)) df).
Proof.
  intros Hb. rewrite groupby_sum_exact by done. rewrite <- list_fmap_compose.
  change (snd ∘ _) with (λ k, group_total key val k df).
  rewrite group_totals_sum by apply group_keys_NoDup. f_equal. f_equal.
  apply filter_iff_elem_of. intros r Hr. split.
  - by intros (k & -> & _)%list_elem_of_fmap.
  - intros [k Hk]. apply list_elem_of_fmap. exists k. split; [done |].
    apply group_keys_elem_of. rewrite <- Hk. apply list_elem_of_fmap. eauto.
Qed.

Lemma topic_column_total (titles : list (option string)) :
  topic_column titles = inr (match_topic ∘ default "" <$> titles).
Proof.
  unfold topic_column.
  rewrite (series_apply_total _ (λ c, match_topic (default "" c))).
  - f_equal. rewrite <- list_fmap_compose. apply list_fmap_ext.
    intros i [s|] _; reflexivity.
  - intros c [[s|] [-> _]]%list_elem_of_fmap; reflexivity.
Qed.

(** The topic of a joined row, as line 101 derives it. *)
Lemma topic_df_rows (filtered : list merged) :
  zip filtered (match_topic ∘ default "" <$> (Merged.Title <$> filtered)) =
    (λ m, (m, match_topic (default "" (Merged.Title m)))) <$> filtered.
Proof.
  rewrite <- list_fmap_compose. apply (zip_fmap_self (λ m, match_topic (default "" (Merged.Title m)))).
Qed.

Lemma group_total_topic (f : merged → string) (k : string) (l : list merged) :
  group_total (λ r : merged * string, Some r.2)
    (λ r, Merged.Article_Reads r.1) k ((λ m, (m, f m)) <$> l) =
  values_sum (Merged.Article_Reads <$> filter (λ m, f m = k) l).
Proof.
  induction l as [|m l IH]; [done |].
  rewrite fmap_cons, group_total_cons, IH, filter_cons. simpl.
  destruct (decide (f m = k)) as [-> | Hne].
  - rewrite decide_True by done. by rewrite fmap_cons, values_sum_cons.
  - rewrite decide_False by congruence. done.
Qed.

(** X10: grouping loses nothing but the rows without a key, as long as
    the sums are exact.  When the magnitudes of the read counts of the
    filtered rows add up to less than 2^53, in either type of the column
    the totals of all authors add up to the sum of Article Reads over the
    filtered rows that have an author name, and the totals of all topics,
    where every row has a topic, to the sum of Article Reads over all
    filtered rows; a null read count adds nothing. *)
Theorem group_totals_add_up (t : dtype) (filtered : list merged) :
  sum_abs (Merged.Article_Reads <$> filtered) < 2 ^ 53 →
  foldr Z.add 0
    ((groupby_sum t Merged.Author_Name Merged.Article_Reads filtered).*2) =
    values_sum (Merged.Article_Reads <$>
                  filter (λ m, is_Some (Merged.Author_Name m)) filtered) ∧
  (∃ topics,
     topic_column (Merged.Title <$> filtered) = inr topics ∧
     foldr Z.add 0
       ((groupby_sum t (λ r : merged * string, Some r.2)
           (λ r, Merged.Article_Reads r.1) (zip filtered topics)).*2) =
       values_sum (Merged.Article_Reads <$> filtered)).
Proof.
  intros Hb. split; [by apply groupby_sum_total |].
  eexists. split; [apply topic_column_total |].
  rewrite topic_df_rows.
  assert ((λ r : merged * string, Merged.Article_Reads r.1) <$>
            ((λ m, (m, match_topic (default "" (Merged.Title m)))) <$> filtered)
          = Merged.Article_Reads <$> filtered) as Hcol
    by by rewrite <- list_fmap_compose.
  rewrite groupby_sum_total by by rewrite Hcol.
  rewrite filter_all by (intros r; by eexists).
  by rewrite Hcol.
Qed.

Lemma group_totals_add_up_witness :
  foldr Z.add 0
    ((groupby_sum int64 Merged.Author_Name Merged.Article_Reads
        rows_with_nulls).*2) =
    values_sum (Merged.Article_Reads <$>
                  filter (λ m, is_Some (Merged.Author_Name m)) rows_with_nulls) ∧
  (∃ topics,
     topic_column (Merged.Title <$> rows_with_nulls) = inr topics ∧
     foldr Z.add 0
       ((groupby_sum int64 (λ r : merged * string, Some r.2)
           (λ r, Merged.Article_Reads r.1) (zip rows_with_nulls topics)).*2) =
       values_sum (Merged.Article_Reads <$> rows_with_nulls)).
Proof.
  apply (group_totals_add_up int64 rows_with_nulls). vm_compute. reflexivity.
Defined.

(** X11: each bar of the topic chart belongs to one of the nine keywords
    or to "other", to a topic that some filtered row has, and there are at
    most five bars.  The bar gives the sum of Article Reads over the
    filtered rows whose title, with a null title read as the empty text,
    is classified under that topic, as the type of the column returns it:
    wrapped to 64 bits in int64, and exact in either type when the
    magnitudes of the read counts of the filtered rows add up to less
    than 2^53. *)
Theorem top_topics_totals (t : dtype) (filtered : list merged)
    (topics : list (string * Z)) :
  top_topics Numpy.aquicksort t filtered = inr topics →
  (length topics ≤ 5)%nat ∧
  ∀ k s, (k, s) ∈ topics →
    k ∈ topic_keywords ++ ["other"] ∧
    (∃ m, m ∈ filtered ∧ match_topic (default "" (Merged.Title m)) = k) ∧
    (t = int64 →
     s = Int64.wrap
           (values_sum
              (Merged.Article_Reads <$>
                 filter (λ m, match_topic (default "" (Merged.Title m)) = k)
                   filtered))) ∧
    (sum_abs (Merged.Article_Reads <$> filtered) < 2 ^ 53 →
     s = values_sum
           (Merged.Article_Reads <$>
              filter (λ m, match_topic (default "" (Merged.Title m)) = k)
                filtered)).
Proof.
  unfold top_topics. rewrite topic_column_total, topic_df_rows.
  intros [= <-].
  set (topic_df := (λ m, (m, match_topic (default "" (Merged.Title m))))
                     <$> filtered).
  assert ((λ r : merged * string, Merged.Article_Reads r.1) <$> topic_df
          = Merged.Article_Reads <$> filtered) as Hcol
    by (unfold topic_df; by rewrite <- list_fmap_compose).
  destruct (groupby_sum_top_contract Numpy.aquicksort t
              (λ r : merged * string, Some r.2) (λ r, Merged.Article_Reads r.1) 5
              topic_df)
    as (_ & _ & Hlen & _ & Hin); [apply aquicksort_ok |].
  split; [exact Hlen |].
  intros k s Hks.
  destruct (groupby_sum_entry t _ _ _ k s (Hin k s Hks))
    as ((m' & Hm' & Hk) & Hwrap & _ & Hexact).
  apply list_elem_of_fmap in Hm' as (m & -> & Hm). simpl in Hk.
  injection Hk as <-.
  rewrite Hcol in Hexact. unfold topic_df in Hwrap, Hexact.
  rewrite group_total_topic in Hwrap, Hexact.
  split_and!; [apply match_topic_loop_elem | by exists m | done | done].
Qed.

Lemma top_topics_totals_witness :
  (length [("other", 110)] ≤ 5)%nat ∧
  ∀ k s, (k, s) ∈ [("other", 110)] →
    k ∈ topic_keywords ++ ["other"] ∧
    (∃ m, m ∈ rows_50_50_10 ∧ match_topic (default "" (Merged.Title m)) = k) ∧
    (int64 = int64 →
     s = Int64.wrap
           (values_sum
              (Merged.Article_Reads <$>
                 filter (λ m, match_topic (default "" (Merged.Title m)) = k)
                   rows_50_50_10))) ∧
    (sum_abs (Merged.Article_Reads <$> rows_50_50_10) < 2 ^ 53 →
     s = values_sum
           (Merged.Article_Reads <$>
              filter (λ m, match_topic (default "" (Merged.Title m)) = k)
                rows_50_50_10)).
Proof.
  apply (top_topics_totals int64 rows_50_50_10 [("other", 110)]).
  vm_compute. reflexivity.
Defined.

(** ** The charts show the largest *)

Lemma take_drop_sorted {A} (R : relation A) (n : nat) (ranked : list A)
    (x y : A) :
  StronglySorted R ranked → x ∈ take n ranked → y ∈ drop n ranked → R x y.
Proof.
  intros Hs Hx Hy. rewrite <- (take_drop n ranked) in Hs.
  by eapply StronglySorted_app_1_elem_of.
Qed.

Lemma group_keys_length (keys : list (option string)) :
  length (group_keys keys) = nunique keys.
Proof.
  unfold nunique. apply Permutation_length, NoDup_Permutation.
  - apply group_keys_NoDup.
  - apply NoDup_unique.
  - intros k. by rewrite group_keys_elem_of, elem_of_unique, elem_of_dropna.
Qed.

(** X12: the author chart has one bar for each distinct author name of
    the filtered rows, up to ten, and the bars are the largest totals:
    the authors left out, taken together with the bars, are all the
    authors, and none of them has a larger total than any bar. *)
Theorem top_authors_largest (t : dtype) (filtered : list merged) :
  length (top_authors Numpy.aquicksort t filtered) =
    Nat.min 10 (nunique (Merged.Author_Name <$> filtered)) ∧
  ∃ rest,
    top_authors Numpy.aquicksort t filtered ++ rest ≡ₚ
      groupby_sum t Merged.Author_Name Merged.Article_Reads filtered ∧
    ∀ shown other,
      shown ∈ top_authors Numpy.aquicksort t filtered → other ∈ rest →
      other.2 ≤ shown.2.
Proof.
  unfold top_authors.
  destruct (groupby_sum_top_contract Numpy.aquicksort t Merged.Author_Name
              Merged.Article_Reads 10 filtered)
    as ((ranked & -> & Hperm & Hsorted) & _); [apply aquicksort_ok |].
  split.
  - rewrite length_take, Hperm, <- (length_fmap fst), groupby_sum_keys,
      group_keys_length. done.
  - exists (drop 10 ranked). split; [by rewrite take_drop |].
    intros shown other Hs Ho.
    by apply (take_drop_sorted (λ g h : string * Z, h.2 ≤ g.2) 10 ranked).
Qed.

(** X13: the list of top articles has five cards, or one for every
    filtered row when there are fewer, each the projection of a filtered
    row; and they are the largest: the rows left out, taken together with
    the cards, are all the filtered rows, and none of them ranks before a
    card, a row without a read count ranking after every row with one. *)
Theorem top_articles_largest (filtered : list merged) :
  length (top_articles Numpy.aquicksort filtered) =
    Nat.min 5 (length filtered) ∧
  (∀ r, r ∈ top_articles Numpy.aquicksort filtered →
        ∃ m, m ∈ filtered ∧ r = project m) ∧
  ∃ rest,
    top_articles Numpy.aquicksort filtered ++ rest ≡ₚ project <$> filtered ∧
    ∀ shown other,
      shown ∈ top_articles Numpy.aquicksort filtered → other ∈ rest →
      desc_nulls_last (TopArticle.Article_Reads shown)
        (TopArticle.Article_Reads other).
Proof.
  destruct (top_articles_contract Numpy.aquicksort filtered)
    as (ranked & -> & Hperm & Hsorted & _); [apply aquicksort_ok |].
  split_and!.
  - by rewrite length_take, Hperm, length_fmap.
  - intros r Hr. apply (subseteq_take 5 ranked) in Hr.
    rewrite Hperm in Hr. apply list_elem_of_fmap in Hr as (m & -> & Hm). eauto.
  - exists (drop 5 ranked). split; [by rewrite take_drop |].
    intros shown other Hs Ho.
    by apply (take_drop_sorted
                (λ r s, desc_nulls_last (TopArticle.Article_Reads r)
                          (TopArticle.Article_Reads s)) 5 ranked).
Qed.

(** ** The cache of the loader *)

(** X15: the cache hides later changes of the files.  After a run whose
    [load_data] call returned, the loaded tables are cached, and every
    later run works on them whatever the files hold by then, even when
    they are gone; after a run whose [load_data] call raised, nothing is
    cached, the state is as before, and the next run reads the files
    anew. *)
Theorem cache_hides_file_changes (to_datetime : string → option Z)
    (argsort : list Z → list nat) (sel : selection) (w : world) :
  (∀ v, (load_data_cached to_datetime w).1 = inr v →
     cache (render to_datetime argsort sel w).2 = Some v ∧
     (cache w = None → load_data to_datetime (files w) = inr v) ∧
     ∀ sel' d',
       render to_datetime argsort sel' {| files := d'; cache := Some v |}
         = (derive argsort sel' v, {| files := d'; cache := Some v |})) ∧
  (∀ e, (load_data_cached to_datetime w).1 = inl e →
     (render to_datetime argsort sel w).2 = w ∧ cache w = None ∧
     load_data to_datetime (files w) = inl e ∧
     ∀ sel' d',
       (render to_datetime argsort sel'
          {| files := d'; cache := cache (render to_datetime argsort sel w).2 |}).1 =
         match load_data to_datetime d' with
         | inr v => derive argsort sel' v
         | inl e' => inl e'
         end).
Proof.
  unfold render, load_data_cached. destruct w as [d [v|]]; simpl.
  - split.
    + intros v' [= <-]. split_and!; [done | done | done].
    + intros e He. discriminate He.
  - destruct (load_data to_datetime d) as [e'|v] eqn:Hl; simpl.
    + split; [intros v Hv; discriminate Hv |].
      intros e [= <-]. split_and!; [done | done | done |].
      intros sel' d'. by destruct (load_data to_datetime d').
    + split.
      * intros v' [= <-]. split_and!; [done | done | done].
      * intros e He. discriminate He.
Qed.

(** ** The topic frame *)

(** X16: the topic column is written to a copy.  Lines 100-101 build the
    frame [topic_df] under a new reference and give it the topic of every
    row; the filtered frame, which the keyword counts, the top articles
    and the author chart read afterwards, and every other frame are left
    as they were.  Writing the column without the copy would change the
    filtered frame itself. *)
Theorem topic_column_on_copy (σ : gmap nat (list topic_row))
    (filtered_merged_df : nat) (rows : list topic_row) :
  σ !! filtered_merged_df = Some rows →
  (∃ topic_df σ',
     make_topic_df filtered_merged_df σ = Some (topic_df, σ') ∧
     topic_df ≠ filtered_merged_df ∧
     σ' !! topic_df =
       Some ((λ r : topic_row,
                (r.1, Some (match_topic (default "" (Merged.Title r.1)))))
               <$> rows) ∧
     σ' !! filtered_merged_df = Some rows ∧
     ∀ df other, σ !! df = Some other → σ' !! df = Some other) ∧
  (∃ σ',
     df_set_topic filtered_merged_df σ = Some (filtered_merged_df, σ') ∧
     σ' !! filtered_merged_df =
       Some ((λ r : topic_row,
                (r.1, Some (match_topic (default "" (Merged.Title r.1)))))
               <$> rows)).
Proof.
  intros Hdf.
  assert (∀ rows' : list topic_row,
            zip (fst <$> rows')
              (Some <$> (match_topic ∘ default "" <$>
                           ((λ r : topic_row, Merged.Title r.1) <$> rows'))) =
            (λ r : topic_row,
               (r.1, Some (match_topic (default "" (Merged.Title r.1)))))
              <$> rows') as Hzip.
  { intros rows'. induction rows' as [|r rows' IH]; [done |].
    rewrite !fmap_cons. simpl. by f_equal. }
  split.
  - unfold make_topic_df, bind, df_copy. rewrite Hdf. simpl.
    set (new := fresh (dom σ)).
    assert (σ !! new = None) as Hnew by apply fresh_unused.
    assert (new ≠ filtered_merged_df) as Hne by congruence.
    unfold df_set_topic. rewrite lookup_insert_eq, topic_column_total.
    unfold ret. exists new, (<[new := zip (fst <$> rows)
      (Some <$> (match_topic ∘ default "" <$>
                   ((λ r : topic_row, Merged.Title r.1) <$> rows)))]>
      (<[new := rows]> σ)).
    split_and!; [done | done | | |].
    + by rewrite lookup_insert_eq, Hzip.
    + by rewrite !lookup_insert_ne.
    + intros df other Hother.
      assert (new ≠ df) by congruence. by rewrite !lookup_insert_ne.
  - unfold df_set_topic. rewrite Hdf, topic_column_total.
    eexists. split; [done |]. by rewrite lookup_insert_eq, Hzip.
Qed.

Lemma topic_column_on_copy_witness :
  ∃ topic_df σ',
    make_topic_df 0 {[ 0%nat := [(row "Tax update" (Some 3), None)] ]}
      = Some (topic_df, σ') ∧
    topic_df ≠ 0%nat ∧
    σ' !! topic_df = Some [(row "Tax update" (Some 3), Some "tax")] ∧
    σ' !! 0%nat = Some [(row "Tax update" (Some 3), None)].
Proof.
  destruct (topic_column_on_copy
              {[ 0%nat := [(row "Tax update" (Some 3), None)] ]} 0
              [(row "Tax update" (Some 3), None)])
    as [(topic_df & σ' & H1 & H2 & H3 & H4 & _) _].
  - reflexivity.
  - exists topic_df, σ'. split_and!; [done | done | exact H3 | done].
Defined.

(** ** The tokens of a title *)

Lemma no_space_of_list (l : list ascii) :
  Forall (λ c, Str.isspace c = false) l → no_space (string_of_list_ascii l).
Proof. induction 1; simpl; [done | by split]. Qed.

Lemma no_upper_of_list (l : list ascii) :
  Forall (λ c, Str.is_upper c = false) l → no_upper (string_of_list_ascii l).
Proof. induction 1; simpl; [done | by split]. Qed.

Lemma flush_shape (P : ascii → Prop) (cur : list ascii) (t : string) :
  Forall P cur → t ∈ Str.flush cur →
  t ≠ "" ∧ ∃ l, t = string_of_list_ascii l ∧ Forall P l.
Proof.
  intros Hcur Ht. destruct cur as [|c cur]; [by apply elem_of_nil in Ht |].
  apply list_elem_of_singleton in Ht as ->. split.
  - simpl. destruct (rev cur); done.
  - exists (rev (c :: cur)). split; [done |]. by apply Forall_rev.
Qed.

(** Every token is made of characters of the text that are not white
    space. *)
Lemma split_go_shape (P : ascii → Prop) (cur : list ascii) (s : string)
    (t : string) :
  Forall (λ c, Str.isspace c = false ∧ P c) cur →
  Forall P (list_ascii_of_string s) →
  t ∈ Str.split_go cur s →
  t ≠ "" ∧ ∃ l, t = string_of_list_ascii l ∧
                Forall (λ c, Str.isspace c = false ∧ P c) l.
Proof.
  revert cur. induction s as [|c s IH]; intros cur Hcur Hs Ht; simpl in Ht.
  - by apply (flush_shape _ cur).
  - apply Forall_cons in Hs as [Hc Hs].
    destruct (Str.isspace c) eqn:Hsp.
    + apply elem_of_app in Ht as [Ht | Ht]; [by apply (flush_shape _ cur) |].
      by apply (IH []).
    + apply (IH (c :: cur)); [by constructor | done | done].
Qed.

Lemma split_go_concat (cur : list ascii) (s : string) :
  foldr String.append "" (Str.split_go cur s) =
    (string_of_list_ascii (rev cur) ++ squeeze s)%string.
Proof.
  assert (∀ t : string, (t ++ "")%string = t) as Hnil.
  { intros t. induction t as [|x t IH]; [done |]. by rewrite app_String, IH. }
  assert (∀ a b c : string, ((a ++ b) ++ c = a ++ (b ++ c))%string) as Hassoc.
  { intros a b c. induction a as [|x a IH]; [by rewrite !app_empty |].
    by rewrite !app_String, IH. }
  revert cur. induction s as [|c s IH]; intros cur; simpl.
  - rewrite Hnil. destruct cur as [|x cur]; [done |]. simpl. by rewrite Hnil.
  - destruct (Str.isspace c).
    + rewrite foldr_app, IH. change (string_of_list_ascii (rev [])) with "".
      rewrite app_empty. destruct cur as [|x cur]; [by rewrite app_empty | done].
    + rewrite IH. change (rev (c :: cur)) with (rev cur ++ [c])%list.
      rewrite string_of_list_ascii_app, Hassoc.
      change (string_of_list_ascii [c]) with (String c "").
      by rewrite app_String, app_empty.
Qed.

Lemma split_unwords (ts : list string) :
  Forall (λ t, t ≠ "" ∧ no_space t) ts → Str.split (unwords ts) = ts.
Proof.
  induction 1 as [|t ts [Ht1 Ht2] Hts IH]; [done |].
  destruct ts as [|t' ts].
  - simpl. unfold Str.split. rewrite split_go_no_space; [done | by left | done].
  - change (unwords (t :: t' :: ts)) with
      (t ++ String " " (unwords (t' :: ts)))%string.
    unfold Str.split. rewrite split_go_space by done.
    rewrite split_go_no_space; [| by left | done].
    fold (Str.split (unwords (t' :: ts))). rewrite IH. done.
Qed.

(** X17: splitting a title loses no character but the white space: every
    token is non-empty and free of white space, the tokens put together
    are the title without its white space, and joining the tokens by
    single blanks and splitting again gives the same tokens.  The tokens
    of a lower-cased title have no upper-case letter. *)
Theorem split_tokens (s : string) :
  (∀ t, t ∈ Str.split s → t ≠ "" ∧ no_space t) ∧
  foldr String.append "" (Str.split s) = squeeze s ∧
  Str.split (unwords (Str.split s)) = Str.split s ∧
  (∀ t, t ∈ Str.split (Str.lower s) → no_upper t).
Proof.
  assert (∀ t, t ∈ Str.split s → t ≠ "" ∧ no_space t) as Hshape.
  { intros t Ht.
    destruct (split_go_shape (λ _, True) [] s t) as (Hne & l & -> & Hl);
      [constructor | by apply Forall_forall | done |].
    split; [done |]. apply no_space_of_list.
    eapply Forall_impl; [exact Hl |]. by intros c [? _]. }
  split_and!.
  - exact Hshape.
  - apply (split_go_concat [] s).
  - apply split_unwords. by apply Forall_forall.
  - intros t Ht.
    destruct (split_go_shape (λ c, Str.is_upper c = false) [] (Str.lower s) t)
      as (_ & l & -> & Hl); [constructor | | done |].
    + clear. induction s as [|c s IH]; simpl; [constructor |].
      constructor; [apply lower_char_not_upper | done].
    + apply no_upper_of_list. eapply Forall_impl; [exact Hl |]. by intros c [_ ?].
Qed.

(** ** The thousands separator *)

Lemma group_thousands_groups (k : nat) (ds : list ascii) :
  (length ds ≤ k)%nat → ds ≠ [] →
  ∃ g gs,
    reverse (group_thousands ds) =
      g ++ concat ((λ x, ","%char :: x) <$> gs) ∧
    (1 ≤ length g ≤ 3)%nat ∧
    Forall (λ x, length x = 3%nat) gs ∧
    g ++ concat gs = reverse ds.
Proof.
  revert ds. induction k as [|k IH]; intros ds Hk Hne.
  { destruct ds; [done | simpl in Hk; lia]. }
  destruct ds as [|a [|b [|c [|d rest]]]]; [done | | | |].
  - exists [a], []. split_and!; [done | simpl; lia | simpl; lia | constructor | done].
  - exists [b; a], []. split_and!; [done | simpl; lia | simpl; lia | constructor | done].
  - exists [c; b; a], []. split_and!; [done | simpl; lia | simpl; lia | constructor | done].
  - destruct (IH (d :: rest)) as (g & gs & Hrev & Hg & Hgs & Hcontent);
      [simpl in Hk |- *; lia | done |].
    exists g, (gs ++ [[c; b; a]]).
    change (group_thousands (a :: b :: c :: d :: rest)) with
      (a :: b :: c :: ","%char :: group_thousands (d :: rest)).
    split_and!.
    + rewrite !reverse_cons, Hrev, fmap_app, concat_app, <- !app_assoc. done.
    + lia.
    + lia.
    + apply Forall_app. split; [done | by constructor].
    + rewrite concat_app, app_assoc, Hcontent, !reverse_cons, <- !app_assoc.
      done.
Qed.

Lemma digits_no_comma (d : Decimal.uint) :
  ","%char ∉ list_ascii_of_string (DecimalString.NilEmpty.string_of_uint d).
Proof.
  induction d; simpl; [by intros ?%elem_of_nil | ..];
    (intros [[=] | ?]%elem_of_cons; done).
Qed.

Lemma revapp_not_Nil (d d' : Decimal.uint) : d' ≠ Decimal.Nil → Decimal.revapp d d' ≠ Decimal.Nil.
Proof. revert d'. induction d; intros d' Hd'; simpl; try done; by apply IHd. Qed.

Lemma to_little_uint_not_Nil (n : nat) (acc : Decimal.uint) :
  acc ≠ Decimal.Nil → Nat.to_little_uint n acc ≠ Decimal.Nil.
Proof.
  revert acc. induction n as [|n IH]; intros acc Hacc; simpl; [done |].
  apply IH. by destruct acc.
Qed.

Lemma to_uint_not_Nil (n : nat) : Nat.to_uint n ≠ Decimal.Nil.
Proof.
  unfold Nat.to_uint, Decimal.rev.
  pose proof (to_little_uint_not_Nil n Decimal.zero) as H.
  destruct (Nat.to_little_uint n Decimal.zero) eqn:Hd; [by apply H | ..];
    simpl; by apply revapp_not_Nil.
Qed.

(** X18: the count of a KPI is shown in groups of three digits: the
    formatted text is a first group of one to three digits followed by
    groups of exactly three digits, each with a comma in front; the
    groups put together are the decimal digits of the count, among which
    there is no comma, and reading these digits gives the count back. *)
Theorem format_thousands_groups (n : nat) :
  ∃ g gs,
    list_ascii_of_string (format_thousands n) =
      g ++ concat ((λ x, ","%char :: x) <$> gs) ∧
    (1 ≤ length g ≤ 3)%nat ∧
    Forall (λ x, length x = 3%nat) gs ∧
    string_of_list_ascii (g ++ concat gs) = decimal_str n ∧
    (","%char ∉ g ++ concat gs) ∧
    (Nat.of_uint <$> DecimalString.NilZero.uint_of_string (decimal_str n)) = Some n.
Proof.
  set (ds := reverse (list_ascii_of_string (decimal_str n))).
  assert (list_ascii_of_string (decimal_str n) =
          list_ascii_of_string (DecimalString.NilEmpty.string_of_uint (Nat.to_uint n))) as Hdec.
  { unfold decimal_str, DecimalString.NilZero.string_of_uint.
    pose proof (to_uint_not_Nil n). by destruct (Nat.to_uint n). }
  assert (ds ≠ []) as Hne.
  { unfold ds. rewrite Hdec. pose proof (to_uint_not_Nil n) as Hn.
    intros Hnil. apply (f_equal length) in Hnil. rewrite length_reverse in Hnil.
    destruct (Nat.to_uint n); [done | ..]; simpl in Hnil; discriminate. }
  destruct (group_thousands_groups (length ds) ds) as (g & gs & H1 & H2 & H3 & H4);
    [done | done |].
  exists g, gs. split_and!; [| lia | lia | done | | |].
  - unfold format_thousands. by rewrite list_ascii_of_string_of_list_ascii.
  - rewrite H4. unfold ds.
    by rewrite reverse_involutive, string_of_list_ascii_of_string.
  - rewrite H4. unfold ds. rewrite reverse_involutive, Hdec.
    apply digits_no_comma.
  - unfold decimal_str. rewrite DecimalString.NilZero.usu by apply to_uint_not_Nil. simpl.
    by rewrite DecimalNat.Unsigned.of_to.
Qed.

(** ** Author totals over the join *)

Lemma group_total_app {R} (key : R → option string) (val : R → option Z)
    (k : string) (df1 df2 : list R) :
  group_total key val k (df1 ++ df2) =
    group_total key val k df1 + group_total key val k df2.
Proof.
  induction df1 as [|r df1 IH]; [done |].
  rewrite <- app_comm_cons, !group_total_cons, IH. lia.
Qed.

Lemma group_total_replicate {R} (key : R → option string) (val : R → option Z)
    (k : string) (n : nat) (r : R) :
  group_total key val k (replicate n r) =
    if decide (key r = Some k) then Z.of_nat n * default 0 (val r) else 0.
Proof.
  induction n as [|n IH]; [by case_decide |].
  change (replicate (S n) r) with (r :: replicate n r).
  rewrite group_total_cons, IH. case_decide; lia.
Qed.

Lemma group_total_article_of (k : string) (ms : list merged) :
  group_total Merged.Author_Name Merged.Article_Reads k ms =
    group_total Article.Author_Name Article.Reads k (article_of <$> ms).
Proof.
  induction ms as [|m ms IH]; [done |].
  rewrite fmap_cons, !group_total_cons, IH. done.
Qed.

(** X19: the total of an author over the joined table counts the read
    count of each of the author's articles once for every author row with
    the article's Author Id, and once when there is none; so an Author Id
    that occurs twice in the author file doubles the reads of its
    articles in the author chart.  The type of the column returns this
    sum wrapped to 64 bits in int64, and as it is, in either type, when
    the magnitudes of the read counts of the joined rows add up to less
    than 2^53; then, when no Author Id occurs twice, the total is the sum
    of the read counts of the author's articles. *)
Theorem author_totals_over_join (t : dtype) (article_df : list article)
    (author_df : list author) (k : string) (s : Z) :
  (k, s) ∈ groupby_sum t Merged.Author_Name Merged.Article_Reads
             (merge_left article_df author_df) →
  (t = int64 →
   s = Int64.wrap
         (foldr Z.add 0
            ((λ a, Z.of_nat (Nat.max 1 (matches author_df a))
                   * default 0 (Article.Reads a)) <$>
               filter (λ a, Article.Author_Name a = Some k) article_df))) ∧
  (sum_abs (Merged.Article_Reads <$> merge_left article_df author_df) < 2 ^ 53 →
   s = foldr Z.add 0
         ((λ a, Z.of_nat (Nat.max 1 (matches author_df a))
                * default 0 (Article.Reads a)) <$>
            filter (λ a, Article.Author_Name a = Some k) article_df) ∧
   (NoDup (Author.Author_Id <$> author_df) →
    s = foldr Z.add 0
          (default 0 ∘ Article.Reads <$>
             filter (λ a, Article.Author_Name a = Some k) article_df))).
Proof.
  intros Hin.
  assert (group_total Merged.Author_Name Merged.Article_Reads k
            (merge_left article_df author_df) =
          foldr Z.add 0
            ((λ a, Z.of_nat (Nat.max 1 (matches author_df a))
                   * default 0 (Article.Reads a)) <$>
               filter (λ a, Article.Author_Name a = Some k) article_df)) as Heq.
  { rewrite group_total_article_of, merge_left_articles. clear Hin.
    induction article_df as [|a article_df IH]; [done |].
    rewrite bind_cons, group_total_app, group_total_replicate, IH, filter_cons.
    case_decide; [by rewrite fmap_cons | lia]. }
  destruct (groupby_sum_entry t _ _ _ k s Hin) as (_ & Hwrap & _ & Hexact).
  rewrite Heq in Hwrap, Hexact. split; [exact Hwrap |].
  intros Hb. split; [by apply Hexact |].
  intros Hnd. rewrite (Hexact Hb). f_equal. apply list_fmap_ext.
  intros i a _. simpl.
  pose proof (filter_unique_key Author.Author_Id (Article.Author_Id a)
                author_df Hnd) as Hle.
  unfold matches. replace (Nat.max 1 _) with 1%nat by lia. lia.
Qed.

Lemma author_totals_over_join_witness :
  (int64 = int64 →
   100 = Int64.wrap
         (foldr Z.add 0
            ((λ a, Z.of_nat (Nat.max 1 (matches [author_1; author_1] a))
                   * default 0 (Article.Reads a)) <$>
               filter (λ a, Article.Author_Name a = Some "Ann")
                 [article_1; article_2]))) ∧
  (sum_abs (Merged.Article_Reads <$>
              merge_left [article_1; article_2] [author_1; author_1]) < 2 ^ 53 →
   100 = foldr Z.add 0
         ((λ a, Z.of_nat (Nat.max 1 (matches [author_1; author_1] a))
                * default 0 (Article.Reads a)) <$>
            filter (λ a, Article.Author_Name a = Some "Ann")
              [article_1; article_2]) ∧
   (NoDup (Author.Author_Id <$> [author_1; author_1]) →
    100 = foldr Z.add 0
          (default 0 ∘ Article.Reads <$>
             filter (λ a, Article.Author_Name a = Some "Ann")
               [article_1; article_2]))).
Proof.
  apply (author_totals_over_join int64 [article_1; article_2]
           [author_1; author_1] "Ann" 100).
  vm_compute. left.
Defined.

(** ** The default sort *)

(** X20: the ranking that [sort_values] asks for without naming a kind,
    the introsort of the numerical library, returns for every array of
    values each position once, in an order in which the values ascend; so
    reading the array in that order gives its values sorted, none lost
    and none added. *)
Theorem default_argsort_sorts (v : list Z) :
  Numpy.aquicksort v ≡ₚ seq 0 (length v) ∧
  Sorted Z.le (take_idx v (Numpy.aquicksort v)) ∧
  take_idx v (Numpy.aquicksort v) ≡ₚ v.
Proof.
  destruct (aquicksort_ok v) as [Hperm Hsorted].
  split_and!; [done | done | by apply take_idx_Permutation].
Qed.

(** ** Dates that do not parse *)

(** X21: loading keeps every reader row, and a joined row passes an
    active time window only with a date that parsed: it stems from an
    article row of the file whose date text was read as a time at or
    after the cutoff.  An article whose date is missing or does not parse
    is shown under "All Time" only. *)
Theorem window_rows_have_parsed_dates (to_datetime : string → option Z)
    (d : disk) (v : loaded) (now : Z) (choice : date_option) :
  load_data to_datetime d = inr v → choice ≠ All_Time →
  ∃ readers articles cutoff,
    reader_csv d = Some readers ∧ article_csv d = Some articles ∧
    date_cutoff now choice = Some cutoff ∧
    length (reader_df v) = length readers ∧
    ∀ m, m ∈ filtered_merged_df (merged_df v) (Some cutoff) →
      ∃ a s t,
        a ∈ articles ∧ Article.Title a = Merged.Title m ∧
        Article.Date a = Some s ∧ to_datetime s = Some t ∧
        Merged.Date m = Some t ∧ cutoff ≤ t.
Proof.
  intros Hload Hchoice. unfold load_data in Hload.
  destruct (reader_csv d) as [readers|] eqn:Hr; [| done].
  destruct (article_csv d) as [articles|] eqn:Ha; [| done].
  destruct (author_csv d) as [authors|] eqn:Hu; [| done].
  injection Hload as <-. simpl.
  assert (∃ cutoff, date_cutoff now choice = Some cutoff) as [cutoff Hc]
    by (destruct choice; simpl; eauto; done).
  exists readers, articles, cutoff. split_and!; [done | done | done | |].
  - by rewrite length_fmap.
  - intros m [Hge Hm]%list_elem_of_filter.
    unfold merge_left in Hm.
    apply list_elem_of_bind in Hm as (a' & Hm & Ha').
    apply list_elem_of_fmap in Ha' as (a & -> & Hin).
    assert (Merged.Title m = Article.Title a ∧
            Merged.Date m = Article.Date a ≫= to_datetime) as [Htitle Hdate].
    { destruct (filter _ authors) as [|u us].
      - apply list_elem_of_singleton in Hm as ->. done.
      - apply list_elem_of_fmap in Hm as (u' & -> & _). done. }
    unfold date_ge in Hge. rewrite Hdate in Hge.
    destruct (Article.Date a) as [s|] eqn:Hs; [| done]. simpl in Hge.
    destruct (to_datetime s) as [t|] eqn:Ht; [| done].
    exists a, s, t. split_and!; try done. rewrite Hdate. simpl. exact Ht.
Qed.

Lemma window_rows_have_parsed_dates_witness :
  ∃ readers articles cutoff,
    reader_csv sample_disk = Some readers ∧
    article_csv sample_disk = Some articles ∧
    date_cutoff 86400000000000 Last_7_Days = Some cutoff ∧
    length (reader_df sample_loaded) = length readers ∧
    ∀ m, m ∈ filtered_merged_df (merged_df sample_loaded) (Some cutoff) →
      ∃ a s t,
        a ∈ articles ∧ Article.Title a = Merged.Title m ∧
        Article.Date a = Some s ∧ sample_to_datetime s = Some t ∧
        Merged.Date m = Some t ∧ cutoff ≤ t.
Proof.
  apply (window_rows_have_parsed_dates sample_to_datetime sample_disk
           sample_loaded 86400000000000 Last_7_Days).
  - reflexivity.
  - discriminate.
Defined.
